(** * earthsim: the tick pipeline of [src/main.js]

    A shallow embedding of the simulation step of the planetary grid
    (volcanism, atmosphere decay, per-tile pass, heat diffusion, cover
    classification), of the construction of the world, of its statistics
    and of its picture, together with the properties the specification
    states about them and further properties of the code.

    Numbers.  JavaScript numbers are modelled as exact rationals in lowest
    terms ([Qc]), so that numeric equality is Leibniz equality; decimal
    constants such as [0.01] stand for the rational they denote.
    [Math.sqrt] has irrational values and is a parameter of the model, as is
    the sequence of values returned by [Math.random].  The rounding of the
    doubles is not modelled, and the statements keep to what rounding
    preserves: an equation gives a value as the expression the code
    evaluates, an inequality rests on the signs and on the monotonicity of
    the operations, and the sample runs show properties that do not depend
    on rounding.  Closed forms and conservation laws, which hold in exact
    arithmetic only, are not stated.

    State.  The closure variables [atmosphere], [biomass] and [tiles] of
    [World()] form the record [World]; [tiles] is the array of columns
    [tiles[x][y]].  A property access on [undefined] (an index outside the
    grid) raises a TypeError in the source and is [None] here.

    Output.  [updateStats] is modelled by the numbers it shows and [draw] by
    the list of its [fillRect] calls; the conversion of a whole number to
    text is a parameter of [rgb] and [hsl]. *)

From stdpp Require Import strings pretty.
From Stdlib Require Import QArith Qcanon Qround Lia Lra Psatz ZArith.
From stdpp Require Import base option list numbers.

Local Open Scope Qc_scope.

(** ** Numbers *)

Definition num (n : Z) (d : positive) : Qc := Q2Qc (n # d).
Definition ofZ (n : Z) : Qc := Q2Qc (inject_Z n).
Definition ofNat (n : nat) : Qc := ofZ (Z.of_nat n).

(** [a < b], [a > b], [a == b] on numbers. *)
Definition ltb (a b : Qc) : bool :=
  match a ?= b with Lt => true | _ => false end.
Definition gtb (a b : Qc) : bool := ltb b a.
Definition eqb (a b : Qc) : bool :=
  match a ?= b with Eq => true | _ => false end.

Definition Math_min (a b : Qc) : Qc := if ltb b a then b else a.
Definition Math_max (a b : Qc) : Qc := if ltb a b then b else a.
Definition Math_floor (a : Qc) : Z := Qfloor (this a).

(** ** Data model *)

Inductive TileCover : Type := NotComputed | Rock | Water | Ice.

Definition cover_eqb (a b : TileCover) : bool :=
  match a, b with
  | NotComputed, NotComputed | Rock, Rock | Water, Water | Ice, Ice => true
  | _, _ => false
  end.

Record Atmosphere : Type := mkAtmosphere {
  nitrogen : Qc;
  oxygen : Qc;
  carbonDioxide : Qc;
  methane : Qc;
  waterVapour : Qc
}.

Record Biomass : Type := mkBiomass {
  total : Qc;
  prokaryote : Qc
}.

Record Tile : Type := mkTile {
  altitude : Qc;
  baseLuminosity : Qc;
  heat : Qc;
  tileCover : TileCover;
  biomass : Biomass
}.

(** The closure state of [World()]; [drawn] counts the calls made to
    [Math.random] so far. *)
Record World : Type := mkWorld {
  atmosphere : Atmosphere;
  worldBiomass : Biomass;
  tiles : list (list Tile);
  drawn : nat
}.

(** ** Constants *)

Definition worldWidth : nat := 100.
Definition worldHeight : nat := 100.

Definition maxAltitude : Qc := num 5000 1.
Definition erosionRate : Qc := num 4 1.
Definition atmosphereLossRate : Qc := num 1 100.
Definition atmospherePerTile : Qc := 1 / ofNat (worldHeight * worldWidth).

Definition seaLevel : Qc := num 1000 1.
Definition freezingPoint : Qc := num 90 1.
Definition unlivableTemperature : Qc := num 180 1.

Definition volcanoDiameter : nat := 9.
Definition volcanoHalfDiameter : nat := volcanoDiameter / 2.
Definition volcanoMinUpthrust : Qc := num 1000 1.
Definition volcanoUpthrustVariation : Qc := num 1000 1.

Definition fullLuminosityHeat : Qc := num 60 1.
Definition polarLuminosity : Qc := num 1 2.
Definition iceReflectivity : Qc := num 1 4.
Definition waterReflectivity : Qc := 0.

Definition carbonHeatRetention : Qc := num 1 5.
Definition carbonPerLandTile : Qc := 1.
Definition waterVaporHeatRetention : Qc := num 1 5.
Definition waterVaporPerOceanTile : Qc := 1.

Definition photosynthticBiomassPerEnergy : Qc := num 120 1.
Definition carbonPerPhotosyntheticBiomass : Qc := num 1 100.
Definition oxygenPerPhotosyntheticBiomass : Qc := num 1 100.

Definition prokaryoteAbiogenesisChance : Qc := num 4 1000000.
Definition prokaryoteAbiogenesisMinHeat : Qc := num 160 1.
Definition prokaryoteReproductionRate : Qc := num 5 1000.

(** ** Field assignments *)

Definition set_altitude (v : Qc) (t : Tile) : Tile :=
  mkTile v (baseLuminosity t) (heat t) (tileCover t) (biomass t).
Definition set_heat (v : Qc) (t : Tile) : Tile :=
  mkTile (altitude t) (baseLuminosity t) v (tileCover t) (biomass t).
Definition set_tileCover (c : TileCover) (t : Tile) : Tile :=
  mkTile (altitude t) (baseLuminosity t) (heat t) c (biomass t).
Definition set_biomass (b : Biomass) (t : Tile) : Tile :=
  mkTile (altitude t) (baseLuminosity t) (heat t) (tileCover t) b.
Definition set_prokaryote (v : Qc) (t : Tile) : Tile :=
  set_biomass (mkBiomass (total (biomass t)) v) t.

Definition set_tiles (ts : list (list Tile)) (w : World) : World :=
  mkWorld (atmosphere w) (worldBiomass w) ts (drawn w).
Definition set_atmosphere (a : Atmosphere) (w : World) : World :=
  mkWorld a (worldBiomass w) (tiles w) (drawn w).

(** ** The grid as a store *)

(** [tiles[x][y]]; [None] when the index leaves the grid. *)
Definition getTile (w : World) (x y : nat) : option Tile :=
  col ← tiles w !! x; col !! y.

(** An assignment to a field of the tile object [tiles[x][y]]. *)
Definition updTile (x y : nat) (f : Tile → Tile) (w : World) : option World :=
  col ← tiles w !! x;
  t ← col !! y;
  Some (set_tiles (<[x := <[y := f t]> col]> (tiles w)) w).

(** [arr.forEach(function(val, i) {...})] over the indices [idx] of [arr],
    threading the state through the calls. *)
Fixpoint forEach {S : Type} (idx : list nat) (f : nat → S → option S) (s : S)
  : option S :=
  match idx with
  | [] => Some s
  | i :: rest => s' ← f i s; forEach rest f s'
  end.

(** [applyTiles(func)]: columns in ascending [x], and within a column tiles
    in ascending [y]; [func] receives the tile object [tiles[x][y]], which
    it reaches here through the store. *)
Definition applyTiles (func : nat → nat → World → option World) (w : World)
  : option World :=
  forEach (seq 0 (length (tiles w)))
    (λ x w, col ← tiles w !! x;
            forEach (seq 0 (length col)) (λ y w, func x y w) w) w.

(** ** Construction *)

Definition newBiomass : Biomass := mkBiomass 0 0.

Definition newAtmosphere : Atmosphere := mkAtmosphere 0 0 0 0 0.

Definition Qcabs (a : Qc) : Qc := if ltb a 0 then - a else a.

Definition newTile (x y : nat) : Tile :=
  let equatorialDistance :=
    Qcabs (ofNat y - ofNat worldHeight / 2) / (ofNat worldHeight / 2) in
  mkTile 0 (1 - ((1 - polarLuminosity) * equatorialDistance)) 0 NotComputed
         newBiomass.

Definition newTiles : list (list Tile) :=
  map (λ x, map (λ y, newTile x y) (seq 0 worldHeight)) (seq 0 worldWidth).

Definition newWorld : World := mkWorld newAtmosphere newBiomass newTiles 0.

(** ** Pure per-tile computations *)

Definition computeTileAtmosphere (atmosphere : Atmosphere) : Atmosphere :=
  mkAtmosphere (nitrogen atmosphere * atmospherePerTile)
               (oxygen atmosphere * atmospherePerTile)
               (carbonDioxide atmosphere * atmospherePerTile)
               (methane atmosphere * atmospherePerTile)
               (waterVapour atmosphere * atmospherePerTile).

Definition computeHeatTrappingFactor (atmosphere : Atmosphere) : Qc :=
  carbonDioxide atmosphere * carbonHeatRetention
  + waterVapour atmosphere * waterVaporHeatRetention.

Definition computeLuminosity (tile : Tile) : Qc :=
  if cover_eqb (tileCover tile) Water then
    baseLuminosity tile * (1 - waterReflectivity)
  else if cover_eqb (tileCover tile) Ice then
    baseLuminosity tile * (1 - iceReflectivity)
  else baseLuminosity tile.

Definition computeHeat (tile : Tile) (luminosity heatTrappingFactor : Qc) : Qc :=
  let turnHeat := fullLuminosityHeat * luminosity * (1 + heatTrappingFactor) in
  turnHeat * num 2 10 + heat tile * num 8 10.

Definition computeTileCover (tile : Tile) : TileCover :=
  if ltb (altitude tile) seaLevel then
    if gtb (heat tile) freezingPoint then Water else Ice
  else Rock.

Definition canProkaryotesSurvive (tile : Tile) : bool :=
  ltb (heat tile) unlivableTemperature && cover_eqb (tileCover tile) Water.

(** The decay statements at the head of [tick], which also reset the water
    vapour. *)
Definition decayAtmosphere (a : Atmosphere) : Atmosphere :=
  mkAtmosphere (nitrogen a - nitrogen a * atmosphereLossRate)
               (oxygen a - oxygen a * atmosphereLossRate)
               (carbonDioxide a - carbonDioxide a * atmosphereLossRate)
               (methane a - methane a * atmosphereLossRate)
               0.

(** Erosion, heat update and gas emission of one tile (the first statements
    of the per-tile callback of [tick]). *)
Definition tileClimate (heatTrappingFactor : Qc) (tile : Tile)
    (atmosphere : Atmosphere) : Tile * Atmosphere :=
  let tile := set_altitude (Math_max (altitude tile - erosionRate) 0) tile in
  let luminosity := computeLuminosity tile in
  let tile := set_heat (computeHeat tile luminosity heatTrappingFactor) tile in
  if cover_eqb (tileCover tile) Water then
    (tile, mkAtmosphere (nitrogen atmosphere) (oxygen atmosphere)
             (carbonDioxide atmosphere) (methane atmosphere)
             (waterVapour atmosphere + waterVaporPerOceanTile))
  else if cover_eqb (tileCover tile) Rock then
    (tile, mkAtmosphere (nitrogen atmosphere) (oxygen atmosphere)
             (carbonDioxide atmosphere + carbonPerLandTile)
             (methane atmosphere) (waterVapour atmosphere))
  else (tile, atmosphere).

(** [applyBiomass(tile, tileAtmosphere)]: writes the tile's biomass, the
    global atmosphere and the global biomass totals. *)
Definition applyBiomass (tile : Tile) (tileAtmosphere : Atmosphere)
    (atmosphere : Atmosphere) (biomass0 : Biomass)
  : Tile * Atmosphere * Biomass :=
  let b :=
    if gtb (heat tile) unlivableTemperature
       || negb (cover_eqb (tileCover tile) Water)
       || eqb (carbonDioxide tileAtmosphere) 0
    then mkBiomass 0 0 else biomass tile in
  let computedProkaryoteReproductionRate :=
    Math_min (carbonDioxide tileAtmosphere * prokaryoteReproductionRate)
             prokaryoteReproductionRate in
  let p := prokaryote b + prokaryote b * computedProkaryoteReproductionRate in
  let p := Math_min p (baseLuminosity tile * fullLuminosityHeat
                       * photosynthticBiomassPerEnergy) in
  let b := mkBiomass p p in
  let atmosphere :=
    mkAtmosphere (nitrogen atmosphere)
                 (oxygen atmosphere + p * oxygenPerPhotosyntheticBiomass)
                 (carbonDioxide atmosphere - p * carbonPerPhotosyntheticBiomass)
                 (methane atmosphere) (waterVapour atmosphere) in
  (set_biomass b tile, atmosphere,
   mkBiomass (total biomass0 + total b) (prokaryote biomass0 + prokaryote b)).

(** [transferHeat(x, y, tile)] with [tile = tiles[x][y]]. *)
Definition transferHeat (x y : nat) (w : World) : option World :=
  tile ← getTile w x y;
  horizontalTile ← getTile w ((x + 1) mod worldWidth) y;
  let horizontalAveHeat := (heat tile + heat horizontalTile) / 2 in
  w ← updTile ((x + 1) mod worldWidth) y (set_heat horizontalAveHeat) w;
  if negb (y + 1 =? worldHeight)%nat then
    tile ← getTile w x y;
    verticalTile ← getTile w x (y + 1);
    let verticalAveHeat := (heat tile + heat verticalTile) / 2 in
    w ← updTile x (y + 1) (set_heat verticalAveHeat) w;
    updTile x y (set_heat ((horizontalAveHeat + verticalAveHeat) / 2)) w
  else
    updTile x y (set_heat horizontalAveHeat) w.

(** [transferProkaryotes(x, y, tile)] with [tile = tiles[x][y]]. *)
Definition transferProkaryotes (x y : nat) (w : World) : option World :=
  tile ← getTile w x y;
  if canProkaryotesSurvive tile then
    horizontalTile ← getTile w ((x + 1) mod worldWidth) y;
    w ← (if canProkaryotesSurvive horizontalTile
            && (gtb (prokaryote (biomass tile)) 2
                || gtb (prokaryote (biomass horizontalTile)) 2)
         then
           let horizontalAvePop :=
             (prokaryote (biomass tile) + prokaryote (biomass horizontalTile)) / 2 in
           w ← updTile ((x + 1) mod worldWidth) y (set_prokaryote horizontalAvePop) w;
           updTile x y (set_prokaryote horizontalAvePop) w
         else Some w);
    if negb (y + 1 =? worldHeight)%nat then
      tile ← getTile w x y;
      verticalTile ← getTile w x (y + 1);
      if canProkaryotesSurvive verticalTile
         && (gtb (prokaryote (biomass tile)) 2
             || gtb (prokaryote (biomass verticalTile)) 2)
      then
        let verticalAvePop :=
          (prokaryote (biomass tile) + prokaryote (biomass verticalTile)) / 2 in
        w ← updTile x (y + 1) (set_prokaryote verticalAvePop) w;
        updTile x y (set_prokaryote verticalAvePop) w
      else Some w
    else Some w
  else Some w.

(** The last pass of [tick]. *)
Definition classifyTile (x y : nat) (w : World) : option World :=
  updTile x y (λ tile, set_tileCover (computeTileCover tile) tile) w.

(** ** The operations that use [Math.sqrt] and [Math.random] *)

Section Tick.

(** [Math.sqrt], and the value returned by the [k]-th call of
    [Math.random] (a number in [[0, 1)]). *)
Variable Math_sqrt : Qc → Qc.
Variable Math_random : nat → Qc.

Definition getRandomX (k : nat) : Z :=
  Math_floor (Math_random k * ofNat worldWidth).

Definition getRandomY (k : nat) : Z :=
  Math_floor (Math_random k * ofNat worldHeight).

(** One entry of the table [spreadUpthrust]. *)
Definition spreadEntry (upthrust : Qc) (x y : nat) : Qc :=
  let xDist := ofNat volcanoHalfDiameter - ofNat x in
  let yDist := ofNat volcanoHalfDiameter - ofNat y in
  let dist := Math_sqrt ((xDist * xDist) + (yDist * yDist)) in
  (Math_max (ofNat volcanoHalfDiameter - dist) 0 / ofNat volcanoHalfDiameter)
  * upthrust.

Definition spreadUpthrust (upthrust : Qc) : list (list Qc) :=
  map (λ x, map (λ y, spreadEntry upthrust x y) (seq 0 volcanoDiameter))
      (seq 0 volcanoDiameter).

(** [tiles[x][y]] for numbers [x], [y] that may be negative. *)
Definition updTileZ (x y : Z) (f : Tile → Tile) (w : World) : option World :=
  if ((0 <=? x) && (0 <=? y))%Z
  then updTile (Z.to_nat x) (Z.to_nat y) f w
  else None.

Definition eruptVolcano (w : World) : option World :=
  let baseX := getRandomX (drawn w) in
  let baseY := getRandomY (S (drawn w)) in
  let upthrust :=
    volcanoMinUpthrust
    + ofZ (Math_floor (volcanoUpthrustVariation * Math_random (S (S (drawn w))))) in
  let w := mkWorld (atmosphere w) (worldBiomass w) (tiles w) (S (S (S (drawn w)))) in
  let table := spreadUpthrust upthrust in
  forEach (seq 0 (length table))
    (λ xOffset w,
       val ← table !! xOffset;
       forEach (seq 0 (length val))
         (λ yOffset w,
            val ← val !! yOffset;
            let x := (baseX + Z.of_nat xOffset)%Z in
            let y := (baseY + Z.of_nat yOffset)%Z in
            if ((x <? Z.of_nat worldWidth) && (y <? Z.of_nat worldHeight))%Z then
              updTileZ x y
                (λ tile, set_altitude (Math_min (altitude tile + val) maxAltitude) tile)
                w
            else Some w)
         w)
    w.

(** The abiogenesis statement of the per-tile callback; a number is drawn
    only when the outer condition holds. *)
Definition abiogenesis (tile : Tile) (k : nat) : Tile * nat :=
  if eqb (total (biomass tile)) 0
     && gtb (heat tile) prokaryoteAbiogenesisMinHeat
     && ltb (heat tile) unlivableTemperature
  then
    if ltb (Math_random k) prokaryoteAbiogenesisChance
    then (set_biomass (mkBiomass 1 1) tile, S k)
    else (tile, S k)
  else (tile, k).

(** The callback of the first [applyTiles] of [tick], up to its last
    statement: every statement before the call of [transferProkaryotes]. *)
Definition tileLocal (tileAtmosphere : Atmosphere) (heatTrappingFactor : Qc)
    (x y : nat) (w : World) : option World :=
  tile ← getTile w x y;
  let '(tile, atm) := tileClimate heatTrappingFactor tile (atmosphere w) in
  let '(tile, k) := abiogenesis tile (drawn w) in
  let '(tile, atm, bio) := applyBiomass tile tileAtmosphere atm (worldBiomass w) in
  updTile x y (λ _, tile) (mkWorld atm bio (tiles w) k).

(** The callback of the first [applyTiles] of [tick]. *)
Definition tileStep (tileAtmosphere : Atmosphere) (heatTrappingFactor : Qc)
    (x y : nat) (w : World) : option World :=
  w ← tileLocal tileAtmosphere heatTrappingFactor x y w;
  transferProkaryotes x y w.

(** The statements of [tick] between the eruption and the first pass. *)
Definition beginTick (w : World) : World :=
  mkWorld (decayAtmosphere (atmosphere w)) (mkBiomass 0 0) (tiles w) (drawn w).

Definition tick (w : World) : option World :=
  w ← eruptVolcano w;
  let w := beginTick w in
  let tileAtmosphere := computeTileAtmosphere (atmosphere w) in
  let heatTrappingFactor := computeHeatTrappingFactor tileAtmosphere in
  w ← applyTiles (tileStep tileAtmosphere heatTrappingFactor) w;
  w ← applyTiles transferHeat w;
  applyTiles classifyTile w.

(** [n] calls of [tick], as made by the timer. *)
Fixpoint ticks (n : nat) (w : World) : option World :=
  match n with
  | O => Some w
  | S n => w ← tick w; ticks n w
  end.

End Tick.


(** ** The tick with volcanism and biomass switched off

    The same statements as [tick] without the call of [eruptVolcano] and
    without the biomass statements of the per-tile callback (abiogenesis,
    [applyBiomass], [transferProkaryotes]). *)

Definition tileAbiotic (heatTrappingFactor : Qc) (x y : nat) (w : World)
  : option World :=
  tile ← getTile w x y;
  let '(tile, atm) := tileClimate heatTrappingFactor tile (atmosphere w) in
  updTile x y (λ _, tile) (mkWorld atm (worldBiomass w) (tiles w) (drawn w)).

Definition tickAbiotic (w : World) : option World :=
  let w := beginTick w in
  let tileAtmosphere := computeTileAtmosphere (atmosphere w) in
  let heatTrappingFactor := computeHeatTrappingFactor tileAtmosphere in
  w ← applyTiles (tileAbiotic heatTrappingFactor) w;
  w ← applyTiles transferHeat w;
  applyTiles classifyTile w.

Fixpoint ticksAbiotic (n : nat) (w : World) : option World :=
  match n with
  | O => Some w
  | S n => w ← tickAbiotic w; ticksAbiotic n w
  end.

(** ** Vocabulary of the statements *)

(** The grid has [worldWidth] columns of [worldHeight] tiles, as [Tiles()]
    builds it. *)
Definition wf (w : World) : Prop :=
  length (tiles w) = worldWidth
  ∧ Forall (λ col : list Tile, length col = worldHeight) (tiles w).

(** A loop over a list of index pairs. *)
Fixpoint forEach2 {S : Type} (idx : list (nat * nat))
    (f : nat → nat → S → option S) (s : S) : option S :=
  match idx with
  | [] => Some s
  | (i, j) :: rest => s' ← f i j s; forEach2 rest f s'
  end.

Definition pairs (xs ys : list nat) : list (nat * nat) :=
  x ← xs; (λ y, (x, y)) <$> ys.

(** The coordinates of the grid, sorted by [x] and then by [y]. *)
Definition rasterOrder : list (nat * nat) :=
  pairs (seq 0 worldWidth) (seq 0 worldHeight).

(** Two worlds agree on the field [π] of every tile. *)
Definition same {A : Type} (π : Tile → A) (w w' : World) : Prop :=
  ∀ x y, π <$> getTile w' x y = π <$> getTile w x y.

Definition isWater (t : Tile) : bool := cover_eqb (tileCover t) Water.
Definition isRock (t : Tile) : bool := cover_eqb (tileCover t) Rock.

(** Number of tiles of the grid that satisfy [p]. *)
Definition countTiles (p : Tile → bool) (w : World) : nat :=
  length (filter (λ t, p t = true) (concat (tiles w))).

(** The random numbers lie in [[0, 1)]. *)
Definition unitInterval (r : nat → Qc) : Prop := ∀ k, 0 ≤ r k ∧ r k < 1.

(** ** Vocabulary of the proofs *)

(** What an assignment [tiles[x][y].field = ...] leaves behind. *)
Definition updated (x y : nat) (f : Tile → Tile) (w w' : World) : Prop :=
  atmosphere w' = atmosphere w
  ∧ worldBiomass w' = worldBiomass w
  ∧ drawn w' = drawn w
  ∧ (wf w → wf w')
  ∧ ∀ x' y', getTile w' x' y' =
      if decide (x' = x ∧ y' = y) then f <$> getTile w x y else getTile w x' y'.

(** The assignment the eruption makes to a tile it reaches. *)
Definition raise (val : Qc) (tile : Tile) : Tile :=
  set_altitude (Math_min (altitude tile + val) maxAltitude) tile.

(** The population [applyBiomass] leaves on a tile. *)
Definition grownPopulation (tile : Tile) (tileAtmosphere : Atmosphere) : Qc :=
  let p0 :=
    if gtb (heat tile) unlivableTemperature
       || negb (cover_eqb (tileCover tile) Water)
       || eqb (carbonDioxide tileAtmosphere) 0
    then 0 else prokaryote (biomass tile) in
  Math_min
    (p0 + p0 * Math_min (carbonDioxide tileAtmosphere * prokaryoteReproductionRate)
                        prokaryoteReproductionRate)
    (baseLuminosity tile * fullLuminosityHeat * photosynthticBiomassPerEnergy).

(** Number of coordinates of [idx] whose tile satisfies [p]. *)
Fixpoint countAt (p : Tile → bool) (w : World) (idx : list (nat * nat)) : nat :=
  match idx with
  | [] => 0
  | (x, y) :: rest =>
      (match getTile w x y with
       | Some t => if p t then 1 else 0
       | None => 0
       end + countAt p w rest)%nat
  end.

(** Every tile has a nonnegative biomass and a nonnegative luminosity. *)
Definition tilesNonneg (w : World) : Prop :=
  ∀ (x y : nat) tile, getTile w x y = Some tile →
    0 ≤ total (biomass tile) ∧ 0 ≤ prokaryote (biomass tile)
    ∧ 0 ≤ baseLuminosity tile.

(** ** Sample inputs *)

(** A rational stand-in for [Math.sqrt], used only to run examples: the
    integer part of the root, which is the root itself on perfect
    squares. *)
Definition sqrtFloor (q : Qc) : Qc := ofZ (Z.sqrt (Math_floor q)).

(** A full grid whose tiles are all equal to [t]. *)
Definition uniformTiles (t : Tile) : list (list Tile) :=
  replicate worldWidth (replicate worldHeight t).

Definition putTile (x y : nat) (t : Tile) (ts : list (list Tile))
  : list (list Tile) :=
  match ts !! x with
  | Some col => <[x := <[y := t]> col]> ts
  | None => ts
  end.

(** What a run leaves in a field of the tile [(x, y)], and in the
    atmosphere. *)
Definition observe (f : Tile → Qc) (x y : nat) (ow : option World) : option Q :=
  w ← ow; (λ t, this (f t)) <$> getTile w x y.

(** The total and the population of the tile [(x, y)] after a run. *)
Definition observeBiomass (x y : nat) (ow : option World) : option (Q * Q) :=
  w ← ow;
  (λ t, (this (total (biomass t)), this (prokaryote (biomass t)))) <$> getTile w x y.

Definition observeGas (f : Atmosphere → Qc) (ow : option World) : option Q :=
  (λ w, this (f (atmosphere w))) <$> ow.

(** A water tile at sea bottom, heat 100 and full luminosity that carries
    the population [p]. *)
Definition oceanTile (p : Qc) : Tile :=
  mkTile 0 1 (num 100 1) Water (mkBiomass p p).

(** An ocean without life but for a colony of population [p] on the tile
    [(x, y)], under an atmosphere that holds [co2] carbon dioxide and
    nothing else. *)
Definition ocean (co2 : Qc) (x y : nat) (p : Qc) : World :=
  mkWorld (mkAtmosphere 0 0 co2 0 0) newBiomass
    (putTile x y (oceanTile p) (uniformTiles (oceanTile 0))) 0.

Definition leb (a b : Qc) : bool := negb (ltb b a).

(** The ocean with one unit of biomass on the tile [(0, 0)] under an
    atmosphere that holds 0.01 carbon dioxide. *)
Definition thinAirOcean : World := ocean (num 1 100) 0 0 1.

(** The per-tile pass of [tick] on the state [w] that [beginTick] left. *)
Definition perTilePass (rand : nat → Qc) (w : World) : option World :=
  let tileAtmosphere := computeTileAtmosphere (atmosphere w) in
  let heatTrappingFactor := computeHeatTrappingFactor tileAtmosphere in
  applyTiles (tileStep rand tileAtmosphere heatTrappingFactor) w.

(** The tick up to the end of its per-tile pass. *)
Definition localPass (sqrt : Qc → Qc) (rand : nat → Qc) (w : World)
  : option World :=
  w ← eruptVolcano sqrt rand w; perTilePass rand (beginTick w).

(** The ocean with a colony of 10 on the tile [(1, 0)] under an atmosphere
    that holds 10000 carbon dioxide. *)
Definition colonyOcean : World := ocean (num 10000 1) 1 0 (num 10 1).

(** The order of the claim: the local step of every tile first, the
    population diffusion of every tile after it. *)
Definition localThenDiffusion (rand : nat → Qc) (w : World) : option World :=
  let tileAtmosphere := computeTileAtmosphere (atmosphere w) in
  let heatTrappingFactor := computeHeatTrappingFactor tileAtmosphere in
  w ← applyTiles (tileLocal rand tileAtmosphere heatTrappingFactor) w;
  applyTiles transferProkaryotes w.

(** The ocean with a colony of 10 on the tile [(1, 0)] under an atmosphere
    without carbon dioxide. *)
Definition starvedOcean : World := ocean 0 1 0 (num 10 1).

Definition rockTile : Tile :=
  mkTile (num 2000 1) 1 (num 170 1) Rock (mkBiomass 0 0).

Definition pondTile : Tile := mkTile 0 1 (num 170 1) Water (mkBiomass 0 0).

(** Rock everywhere at heat 170, but for a lifeless pond on the tile
    [(50, 50)], under an atmosphere that holds 100000 carbon dioxide. *)
Definition pondWorld : World :=
  mkWorld (mkAtmosphere 0 0 (num 100000 1) 0 0) newBiomass
    (putTile 50 50 pondTile (uniformTiles rockTile)) 0.

(** The contribution the claim gives the tile at the offset [(dx, dy)] from
    the selected tile. *)
Definition centredContribution (sqrt : Qc → Qc) (upthrust : Qc) (dx dy : Z) : Qc :=
  upthrust
  * Math_max (ofNat volcanoHalfDiameter - sqrt (ofZ dx * ofZ dx + ofZ dy * ofZ dy)) 0
  / ofNat volcanoHalfDiameter.

(** ** Vocabulary of the abiotic runs *)

(** One decay statement of [tick]: [quantity -= quantity * atmosphereLossRate]. *)
Definition decayed (q : Qc) : Qc := q - q * atmosphereLossRate.

(** Every tile's cover is the classification of its altitude and heat. *)
Definition classified (w : World) : Prop :=
  ∀ (x y : nat) t, getTile w x y = Some t → tileCover t = computeTileCover t.

(** No tile lies above [B]. *)
Definition altBound (B : Qc) (w : World) : Prop :=
  ∀ (x y : nat) t, getTile w x y = Some t → altitude t ≤ B.

(** The highest altitude of the grid (0 at least). *)
Definition gridMax (w : World) : Qc :=
  foldr (λ t acc, Math_max (altitude t) acc) 0 (concat (tiles w)).

(** A lifeless world of rock, 2000 high, under an empty atmosphere. *)
Definition rockWorld : World :=
  mkWorld (mkAtmosphere 0 0 0 0 0) newBiomass (uniformTiles rockTile) 0.

(** ** Vocabulary of the further properties *)

(** The tile without its biomass: the fields no population exchange
    touches. *)
Definition ground (t : Tile) : Tile :=
  mkTile (altitude t) (baseLuminosity t) (heat t) (tileCover t) (mkBiomass 0 0).

(** The bound [applyBiomass] puts on the population of a tile. *)
Definition capacity (t : Tile) : Qc :=
  baseLuminosity t * fullLuminosityHeat * photosynthticBiomassPerEnergy.

(** What the per-tile pass of a tick makes of the tile [t], when it runs
    with the heat-trapping factor [htf] and the per-tile atmosphere [ta]. *)
Definition afterVisit (htf : Qc) (ta : Atmosphere) (t t' : Tile) : Prop :=
  altitude t' = Math_max (altitude t - erosionRate) 0
  ∧ baseLuminosity t' = baseLuminosity t
  ∧ heat t' = computeHeat t (computeLuminosity t) htf
  ∧ tileCover t' = tileCover t
  ∧ total (biomass t') ≤ capacity t
  ∧ (0 ≤ baseLuminosity t → carbonDioxide ta = 0 → total (biomass t') = 0)
  ∧ (0 ≤ baseLuminosity t →
     tileCover t ≠ Water ∨ unlivableTemperature < heat t' →
     total (biomass t') = 0 ∧ prokaryote (biomass t') = 0).

(** The heat-trapping factor a tick from the state [w] works with. *)
Definition tickHeatTrapping (w : World) : Qc :=
  computeHeatTrappingFactor (computeTileAtmosphere (atmosphere (beginTick w))).

(** Every tile's heat lies between [lo] and [hi]. *)
Definition heatBetween (lo hi : Qc) (w : World) : Prop :=
  ∀ (x y : nat) t, getTile w x y = Some t → lo ≤ heat t ∧ heat t ≤ hi.

(** The sum of [v] over the tiles at the positions [idx]. *)
Fixpoint sumAt (v : Tile → Qc) (w : World) (idx : list (nat * nat)) : Qc :=
  match idx with
  | [] => 0
  | (x, y) :: rest =>
      match getTile w x y with
      | Some t => v t
      | None => 0
      end + sumAt v w rest
  end.

(** The sum of [v] over the tiles of the grid. *)
Definition gridSum (v : Tile → Qc) (w : World) : Qc :=
  foldr (λ t acc, v t + acc) 0 (concat (tiles w)).

Definition tileTotal (t : Tile) : Qc := total (biomass t).

(** Whether the visit of the tile [t] in the per-tile pass makes an
    abiogenesis trial, and so calls [Math.random]: the tile has no biomass
    and its new heat lies strictly between [prokaryoteAbiogenesisMinHeat] and
    [unlivableTemperature]. *)
Definition abiogenesisTrial (htf : Qc) (t : Tile) : bool :=
  eqb (total (biomass t)) 0
  && gtb (computeHeat t (computeLuminosity t) htf) prokaryoteAbiogenesisMinHeat
  && ltb (computeHeat t (computeLuminosity t) htf) unlivableTemperature.

(** The population of a tile of full luminosity at capacity. *)
Definition maxPopulation : Qc := fullLuminosityHeat * photosynthticBiomassPerEnergy.

(** No tile is brighter than full luminosity or holds more than
    [maxPopulation]. *)
Definition populationBounded (w : World) : Prop :=
  ∀ (x y : nat) t, getTile w x y = Some t →
    baseLuminosity t ≤ 1 ∧ prokaryote (biomass t) ≤ maxPopulation.

(** ** Statistics *)

(** The numbers [updateStats] writes into the page, before their
    conversion to text. *)
Record Stats := mkStats {
  co2 : Qc;
  oxygenStat : Qc;
  watervapour : Qc;
  avetemp : Qc;
  eqtemp : Qc;
  poltemp : Qc;
  prokaryoteStat : Qc
}.

(** [arr.reduce(callback, init)] with a callback that can raise. *)
Fixpoint reduce {A B : Type} (callback : B → A → option B) (arr : list A)
    (init : B) : option B :=
  match arr with
  | [] => Some init
  | cur :: rest => acc ← callback init cur; reduce callback rest acc
  end.

(** [updateStats()]; the index [worldHeight / 2] is the whole number 50. *)
Definition updateStats (w : World) : option Stats :=
  column ← tiles w !! 50%nat;
  ave ← reduce (λ acc tile, Some (acc + heat tile)) column 0;
  equ ← reduce (λ acc cur, tile ← cur !! (worldHeight / 2)%nat;
                           Some (acc + heat tile)) (tiles w) 0;
  pol ← reduce (λ acc cur, tile ← cur !! 0%nat; Some (acc + heat tile))
               (tiles w) 0;
  Some (mkStats (carbonDioxide (atmosphere w)) (oxygen (atmosphere w))
          (waterVapour (atmosphere w))
          (ave / ofNat worldHeight) (equ / ofNat worldWidth)
          (pol / ofNat worldHeight)
          (prokaryote (worldBiomass w))).

(** ** Rendering *)

Definition tileSize : Z := 10.
Definition canvasWidth : Z := 1000.
Definition canvasHeight : Z := 1000.

(** [Math.round]: the nearest whole number, halves rounded up. *)
Definition Math_round (a : Qc) : Z := Math_floor (a + num 1 2).

(** One call [context.fillRect(x, y, w, h)] together with the value
    [context.fillStyle] has at that call. *)
Record FillRect := mkFillRect {
  fillStyle : string;
  rectX : Z;
  rectY : Z;
  rectWidth : Z;
  rectHeight : Z
}.

Section Render.

(** The conversion of a whole number to a string, which the string
    concatenations of [rgb] and [hsl] apply to their numbers. *)
Variable Number_toString : Z → string.

Definition rgb (r g b : Qc) : string :=
  let r := Math_floor (r * num 256 1) in
  let g := Math_floor (g * num 256 1) in
  let b := Math_floor (b * num 256 1) in
  "rgb(" +:+ Number_toString r +:+ "," +:+ Number_toString g +:+ ","
  +:+ Number_toString b +:+ ")".

(** [hsl(h, s, l)]; every call passes a whole number for [h]. *)
Definition hsl (h : Z) (s l : Qc) : string :=
  let s := Math_round (s * num 100 1) in
  let l := Math_round (l * num 100 1) in
  "hsl(" +:+ Number_toString h +:+ "," +:+ Number_toString s +:+ "%,"
  +:+ Number_toString l +:+ "%)".

(** The fill style the callback of [draw] chooses for a tile. *)
Definition tileFillStyle (tile : Tile) : string :=
  if cover_eqb (tileCover tile) Rock then
    hsl 21 (num 55 100) (altitude tile / maxAltitude)
  else if cover_eqb (tileCover tile) Water then
    if eqb (prokaryote (biomass tile)) 0
    then hsl 233 (num 84 100) (num 45 100)
    else hsl 117 (num 8 10) (num 34 100)
  else if cover_eqb (tileCover tile) Ice then
    hsl 0 0 (num 9 10)
  else hsl 0 0 0.

(** [draw()]: the calls of [fillRect], in the order [applyTiles] makes
    them. *)
Definition draw (w : World) : list FillRect :=
  mjoin (imap (λ x val,
                 imap (λ y val,
                         mkFillRect (tileFillStyle val)
                           (Z.of_nat x * tileSize) (Z.of_nat y * tileSize)
                           tileSize tileSize) val)
              (tiles w)).

End Render.

(** [toString] writes whole numbers of magnitude below [10^21] in decimal
    digits, as the conversion of a JavaScript number to a string does. *)
Definition decimal (toString : Z → string) : Prop :=
  ∀ n : Z, (Z.abs n < 10 ^ 21)%Z → toString n = pretty n.

(** The pixel [(px, py)] lies in the rectangle. *)
Definition covers (r : FillRect) (px py : Z) : Prop :=
  (rectX r ≤ px < rectX r + rectWidth r)%Z
  ∧ (rectY r ≤ py < rectY r + rectHeight r)%Z.

(** What the colour of a tile shows. *)
Inductive Legend := Land | Ocean | Life | Frozen | Blank.

Definition legend (t : Tile) : Legend :=
  match tileCover t with
  | Rock => Land
  | Water => if eqb (prokaryote (biomass t)) 0 then Ocean else Life
  | Ice => Frozen
  | NotComputed => Blank
  end.

(** ** The animation *)

(** One turn of the timer, [w.tick(); w.draw(); w.updateStats()]: the new
    state, the picture and the statistics. *)
Definition frame (Math_sqrt : Qc → Qc) (Math_random : nat → Qc)
    (Number_toString : Z → string) (w : World)
  : option (World * list FillRect * Stats) :=
  w ← tick Math_sqrt Math_random w;
  let picture := draw Number_toString w in
  stats ← updateStats w;
  Some (w, picture, stats).

(** [n] turns of the timer. *)
Fixpoint frames (Math_sqrt : Qc → Qc) (Math_random : nat → Qc)
    (Number_toString : Z → string) (n : nat) (w : World) : option World :=
  match n with
  | O => Some w
  | S n =>
      r ← frame Math_sqrt Math_random Number_toString w;
      frames Math_sqrt Math_random Number_toString n r.1.1
  end.

(** Every altitude is between 0 and [maxAltitude]. *)
Definition altitudesInRange (w : World) : Prop :=
  ∀ (x y : nat) t, getTile w x y = Some t →
    0 ≤ altitude t ∧ altitude t ≤ maxAltitude.

(** The fill styles of the legend: hue, and saturation and lightness in
    whole percents between 0 and 100. *)
Definition legendStyle (s : string) : Prop :=
  s = "hsl(233,84%,45%)" ∨ s = "hsl(117,80%,34%)" ∨ s = "hsl(0,0%,90%)"
  ∨ s = "hsl(0,0%,0%)"
  ∨ ∃ L : Z, (0 ≤ L ≤ 100)%Z ∧ s = "hsl(21,55%," +:+ pretty L +:+ "%)".

(** ** Further sample inputs *)

(** A lifeless water tile at sea bottom, full luminosity and heat [h]. *)
Definition heatedTile (h : Qc) : Tile :=
  mkTile 0 1 h Water (mkBiomass 0 0).

(** The lifeless ocean at heat 100, but for the tile [(0, 0)] at heat 160
    and the tile south of it at heat 40, under an atmosphere that holds
    10000 carbon dioxide. *)
Definition hotSpot : World :=
  mkWorld (mkAtmosphere 0 0 (num 10000 1) 0 0) newBiomass
    (putTile 0 1 (heatedTile (num 40 1))
       (putTile 0 0 (heatedTile (num 160 1)) (uniformTiles (oceanTile 0)))) 0.

(** The grid of [pondWorld] under an atmosphere that holds every gas, with
    biomass counters left over from an earlier tick. *)
Definition mistyPond : World :=
  mkWorld (mkAtmosphere (num 100 1) (num 20 1) (num 100000 1) (num 50 1)
             (num 500 1))
    (mkBiomass (num 7 1) (num 7 1)) (tiles pondWorld) 0.

(** The ocean with a colony as large as a tile can hold on the tile
    [(1, 0)], under an atmosphere that holds 10000 carbon dioxide. *)
Definition crowdedOcean : World := ocean (num 10000 1) 1 0 (num 7200 1).

(** ** Vocabulary of the amended statements *)

(** What the assignment [tile.heat = v] makes of the tile [t]. *)
Definition heatAssigned (v : Qc) (t t' : Tile) : Prop :=
  heat t' = v
  ∧ altitude t' = altitude t
  ∧ baseLuminosity t' = baseLuminosity t
  ∧ tileCover t' = tileCover t
  ∧ biomass t' = biomass t.

#[global] Instance TileCover_eq_dec : EqDecision TileCover.
Proof. solve_decision. Defined.

(** Number of tiles of the grid whose cover is [c]. *)
Definition covered (c : TileCover) (w : World) : nat :=
  length (filter (λ t, tileCover t = c) (concat (tiles w))).

(** The share of the atmosphere a tile of [pondWorld] works with during
    the first tick. *)
Definition pondAir : Atmosphere :=
  computeTileAtmosphere (atmosphere (beginTick pondWorld)).

(** An ocean whose tiles all carry a population of 3, but for a tile of
    rock at [(0, 0)] on which a population of 5 is stranded, under an
    atmosphere that holds 10000 carbon dioxide. *)
Definition shore : World :=
  mkWorld (mkAtmosphere 0 0 (num 10000 1) 0 0) newBiomass
    (putTile 0 0 (mkTile (num 2000 1) 1 (num 100 1) Rock
                    (mkBiomass (num 5 1) (num 5 1)))
       (uniformTiles (oceanTile (num 3 1)))) 0.

(** Every tile's population lies between [lo] and [hi]. *)
Definition populationBetween (lo hi : Qc) (w : World) : Prop :=
  ∀ (x y : nat) t, getTile w x y = Some t →
    lo ≤ prokaryote (biomass t) ∧ prokaryote (biomass t) ≤ hi.

(** The sum of [v] over the tiles as a pass of [applyTiles] accumulates it:
    from 0, in the order of the visits. *)
Definition runningSum (v : Tile → Qc) (w : World) : Qc :=
  foldl (λ acc t, acc + v t) 0 (concat (tiles w)).

(** ** Vocabulary of the determinism proof *)

(** The state [w] with other biomass counters and another count of the
    random numbers drawn. *)
Definition recount (b : Biomass) (k : nat) (w : World) : World :=
  mkWorld (atmosphere w) b (tiles w) k.

(** The loop of [eruptVolcano] over the table [spreadUpthrust]. *)
Definition eruptLoop (table : list (list Qc)) (baseX baseY : Z) (w : World)
  : option World :=
  forEach (seq 0 (length table))
    (λ xOffset w,
       val ← table !! xOffset;
       forEach (seq 0 (length val))
         (λ yOffset w,
            val ← val !! yOffset;
            let x := (baseX + Z.of_nat xOffset)%Z in
            let y := (baseY + Z.of_nat yOffset)%Z in
            if ((x <? Z.of_nat worldWidth) && (y <? Z.of_nat worldHeight))%Z then
              updTileZ x y
                (λ tile, set_altitude (Math_min (altitude tile + val) maxAltitude) tile)
                w
            else Some w)
         w)
    w.

(** Two runs whose first states hold [d1] and [d2] in their counts of
    random numbers stand in [alignedGrid d1 d2] when their states hold the
    same atmosphere and the same grid and they have drawn the same number of
    random numbers since; in [aligned d1 d2] when the biomass counters are
    the same as well. *)
Definition alignedGrid (d1 d2 : nat) (w1 w2 : World) : Prop :=
  atmosphere w1 = atmosphere w2
  ∧ tiles w1 = tiles w2
  ∧ ∃ j : nat, drawn w1 = (d1 + j)%nat ∧ drawn w2 = (d2 + j)%nat.

Definition aligned (d1 d2 : nat) (w1 w2 : World) : Prop :=
  alignedGrid d1 d2 w1 w2 ∧ worldBiomass w1 = worldBiomass w2.

(** A sequence of random numbers that takes several values. *)
Definition dice (k : nat) : Qc := if Nat.even k then num 1 2 else num 1 4.

(** The state of [colonyOcean] in a run that has drawn five random numbers
    before and holds biomass counters from an earlier tick. *)
Definition laterColony : World :=
  mkWorld (atmosphere colonyOcean) (mkBiomass (num 7 1) (num 7 1))
    (tiles colonyOcean) 5.

(** * Properties *)

Local Arguments Nat.modulo : simpl never.
Local Arguments Nat.div : simpl never.
Local Arguments worldWidth : simpl never.
Local Arguments worldHeight : simpl never.
Local Arguments volcanoDiameter : simpl never.

(** ** Arithmetic on numbers *)

Lemma ltb_lt a b : ltb a b = true ↔ a < b.
Proof. unfold ltb. rewrite Qclt_alt. destruct (a ?= b); intuition congruence. Qed.

Lemma ltb_ge a b : ltb a b = false ↔ b ≤ a.
Proof.
  rewrite <- not_true_iff_false, ltb_lt. split.
  - apply Qcnot_lt_le.
  - apply Qcle_not_lt.
Qed.

Lemma eqb_eq a b : eqb a b = true ↔ a = b.
Proof. unfold eqb. rewrite Qceq_alt. destruct (a ?= b); intuition congruence. Qed.

Lemma cover_eqb_eq a b : cover_eqb a b = true ↔ a = b.
Proof. destruct a, b; simpl; intuition congruence. Qed.

Lemma atmospherePerTile_val : atmospherePerTile = num 1 10000.
Proof. apply Qc_is_canon. reflexivity. Qed.

(** Comparisons are split into cases, then the goal is moved to [Q], where
    the numbers in lowest terms are replaced by the fractions they denote. *)
Ltac qc_unfold :=
  rewrite ?atmospherePerTile_val in *;
  unfold maxAltitude, erosionRate, atmosphereLossRate, seaLevel, freezingPoint,
    unlivableTemperature, volcanoMinUpthrust, volcanoUpthrustVariation,
    fullLuminosityHeat, polarLuminosity, iceReflectivity, waterReflectivity,
    carbonHeatRetention, carbonPerLandTile, waterVaporHeatRetention,
    waterVaporPerOceanTile, photosynthticBiomassPerEnergy,
    carbonPerPhotosyntheticBiomass, oxygenPerPhotosyntheticBiomass,
    prokaryoteAbiogenesisChance, prokaryoteAbiogenesisMinHeat,
    prokaryoteReproductionRate in *;
  unfold Math_min, Math_max, gtb, num, ofNat, ofZ in *;
  repeat match goal with
  | |- context [ltb ?a ?b] =>
      let H := fresh "Hc" in
      destruct (ltb a b) eqn:H; [apply ltb_lt in H | apply ltb_ge in H]
  | H0 : context [ltb ?a ?b] |- _ =>
      let H := fresh "Hc" in
      destruct (ltb a b) eqn:H; [apply ltb_lt in H | apply ltb_ge in H]
  end.

Ltac is_pos_literal p :=
  lazymatch p with
  | xH => idtac
  | xO ?q => is_pos_literal q
  | xI ?q => is_pos_literal q
  end.

Ltac is_Z_literal z :=
  lazymatch z with
  | Z0 => idtac
  | Zpos ?p => is_pos_literal p
  | Zneg ?p => is_pos_literal p
  end.

Ltac to_Q :=
  repeat match goal with
  | H : @eq Qc _ _ |- _ => apply (f_equal this) in H
  | |- @eq Qc _ _ => apply Qc_is_canon
  end;
  unfold Qcle, Qclt, Qcminus, Qcdiv, Qcinv, Qcopp, Qcplus, Qcmult, Q2Qc in *;
  cbn [this] in *;
  repeat (rewrite ?Qred_correct in * );
  change (1 + 1)%Q with (2 # 1)%Q in *;
  repeat match goal with
  | |- context [inject_Z ?z] =>
      let v := eval vm_compute in z in
      is_Z_literal v; change (inject_Z z) with (Qmake v 1) in *
  | H : context [inject_Z ?z] |- _ =>
      let v := eval vm_compute in z in
      is_Z_literal v; change (inject_Z z) with (Qmake v 1) in *
  end;
  repeat match goal with
  | |- context [Qinv (Qmake ?n ?d)] =>
      let v := eval vm_compute in (Qinv (Qmake n d)) in
      change (Qinv (Qmake n d)) with v in *
  | H : context [Qinv (Qmake ?n ?d)] |- _ =>
      let v := eval vm_compute in (Qinv (Qmake n d)) in
      change (Qinv (Qmake n d)) with v in *
  end.

Ltac qc := qc_unfold; to_Q; try lra; try nra.

Lemma ofNat_S n : ofNat (S n) = ofNat n + 1.
Proof. qc. rewrite Nat2Z.inj_succ, <- Z.add_1_r, inject_Z_plus. reflexivity. Qed.

Lemma ofNat_nonneg n : 0 ≤ ofNat n.
Proof. qc. change 0%Q with (inject_Z 0). rewrite <- Zle_Qle. lia. Qed.

(** ** The store *)

Lemma wf_getTile w (x y : nat) :
  wf w → (x < worldWidth)%nat → (y < worldHeight)%nat → is_Some (getTile w x y).
Proof.
  intros [Hl Hc] Hx Hy. unfold getTile.
  destruct (lookup_lt_is_Some_2 (tiles w) x) as [col Hcol]; [lia|].
  rewrite Hcol. simpl. apply lookup_lt_is_Some_2.
  rewrite Forall_lookup in Hc. rewrite (Hc _ _ Hcol). done.
Qed.

Lemma getTile_lt w (x y : nat) :
  wf w → is_Some (getTile w x y) → (x < worldWidth)%nat ∧ (y < worldHeight)%nat.
Proof.
  intros [Hl Hc] [t Ht]. unfold getTile in Ht.
  destruct (tiles w !! x) as [col|] eqn:Hcol; [|done]. simpl in Ht.
  rewrite Forall_lookup in Hc. pose proof (Hc _ _ Hcol) as Hlen.
  apply lookup_lt_Some in Hcol, Ht. lia.
Qed.

Lemma updTile_updated x y f w t :
  getTile w x y = Some t →
  ∃ w', updTile x y f w = Some w' ∧ updated x y f w w'.
Proof.
  unfold getTile, updTile. intros Ht.
  destruct (tiles w !! x) as [col|] eqn:Hcol; [|done]. simpl in *.
  rewrite Ht. simpl. eexists; split; [done|].
  unfold updated. split_and!; try done.
  - intros [Hl Hc]. split; simpl.
    + by rewrite length_insert.
    + apply Forall_insert; [done|]. rewrite length_insert.
      rewrite Forall_lookup in Hc. eauto.
  - intros x' y'. unfold getTile. simpl. case_decide as Hd.
    + destruct Hd as [-> ->].
      rewrite list_lookup_insert_eq by (by eapply lookup_lt_Some). simpl.
      rewrite list_lookup_insert_eq by (by eapply lookup_lt_Some).
      by rewrite Hcol; simpl; rewrite Ht.
    + destruct (decide (x' = x)) as [->|Hne].
      * rewrite list_lookup_insert_eq by (by eapply lookup_lt_Some). simpl.
        rewrite list_lookup_insert_ne by naive_solver. by rewrite Hcol.
      * by rewrite list_lookup_insert_ne.
Qed.

Lemma updTile_Some_inv x y f w w' :
  updTile x y f w = Some w' → is_Some (getTile w x y) ∧ updated x y f w w'.
Proof.
  intros Hu. destruct (getTile w x y) as [t|] eqn:Ht.
  - split; [done|]. destruct (updTile_updated x y f w t Ht) as (w2 & Hw2 & Hup).
    rewrite Hu in Hw2. by injection Hw2 as ->.
  - exfalso. unfold getTile, updTile in *.
    destruct (tiles w !! x); simpl in *; [|done]. by rewrite Ht in Hu.
Qed.

(** ** Loops *)

Lemma forEach2_app {S} (l1 l2 : list (nat * nat)) (f : nat → nat → S → option S) s :
  forEach2 (l1 ++ l2) f s = forEach2 l1 f s ≫= forEach2 l2 f.
Proof.
  revert s. induction l1 as [|[i j] l1 IH]; intros s; simpl; [done|].
  destruct (f i j s) as [s'|]; simpl; [apply IH|done].
Qed.

Lemma forEach2_row {S} (i : nat) (ys : list nat) (f : nat → nat → S → option S) s :
  forEach2 ((λ y, (i, y)) <$> ys) f s = forEach ys (f i) s.
Proof.
  revert s. induction ys as [|y ys IH]; intros s; simpl; [done|].
  destruct (f i y s); simpl; [apply IH|done].
Qed.

Lemma pairs_cons x xs ys : pairs (x :: xs) ys = ((λ y, (x, y)) <$> ys) ++ pairs xs ys.
Proof. done. Qed.

Lemma forEach_nested {S} (xs ys : list nat) (f : nat → nat → S → option S) s :
  forEach xs (λ i s, forEach ys (f i) s) s = forEach2 (pairs xs ys) f s.
Proof.
  revert s. induction xs as [|x xs IH]; intros s; [done|].
  rewrite pairs_cons, forEach2_app, forEach2_row. simpl.
  destruct (forEach ys (f x) s); simpl; [apply IH|done].
Qed.

(** A loop keeps what each of its calls keeps, and it completes when each
    call does. *)
Lemma forEach_inv {S} (P : S → Prop) (idx : list nat) (f : nat → S → option S) s :
  P s →
  (∀ i s, i ∈ idx → P s → ∃ s', f i s = Some s' ∧ P s') →
  ∃ s', forEach idx f s = Some s' ∧ P s'.
Proof.
  revert s. induction idx as [|i idx IH]; intros s Hs Hf; simpl; [eauto|].
  destruct (Hf i s) as (s1 & -> & Hs1); [left|done|]. simpl.
  apply IH; [done|]. intros. apply Hf; [by right|done].
Qed.

Lemma forEach2_inv {S} (P : S → Prop) (idx : list (nat * nat))
    (f : nat → nat → S → option S) s :
  P s →
  (∀ i j s, (i, j) ∈ idx → P s → ∃ s', f i j s = Some s' ∧ P s') →
  ∃ s', forEach2 idx f s = Some s' ∧ P s'.
Proof.
  revert s. induction idx as [|[i j] idx IH]; intros s Hs Hf; simpl; [eauto|].
  destruct (Hf i j s) as (s1 & -> & Hs1); [left|done|]. simpl.
  apply IH; [done|]. intros. apply Hf; [by right|done].
Qed.

Lemma forEach_ext_inv {S} (P : S → Prop) (idx : list nat)
    (f g : nat → S → option S) s :
  P s →
  (∀ i s, i ∈ idx → P s → f i s = g i s) →
  (∀ i s s', i ∈ idx → P s → g i s = Some s' → P s') →
  forEach idx f s = forEach idx g s.
Proof.
  revert s. induction idx as [|i idx IH]; intros s Hs Hfg Hg; simpl; [done|].
  rewrite Hfg by (done || left).
  destruct (g i s) as [s1|] eqn:Hgi; simpl; [|done].
  apply IH; [eapply Hg; [left|done..]| |].
  - intros. apply Hfg; [by right|done].
  - intros ??? Hin. apply Hg. by right.
Qed.

Lemma forEach_keeps {S} (P : S → Prop) (idx : list nat) (f : nat → S → option S) s s' :
  (∀ i s s', i ∈ idx → P s → f i s = Some s' → P s') →
  P s → forEach idx f s = Some s' → P s'.
Proof.
  revert s. induction idx as [|i idx IH]; intros s Hf Hs; simpl.
  - by intros [= <-].
  - destruct (f i s) as [s1|] eqn:Hfi; simpl; [|done].
    apply IH.
    + intros ??? Hin. apply Hf. by right.
    + eapply Hf; [left|done..].
Qed.

Lemma forEach2_ext {S} (idx : list (nat * nat)) (f g : nat → nat → S → option S) s :
  (∀ i j s, (i, j) ∈ idx → f i j s = g i j s) →
  forEach2 idx f s = forEach2 idx g s.
Proof.
  revert s. induction idx as [|[i j] idx IH]; intros s Hfg; simpl; [done|].
  rewrite Hfg by left. destruct (g i j s); simpl; [|done].
  apply IH. intros. apply Hfg. by right.
Qed.

(** ** The raster order *)

Lemma elem_of_pairs (xs ys : list nat) (x y : nat) :
  (x, y) ∈ pairs xs ys ↔ x ∈ xs ∧ y ∈ ys.
Proof.
  unfold pairs. rewrite list_elem_of_bind. split.
  - intros (x' & Hin & Hx'). apply list_elem_of_fmap in Hin as (y' & [= -> ->] & Hy').
    done.
  - intros [Hx Hy]. exists x. split; [|done]. apply list_elem_of_fmap. eauto.
Qed.

Lemma elem_of_rasterOrder (x y : nat) :
  (x, y) ∈ rasterOrder ↔ (x < worldWidth)%nat ∧ (y < worldHeight)%nat.
Proof.
  unfold rasterOrder. rewrite elem_of_pairs, !elem_of_seq. lia.
Qed.

Lemma pairs_seq_lookup (a n h i y : nat) :
  (i < n)%nat → (y < h)%nat →
  pairs (seq a n) (seq 0 h) !! (i * h + y)%nat = Some ((a + i)%nat, y).
Proof.
  revert a i. induction n as [|n IH]; intros a i Hi Hy; [lia|].
  simpl seq. rewrite pairs_cons. destruct i as [|i].
  - rewrite lookup_app_l by (rewrite length_fmap, length_seq; lia).
    rewrite list_lookup_fmap, lookup_seq_lt by lia. simpl. do 2 f_equal. lia.
  - rewrite lookup_app_r by (rewrite length_fmap, length_seq; lia).
    rewrite length_fmap, length_seq.
    replace (S i * h + y - h)%nat with (i * h + y)%nat by lia.
    rewrite IH by lia. do 2 f_equal. lia.
Qed.

Lemma NoDup_pairs (xs ys : list nat) : NoDup xs → NoDup ys → NoDup (pairs xs ys).
Proof.
  intros Hxs Hys. induction Hxs as [|x xs Hx Hxs IH]; [constructor|].
  rewrite pairs_cons. apply list.NoDup_app. split_and!.
  - apply NoDup_fmap_2; [|done]. by intros ?? [=].
  - intros [x' y'] Hin Hin'. apply list_elem_of_fmap in Hin as (? & [= -> ->] & ?).
    apply elem_of_pairs in Hin' as [? ?]. done.
  - done.
Qed.

Lemma NoDup_rasterOrder : NoDup rasterOrder.
Proof. apply NoDup_pairs; apply NoDup_seq. Qed.

(** [applyTiles] visits the grid in raster order, provided the callback
    keeps the shape of the grid. *)
Lemma applyTiles_raster_inv (Q : World → Prop)
    (func : nat → nat → World → option World) w :
  (∀ w, Q w → wf w) →
  (∀ x y w w', (x < worldWidth)%nat → (y < worldHeight)%nat →
               Q w → func x y w = Some w' → Q w') →
  Q w →
  applyTiles func w = forEach2 rasterOrder func w.
Proof.
  intros HQ Hfunc Hw. unfold applyTiles, rasterOrder.
  rewrite <- forEach_nested. destruct (HQ _ Hw) as [Hl Hc]. rewrite Hl.
  apply (forEach_ext_inv Q); [done| |].
  - intros x w1 Hx Hw1. destruct (HQ _ Hw1) as [Hl1 Hc1]. apply elem_of_seq in Hx.
    destruct (lookup_lt_is_Some_2 (tiles w1) x) as [col Hcol]; [lia|].
    rewrite Hcol. simpl. rewrite Forall_lookup in Hc1. by rewrite (Hc1 _ _ Hcol).
  - intros x w1 w2 Hx Hw1 Hrun. apply elem_of_seq in Hx.
    eapply forEach_keeps; [|exact Hw1|exact Hrun].
    intros y w3 w4 Hy. apply elem_of_seq in Hy. apply Hfunc; lia.
Qed.

Lemma applyTiles_raster (func : nat → nat → World → option World) w :
  (∀ x y w w', (x < worldWidth)%nat → (y < worldHeight)%nat →
               wf w → func x y w = Some w' → wf w') →
  wf w →
  applyTiles func w = forEach2 rasterOrder func w.
Proof. intros. by apply (applyTiles_raster_inv wf). Qed.

(** A pass over the grid completes and keeps an invariant that each call
    of the callback keeps. *)
Lemma applyTiles_inv (P : World → Prop) (func : nat → nat → World → option World) w :
  (∀ x y w, (x < worldWidth)%nat → (y < worldHeight)%nat → wf w → P w →
            ∃ w', func x y w = Some w' ∧ wf w' ∧ P w') →
  wf w → P w →
  ∃ w', applyTiles func w = Some w'
        ∧ forEach2 rasterOrder func w = Some w' ∧ wf w' ∧ P w'.
Proof.
  intros Hfunc Hwf HP.
  rewrite (applyTiles_raster_inv (λ w, wf w ∧ P w)); [|tauto| |done].
  - destruct (forEach2_inv (λ w, wf w ∧ P w) rasterOrder func w) as (w' & Hw' & ? & ?);
      [done| |by exists w'].
    intros x y w1 Hin [? ?]. apply elem_of_rasterOrder in Hin as [? ?].
    destruct (Hfunc x y w1) as (w2 & ? & ? & ?); eauto.
  - intros x y w1 w2 Hx Hy [? ?] Hrun.
    destruct (Hfunc x y w1) as (w3 & Hw3 & ? & ?); [done..|].
    rewrite Hrun in Hw3. by injection Hw3 as ->.
Qed.

(** ** Assignments and the fields they leave alone *)

Lemma same_refl {A} (π : Tile → A) w : same π w w.
Proof. done. Qed.

Lemma same_trans {A} (π : Tile → A) w1 w2 w3 :
  same π w1 w2 → same π w2 w3 → same π w1 w3.
Proof. intros H12 H23 x y. by rewrite H23, H12. Qed.

Lemma updated_same {A} (π : Tile → A) x y f w w' :
  updated x y f w w' → (∀ t, π (f t) = π t) → same π w w'.
Proof.
  intros (_ & _ & _ & _ & Hget) Hπ x' y'. rewrite Hget.
  case_decide as Hd; [|done]. destruct Hd as [-> ->].
  destruct (getTile w x y); simpl; [|done]. by rewrite Hπ.
Qed.

Lemma updated_at x y f w w' t :
  updated x y f w w' → getTile w x y = Some t → getTile w' x y = Some (f t).
Proof.
  intros (_ & _ & _ & _ & Hget) Ht. rewrite Hget, Ht.
  by rewrite decide_True.
Qed.

Lemma updated_other x y f w w' (x' y' : nat) :
  updated x y f w w' → ¬ (x' = x ∧ y' = y) → getTile w' x' y' = getTile w x' y'.
Proof. intros (_ & _ & _ & _ & Hget) Hne. by rewrite Hget, decide_False. Qed.

Lemma updated_wf x y f w w' : updated x y f w w' → wf w → wf w'.
Proof. intros (_ & _ & _ & Hwf & _). done. Qed.

Ltac frame_solve :=
  repeat match goal with
  | H : updated _ _ _ _ _ |- _ => destruct H as (? & ? & ? & _ & _)
  end; congruence.

Lemma east_lt (x : nat) : ((x + 1) mod worldWidth < worldWidth)%nat.
Proof. apply Nat.mod_upper_bound. done. Qed.

Lemma east_ne (x : nat) : (x < worldWidth)%nat → (x + 1) mod worldWidth ≠ x.
Proof.
  unfold worldWidth. intros Hx. destruct (decide (x = 99)) as [->|Hne]; [done|].
  rewrite Nat.mod_small; lia.
Qed.

(** ** Heat diffusion *)

Lemma transferHeat_spec w (x y : nat) :
  wf w → (x < worldWidth)%nat → (y < worldHeight)%nat →
  ∃ tile tileE w',
    getTile w x y = Some tile
    ∧ getTile w ((x + 1) mod worldWidth) y = Some tileE
    ∧ transferHeat x y w = Some w'
    ∧ wf w'
    ∧ atmosphere w' = atmosphere w
    ∧ worldBiomass w' = worldBiomass w
    ∧ drawn w' = drawn w
    ∧ let avgE := (heat tile + heat tileE) / 2 in
      getTile w' ((x + 1) mod worldWidth) y = Some (set_heat avgE tileE)
      ∧ ((y + 1 < worldHeight)%nat →
         ∃ tileS, getTile w x (y + 1) = Some tileS
           ∧ let avgS := (heat tile + heat tileS) / 2 in
             getTile w' x (y + 1) = Some (set_heat avgS tileS)
             ∧ getTile w' x y = Some (set_heat ((avgE + avgS) / 2) tile))
      ∧ ((y + 1 = worldHeight)%nat → getTile w' x y = Some (set_heat avgE tile))
      ∧ (∀ x' y' : nat,
           ¬ (x' = x ∧ y' = y) → ¬ (x' = (x + 1) mod worldWidth ∧ y' = y)
           → ¬ (x' = x ∧ y' = (y + 1)%nat)
           → getTile w' x' y' = getTile w x' y').
Proof.
  intros Hwf Hx Hy.
  destruct (wf_getTile w x y) as [tile Htile]; [done..|].
  destruct (wf_getTile w ((x + 1) mod worldWidth) y) as [tileE HtileE];
    [done|apply east_lt|done|].
  pose proof (east_ne x Hx) as Hne.
  exists tile, tileE. unfold transferHeat. rewrite Htile, HtileE. simpl.
  destruct (updTile_updated ((x + 1) mod worldWidth) y
              (set_heat ((heat tile + heat tileE) / 2)) w tileE HtileE)
    as (w1 & -> & Hup1). simpl.
  assert (Htile1 : getTile w1 x y = Some tile).
  { rewrite (updated_other _ _ _ _ _ _ _ Hup1); [done|]. intros [? _]. done. }
  destruct (Nat.eqb_spec (y + 1) worldHeight) as [Hlast|Hmore]; simpl.
  - destruct (updTile_updated x y (set_heat ((heat tile + heat tileE) / 2)) w1 tile Htile1)
      as (w2 & -> & Hup2).
    exists w2. split_and!; try done.
    + eauto using updated_wf.
    + frame_solve.
    + frame_solve.
    + frame_solve.
    + rewrite (updated_other _ _ _ _ _ _ _ Hup2) by (intros [? _]; done).
      by apply (updated_at _ _ _ _ _ _ Hup1).
    + lia.
    + intros _. by apply (updated_at _ _ _ _ _ _ Hup2).
    + intros x' y' H1 H2 _. rewrite (updated_other _ _ _ _ _ _ _ Hup2) by done.
      by rewrite (updated_other _ _ _ _ _ _ _ Hup1).
  - destruct (wf_getTile w x (y + 1)) as [tileS HtileS]; [done|done|lia|].
    assert (HtileS1 : getTile w1 x (y + 1) = Some tileS).
    { rewrite (updated_other _ _ _ _ _ _ _ Hup1); [done|]. intros [? _]. done. }
    rewrite Htile1, HtileS1. simpl.
    destruct (updTile_updated x (y + 1) (set_heat ((heat tile + heat tileS) / 2))
                w1 tileS HtileS1) as (w2 & -> & Hup2). simpl.
    assert (Htile2 : getTile w2 x y = Some tile).
    { rewrite (updated_other _ _ _ _ _ _ _ Hup2); [done|]. intros [_ ?]. lia. }
    destruct (updTile_updated x y
                (set_heat (((heat tile + heat tileE) / 2
                            + (heat tile + heat tileS) / 2) / 2)) w2 tile Htile2)
      as (w3 & -> & Hup3).
    exists w3. split_and!; try done.
    + eauto using updated_wf.
    + frame_solve.
    + frame_solve.
    + frame_solve.
    + rewrite (updated_other _ _ _ _ _ _ _ Hup3) by (intros [? _]; done).
      rewrite (updated_other _ _ _ _ _ _ _ Hup2) by (intros [? _]; done).
      by apply (updated_at _ _ _ _ _ _ Hup1).
    + intros _. exists tileS. split_and!; [done| |].
      * rewrite (updated_other _ _ _ _ _ _ _ Hup3) by (intros [_ ?]; lia).
        by apply (updated_at _ _ _ _ _ _ Hup2).
      * by apply (updated_at _ _ _ _ _ _ Hup3).
    + intros x' y' H1 H2 H3. rewrite (updated_other _ _ _ _ _ _ _ Hup3) by done.
      rewrite (updated_other _ _ _ _ _ _ _ Hup2) by done.
      by rewrite (updated_other _ _ _ _ _ _ _ Hup1).
Qed.

Lemma transferHeat_wf w w' (x y : nat) :
  (x < worldWidth)%nat → (y < worldHeight)%nat → wf w →
  transferHeat x y w = Some w' → wf w'.
Proof.
  intros Hx Hy Hwf Hrun.
  destruct (transferHeat_spec w x y) as (? & ? & w2 & _ & _ & Hw2 & ? & _); [done..|].
  rewrite Hrun in Hw2. by injection Hw2 as ->.
Qed.

Lemma wfb_wf w :
  (length (tiles w) =? worldWidth)%nat
  && forallb (λ col, (length col =? worldHeight)%nat) (tiles w) = true →
  wf w.
Proof.
  intros H. apply andb_true_iff in H as [Hl Hc]. split.
  - by apply Nat.eqb_eq.
  - rewrite forallb_forall in Hc. apply Forall_forall. intros col Hin.
    apply Nat.eqb_eq, Hc. exact Hin.
Qed.

Lemma wf_newWorld : wf newWorld.
Proof. apply wfb_wf. vm_compute. reflexivity. Qed.

Lemma heatAssigned_set v t : heatAssigned v t (set_heat v t).
Proof. done. Qed.

Lemma rasterOrder_in (k x y : nat) :
  rasterOrder !! k = Some (x, y) → (x < worldWidth)%nat ∧ (y < worldHeight)%nat.
Proof. intros H. apply elem_of_rasterOrder. by eapply list_elem_of_lookup_2. Qed.

(** The state before the [k]-th visit of a heat diffusion pass. *)
Lemma heat_pass_prefix w (k : nat) :
  wf w →
  ∃ wk, forEach2 (take k rasterOrder) transferHeat w = Some wk ∧ wf wk
    ∧ atmosphere wk = atmosphere w ∧ worldBiomass wk = worldBiomass w
    ∧ drawn wk = drawn w.
Proof.
  intros Hwf.
  destruct (forEach2_inv
              (λ w1, wf w1 ∧ atmosphere w1 = atmosphere w
                     ∧ worldBiomass w1 = worldBiomass w ∧ drawn w1 = drawn w)
              (take k rasterOrder) transferHeat w) as (wk & Hwk & ?); [done| |by exists wk].
  intros x y w1 Hin (Hwf1 & Ha & Hb & Hd).
  assert (Hin' : (x, y) ∈ rasterOrder).
  { apply list_elem_of_lookup in Hin as [i Hi]. apply lookup_take_Some in Hi as [Hi _].
    by eapply list_elem_of_lookup_2. }
  apply elem_of_rasterOrder in Hin' as [Hx Hy].
  destruct (transferHeat_spec w1 x y Hwf1 Hx Hy)
    as (? & ? & w2 & _ & _ & Hw2 & Hwf2 & Ha2 & Hb2 & Hd2 & _).
  exists w2. split; [done|]. split; [done|]. by rewrite Ha2, Hb2, Hd2.
Qed.

(** C1. During the heat diffusion pass of a tick ([applyTiles(transferHeat)]
    on a full grid) the tiles are visited in the order of [rasterOrder]: the
    tile [(x, y)] is the [(x * worldHeight + y)]-th visited, so the order
    ascends in [x] and then in [y], and the pass completes.  The [k]-th
    visit starts from the state [wk] that the visits before it left and the
    visits after it start from the state [wk'] it leaves.  Visiting [(x, y)],
    it assigns [avgE = (heat(x,y) + heat(E)) / 2] to the heat of the east
    neighbour [E = ((x+1) mod W, y)]; when [y + 1 < H] it assigns
    [avgS = (heat(x,y) + heat(S)) / 2] to the heat of the south neighbour
    [S = (x, y+1)] and [(avgE + avgS) / 2] to the heat of the tile itself;
    on the last row it assigns [avgE] to the heat of the tile itself; the
    heats read are those of [wk], and no other tile and no other field
    changes. *)
Theorem heat_diffusion_pass (w : World) :
  wf w →
  (∃ w', applyTiles transferHeat w = Some w' ∧ wf w')
  ∧ applyTiles transferHeat w = forEach2 rasterOrder transferHeat w
  ∧ (∀ x y : nat, (x < worldWidth)%nat → (y < worldHeight)%nat →
       rasterOrder !! (x * worldHeight + y)%nat = Some (x, y))
  ∧ (∀ (k x y : nat), rasterOrder !! k = Some (x, y) →
     ∃ wk wk' tile tileE,
       forEach2 (take k rasterOrder) transferHeat w = Some wk
       ∧ transferHeat x y wk = Some wk'
       ∧ forEach2 (take (S k) rasterOrder) transferHeat w = Some wk'
       ∧ applyTiles transferHeat w
         = forEach2 (drop (S k) rasterOrder) transferHeat wk'
       ∧ getTile wk x y = Some tile
       ∧ getTile wk ((x + 1) mod worldWidth) y = Some tileE
       ∧ atmosphere wk' = atmosphere wk
       ∧ worldBiomass wk' = worldBiomass wk
       ∧ drawn wk' = drawn wk
       ∧ let avgE := (heat tile + heat tileE) / 2 in
         (∃ tileE', getTile wk' ((x + 1) mod worldWidth) y = Some tileE'
                    ∧ heatAssigned avgE tileE tileE')
         ∧ ((y + 1 < worldHeight)%nat →
            ∃ tileS tileS' tile',
              getTile wk x (y + 1) = Some tileS
              ∧ let avgS := (heat tile + heat tileS) / 2 in
                getTile wk' x (y + 1) = Some tileS'
                ∧ heatAssigned avgS tileS tileS'
                ∧ getTile wk' x y = Some tile'
                ∧ heatAssigned ((avgE + avgS) / 2) tile tile')
         ∧ ((y + 1 = worldHeight)%nat →
            ∃ tile', getTile wk' x y = Some tile' ∧ heatAssigned avgE tile tile')
         ∧ (∀ x' y' : nat,
              ¬ (x' = x ∧ y' = y) → ¬ (x' = (x + 1) mod worldWidth ∧ y' = y)
              → ¬ (x' = x ∧ y' = (y + 1)%nat)
              → getTile wk' x' y' = getTile wk x' y')).
Proof.
  intros Hwf.
  assert (Hraster : applyTiles transferHeat w = forEach2 rasterOrder transferHeat w).
  { apply applyTiles_raster; [|done].
    intros x y w1 w2 Hx Hy Hw1 Hrun. exact (transferHeat_wf _ _ _ _ Hx Hy Hw1 Hrun). }
  split_and!.
  - destruct (applyTiles_inv (λ _, True) transferHeat w) as (w' & ? & _ & ? & _);
      [|done|done|by exists w'].
    intros x y w1 Hx Hy Hw1 _.
    destruct (transferHeat_spec w1 x y) as (? & ? & w2 & _ & _ & ? & ? & _); [done..|].
    by exists w2.
  - exact Hraster.
  - intros x y Hx Hy. unfold rasterOrder.
    by rewrite pairs_seq_lookup by done.
  - intros k x y Hk. destruct (rasterOrder_in k x y Hk) as [Hx Hy].
    destruct (heat_pass_prefix w k Hwf) as (wk & Hwk & Hwfk & _).
    destruct (transferHeat_spec wk x y Hwfk Hx Hy)
      as (tile & tileE & wk' & Ht & HtE & Hrun & _ & Ha & Hb & Hd & HE & HS & Hlast
          & Hother).
    exists wk, wk', tile, tileE.
    assert (Hnext : forEach2 (take (S k) rasterOrder) transferHeat w = Some wk').
    { rewrite (take_S_r _ _ _ Hk), forEach2_app, Hwk. simpl. by rewrite Hrun. }
    split; [exact Hwk|]. split; [exact Hrun|]. split; [exact Hnext|].
    split.
    { rewrite Hraster. rewrite <- (take_drop (S k) rasterOrder) at 1.
      by rewrite forEach2_app, Hnext. }
    split; [exact Ht|]. split; [exact HtE|]. split; [exact Ha|].
    split; [exact Hb|]. split; [exact Hd|]. cbv zeta in *. split_and!.
    + eexists. split; [exact HE|]. apply heatAssigned_set.
    + intros Hlt. destruct (HS Hlt) as (tileS & HtS & HS' & Hself).
      eexists tileS, _, _. split; [exact HtS|]. split; [exact HS'|].
      split; [apply heatAssigned_set|]. split; [exact Hself|].
      apply heatAssigned_set.
    + intros Heq. eexists. split; [exact (Hlast Heq)|]. apply heatAssigned_set.
    + exact Hother.
Qed.

Lemma wf_hotSpot : wf hotSpot.
Proof. apply wfb_wf. vm_compute. reflexivity. Qed.

Lemma heat_diffusion_pass_witness :
  wf hotSpot
  ∧ heat <$> getTile hotSpot 0 0 = Some (num 160 1)
  ∧ heat <$> getTile hotSpot 1 0 = Some (num 100 1)
  ∧ heat <$> getTile hotSpot 0 1 = Some (num 40 1)
  ∧ heat <$> getTile hotSpot 1 1 = Some (num 100 1)
  ∧ ∃ w1 w2,
      transferHeat 0 0 hotSpot = Some w1
      ∧ heat <$> getTile w1 1 0 = Some (num 130 1)
      ∧ heat <$> getTile w1 0 1 = Some (num 100 1)
      ∧ heat <$> getTile w1 0 0 = Some (num 115 1)
      ∧ transferHeat 0 1 w1 = Some w2
      ∧ heat <$> getTile w2 1 1 = Some (num 100 1).
Proof.
  split; [exact wf_hotSpot|]. do 4 (split; [by vm_compute|]).
  destruct (heat_diffusion_pass hotSpot wf_hotSpot) as (_ & _ & _ & Hvisit).
  destruct (Hvisit 0%nat 0%nat 0%nat eq_refl)
    as (wk & w1 & tile & tileE & Hwk & Hrun & Hw1 & _ & Ht & HtE & _ & _ & _
        & (tileE' & HgE & HE & _) & HS & _ & Hother).
  injection Hwk as <-.
  destruct HS as (tileS & tileS' & tile' & HtS & HgS & (HS & _) & Hg & (Hself & _));
    [unfold worldHeight; lia|].
  assert (E0 : getTile hotSpot 0 0 = Some (heatedTile (num 160 1))) by (by vm_compute).
  assert (E1 : getTile hotSpot ((0 + 1) mod worldWidth) 0 = Some (oceanTile 0))
    by (by vm_compute).
  assert (E2 : getTile hotSpot 0 (0 + 1) = Some (heatedTile (num 40 1)))
    by (by vm_compute).
  assert (E3 : getTile hotSpot ((0 + 1) mod worldWidth) 1 = Some (oceanTile 0))
    by (by vm_compute).
  rewrite E0 in Ht. rewrite E1 in HtE. rewrite E2 in HtS.
  injection Ht as <-. injection HtE as <-. injection HtS as <-.
  destruct (Hvisit 1%nat 0%nat 1%nat eq_refl)
    as (wk & w2 & tile & tileE & Hwk & Hrun2 & _ & _ & Ht & HtE & _ & _ & _
        & (tileE2 & HgE2 & HE2 & _) & _).
  rewrite Hw1 in Hwk. injection Hwk as <-.
  change (0 + 1)%nat with 1%nat in HgS. rewrite HgS in Ht. injection Ht as <-.
  rewrite Hother, E3 in HtE;
    [|intros [? _]; done|intros [_ ?]; done|intros [? _]; done].
  injection HtE as <-.
  exists w1, w2. split; [exact Hrun|].
  change ((0 + 1) mod worldWidth)%nat with 1%nat in HgE, HgE2.
  rewrite HgE, HgS, Hg, HgE2. cbn [fmap option_fmap option_map].
  rewrite HE, HS, Hself, HE2, HS.
  split_and!; try done; f_equal; by apply Qc_is_canon.
Defined.

(** ** Population diffusion *)

(** One assignment to the tile [(x, y)] of [w], whose value is known. *)
Ltac step_upd Hup :=
  match goal with
  | |- context [updTile ?x ?y ?f ?w] =>
      match goal with
      | H : getTile w x y = Some ?t |- _ =>
          let w' := fresh "w" in
          destruct (updTile_updated x y f w t H) as (w' & -> & Hup); simpl
      end
  end.

Lemma updated_at' x y f w w' :
  updated x y f w w' → getTile w' x y = f <$> getTile w x y.
Proof. intros (_ & _ & _ & _ & Hget). by rewrite Hget, decide_True. Qed.

(** Reads of tiles after a sequence of assignments. *)
Ltac lookup_solve :=
  repeat match goal with
  | Hup : updated ?x ?y ?f ?w ?w' |- context [getTile ?w' ?x' ?y'] =>
      first
        [ rewrite (updated_other x y f w w' x' y' Hup)
            by (first [done | intros [? ?]; first [done | lia]])
        | rewrite (updated_at' x y f w w' Hup) ]
  | H : getTile ?w ?x ?y = Some _ |- context [getTile ?w ?x ?y] => rewrite H
  | H : _ = true |- _ => progress rewrite H
  | H : _ = false |- _ => progress rewrite H
  end; simpl; try done.

Ltac spec_close :=
  first
    [ done
    | lia
    | frame_solve
    | by eauto 10 using updated_wf
    | by lookup_solve
    | by intros; eexists; split_and!; [first [eassumption | reflexivity]|..]; lookup_solve
    | by intros; lookup_solve ].

Lemma transferProkaryotes_spec w (x y : nat) :
  wf w → (x < worldWidth)%nat → (y < worldHeight)%nat →
  ∃ tile tileE w',
    getTile w x y = Some tile
    ∧ getTile w ((x + 1) mod worldWidth) y = Some tileE
    ∧ transferProkaryotes x y w = Some w'
    ∧ wf w'
    ∧ atmosphere w' = atmosphere w
    ∧ worldBiomass w' = worldBiomass w
    ∧ drawn w' = drawn w
    ∧ let pop := λ t, prokaryote (biomass t) in
      let exE := canProkaryotesSurvive tile && canProkaryotesSurvive tileE
                 && (gtb (pop tile) 2 || gtb (pop tileE) 2) in
      let avgE := (pop tile + pop tileE) / 2 in
      let pop1 := if exE then avgE else pop tile in
      getTile w' ((x + 1) mod worldWidth) y
        = Some (if exE then set_prokaryote avgE tileE else tileE)
      ∧ ((y + 1 = worldHeight)%nat →
         getTile w' x y = Some (if exE then set_prokaryote avgE tile else tile))
      ∧ ((y + 1 < worldHeight)%nat →
         ∃ tileS, getTile w x (y + 1) = Some tileS
           ∧ let exS := canProkaryotesSurvive tile && canProkaryotesSurvive tileS
                        && (gtb pop1 2 || gtb (pop tileS) 2) in
             let avgS := (pop1 + pop tileS) / 2 in
             getTile w' x (y + 1)
               = Some (if exS then set_prokaryote avgS tileS else tileS)
             ∧ getTile w' x y
               = Some (if exS then set_prokaryote avgS tile
                       else if exE then set_prokaryote avgE tile else tile))
      ∧ (∀ x' y' : nat,
           ¬ (x' = x ∧ y' = y) → ¬ (x' = (x + 1) mod worldWidth ∧ y' = y)
           → ¬ (x' = x ∧ y' = (y + 1)%nat)
           → getTile w' x' y' = getTile w x' y').
Proof.
  intros Hwf Hx Hy.
  destruct (wf_getTile w x y) as [tile Htile]; [done..|].
  destruct (wf_getTile w ((x + 1) mod worldWidth) y) as [tileE HtileE];
    [done|apply east_lt|done|].
  pose proof (east_ne x Hx) as Hne.
  exists tile, tileE. unfold transferProkaryotes. rewrite Htile. simpl.
  assert (HS : (y + 1 < worldHeight)%nat → is_Some (getTile w x (y + 1))).
  { intros. by apply wf_getTile. }
  destruct (canProkaryotesSurvive tile) eqn:Hsurv; simpl.
  2:{ exists w. split_and!; try spec_close.
      intros Hlt. destruct (HS Hlt) as [tileS HtileS]. by exists tileS. }
  rewrite HtileE. simpl.
  destruct (Nat.eqb_spec (y + 1) worldHeight) as [Hlast|Hmore]; simpl.
  - destruct (canProkaryotesSurvive tileE
              && (gtb (prokaryote (biomass tile)) 2
                  || gtb (prokaryote (biomass tileE)) 2)) eqn:HexE; simpl.
    + step_upd Hup1.
      assert (Htile1 : getTile w0 x y = Some tile) by lookup_solve.
      step_upd Hup2. exists w1. split_and!; spec_close.
    + exists w. split_and!; spec_close.
  - destruct HS as [tileS HtileS]; [lia|].
    destruct (canProkaryotesSurvive tileE
              && (gtb (prokaryote (biomass tile)) 2
                  || gtb (prokaryote (biomass tileE)) 2)) eqn:HexE; simpl.
    + step_upd Hup1.
      assert (Htile1 : getTile w0 x y = Some tile) by lookup_solve.
      step_upd Hup2.
      assert (HtileS2 : getTile w1 x (y + 1) = Some tileS) by lookup_solve.
      pose proof (updated_at _ _ _ _ _ _ Hup2 Htile1) as Htile2.
      rewrite Htile2, HtileS2. simpl.
      destruct (canProkaryotesSurvive tileS
                && (gtb ((prokaryote (biomass tile) + prokaryote (biomass tileE)) / 2) 2
                    || gtb (prokaryote (biomass tileS)) 2)) eqn:HexS; simpl.
      * step_upd Hup3.
        assert (Htile3 : getTile w2 x y
                         = Some (set_prokaryote
                                   ((prokaryote (biomass tile)
                                     + prokaryote (biomass tileE)) / 2) tile))
          by lookup_solve.
        step_upd Hup4. exists w3. split_and!; spec_close.
      * exists w1. split_and!; spec_close.
    + rewrite Htile, HtileS. simpl.
      destruct (canProkaryotesSurvive tileS
                && (gtb (prokaryote (biomass tile)) 2
                    || gtb (prokaryote (biomass tileS)) 2)) eqn:HexS; simpl.
      * step_upd Hup3.
        assert (Htile3 : getTile w0 x y = Some tile) by lookup_solve.
        step_upd Hup4. exists w1. split_and!; spec_close.
      * exists w. split_and!; spec_close.
Qed.

(** ** Loops of assignments to distinct tiles *)

(** A loop whose call [(i, j)] assigns [g i j] to the tile [(px i, py j)]
    when [cond i j] holds, and does nothing otherwise. *)
Lemma forEach2_upd (idx : list (nat * nat)) (cond : nat → nat → bool)
    (px py : nat → nat) (g : nat → nat → Tile → Tile) w :
  NoDup idx →
  (∀ i i', px i = px i' → i = i') →
  (∀ j j', py j = py j' → j = j') →
  (∀ i j, (i, j) ∈ idx → cond i j = true →
          (px i < worldWidth)%nat ∧ (py j < worldHeight)%nat) →
  wf w →
  ∃ w',
    forEach2 idx (λ i j w, if cond i j then updTile (px i) (py j) (g i j) w
                           else Some w) w = Some w'
    ∧ wf w'
    ∧ atmosphere w' = atmosphere w
    ∧ worldBiomass w' = worldBiomass w
    ∧ drawn w' = drawn w
    ∧ (∀ x y : nat,
         (∀ i j, (i, j) ∈ idx → cond i j = true → ¬ (x = px i ∧ y = py j)) →
         getTile w' x y = getTile w x y)
    ∧ (∀ i j, (i, j) ∈ idx → cond i j = true →
         getTile w' (px i) (py j) = g i j <$> getTile w (px i) (py j)).
Proof.
  intros Hnd Hpx Hpy. revert w.
  induction Hnd as [|[i j] idx Hnotin Hnd IH]; intros w Hrange Hwf; simpl.
  - exists w. split_and!; try done. intros i j Hin. by apply elem_of_nil in Hin.
  - destruct (cond i j) eqn:Hc.
    + destruct (Hrange i j) as [Hi Hj]; [left|done|].
      destruct (wf_getTile w (px i) (py j)) as [t Ht]; [done..|].
      destruct (updTile_updated (px i) (py j) (g i j) w t Ht) as (w1 & -> & Hup).
      simpl.
      destruct (IH w1) as (w' & -> & Hwf' & Ha & Hb & Hd & Hout & Hin).
      { intros. apply Hrange; [by right|done]. }
      { by eapply updated_wf. }
      exists w'. split_and!; try done.
      * rewrite Ha. by destruct Hup as (-> & _).
      * rewrite Hb. by destruct Hup as (_ & -> & _).
      * rewrite Hd. by destruct Hup as (_ & _ & -> & _).
      * intros x y Hxy. rewrite Hout.
        -- apply (updated_other _ _ _ _ _ _ _ Hup). apply Hxy; [left|done].
        -- intros i' j' Hin'. apply Hxy. by right.
      * intros i' j' Hin' Hc'. apply elem_of_cons in Hin' as [[= -> ->]|Hin'].
        -- rewrite Hout.
           ++ by apply (updated_at' _ _ _ _ _ Hup).
           ++ intros i2 j2 Hin2 _ [Hx2 Hy2]. apply Hpx in Hx2. apply Hpy in Hy2.
              by subst.
        -- rewrite Hin by done. f_equal.
           apply (updated_other _ _ _ _ _ _ _ Hup).
           intros [Hx2 Hy2]. apply Hpx in Hx2. apply Hpy in Hy2. by subst.
    + simpl.
      destruct (IH w) as (w' & -> & Hwf' & Ha & Hb & Hd & Hout & Hin).
      { intros. apply Hrange; [by right|done]. }
      { done. }
      exists w'. split_and!; try done.
      * intros x y Hxy. apply Hout. intros i' j' Hin'. apply Hxy. by right.
      * intros i' j' Hin' Hc'. apply elem_of_cons in Hin' as [[= -> ->]|Hin'].
        -- congruence.
        -- by apply Hin.
Qed.

(** A pass that assigns [g tile] to every tile. *)
Lemma applyTiles_map (g : Tile → Tile) w :
  wf w →
  ∃ w', applyTiles (λ x y, updTile x y g) w = Some w'
        ∧ wf w'
        ∧ atmosphere w' = atmosphere w
        ∧ worldBiomass w' = worldBiomass w
        ∧ drawn w' = drawn w
        ∧ ∀ x y : nat, getTile w' x y = g <$> getTile w x y.
Proof.
  intros Hwf.
  destruct (forEach2_upd rasterOrder (λ _ _, true) id id (λ _ _, g) w)
    as (w' & Hrun & Hwf' & Ha & Hb & Hd & Hout & Hin);
    [apply NoDup_rasterOrder|done|done| |done|].
  { intros i j Hij _. by apply elem_of_rasterOrder. }
  exists w'. split_and!; try done.
  - rewrite applyTiles_raster; [done| |done].
    intros x y w1 w2 _ _ Hw1 Hu. apply updTile_Some_inv in Hu as [_ Hu].
    by eapply updated_wf.
  - intros x y.
    destruct (decide ((x < worldWidth)%nat ∧ (y < worldHeight)%nat)) as [Hr|Hr].
    + apply (Hin x y); [|done]. by apply elem_of_rasterOrder.
    + rewrite Hout.
      * destruct (getTile w x y) as [t|] eqn:Ht; [|done].
        destruct Hr. apply (getTile_lt w); [done|by rewrite Ht].
      * intros i j Hij%elem_of_rasterOrder _ [-> ->]. done.
Qed.

(** ** Volcanism *)

Lemma Math_floor_range (a : Qc) (m : Z) :
  0 ≤ a → a < ofZ m → (0 ≤ Math_floor a < m)%Z.
Proof.
  intros H0 Hm. unfold Math_floor. split.
  - change 0%Z with (Qfloor 0). apply Qfloor_resp_le. exact H0.
  - rewrite Zlt_Qlt. eapply Qle_lt_trans; [apply Qfloor_le|].
    unfold ofZ in Hm. to_Q. exact Hm.
Qed.

Lemma ofZ_le (a b : Z) : (a ≤ b)%Z → ofZ a ≤ ofZ b.
Proof. intros H. unfold ofZ. to_Q. by rewrite <- Zle_Qle. Qed.

Lemma ofZ_lt (a b : Z) : (a < b)%Z → ofZ a < ofZ b.
Proof. intros H. unfold ofZ. to_Q. by rewrite <- Zlt_Qlt. Qed.

Lemma ofZ_plus (a b : Z) : ofZ (a + b) = ofZ a + ofZ b.
Proof. unfold ofZ. to_Q. by rewrite inject_Z_plus. Qed.

Lemma ofNat_le (a b : nat) : (a ≤ b)%nat → ofNat a ≤ ofNat b.
Proof. intros H. apply ofZ_le. lia. Qed.

Lemma getRandomX_range (rand : nat → Qc) k :
  unitInterval rand → (0 ≤ getRandomX rand k < Z.of_nat worldWidth)%Z.
Proof.
  intros Hr. destruct (Hr k) as [H0 H1]. apply Math_floor_range.
  - unfold worldWidth. qc.
  - unfold worldWidth. qc.
Qed.

Lemma getRandomY_range (rand : nat → Qc) k :
  unitInterval rand → (0 ≤ getRandomY rand k < Z.of_nat worldHeight)%Z.
Proof.
  intros Hr. destruct (Hr k) as [H0 H1]. apply Math_floor_range.
  - unfold worldHeight. qc.
  - unfold worldHeight. qc.
Qed.

Lemma upthrust_range (rand : nat → Qc) k :
  unitInterval rand →
  (0 ≤ Math_floor (volcanoUpthrustVariation * rand k) < 1000)%Z.
Proof.
  intros Hr. destruct (Hr k) as [H0 H1]. apply Math_floor_range.
  - qc.
  - qc.
Qed.

Lemma spreadUpthrust_row sqrt up (i : nat) :
  (i < volcanoDiameter)%nat →
  spreadUpthrust sqrt up !! i
  = Some (map (λ y, spreadEntry sqrt up i y) (seq 0 volcanoDiameter)).
Proof.
  intros Hi. unfold spreadUpthrust.
  change (map ?f ?l) with (f <$> l).
  rewrite list_lookup_fmap, lookup_seq_lt by done. done.
Qed.

Lemma spreadUpthrust_entry sqrt up (i j : nat) :
  (j < volcanoDiameter)%nat →
  map (λ y, spreadEntry sqrt up i y) (seq 0 volcanoDiameter) !! j
  = Some (spreadEntry sqrt up i j).
Proof.
  intros Hj. change (map ?f ?l) with (f <$> l).
  rewrite list_lookup_fmap, lookup_seq_lt by done. done.
Qed.

Lemma eruptVolcano_spec sqrt rand w :
  wf w → unitInterval rand →
  let k := drawn w in
  let bx := Z.to_nat (getRandomX rand k) in
  let by' := Z.to_nat (getRandomY rand (S k)) in
  let up := volcanoMinUpthrust
            + ofZ (Math_floor (volcanoUpthrustVariation * rand (S (S k)))) in
  ∃ w', eruptVolcano sqrt rand w = Some w'
    ∧ wf w'
    ∧ atmosphere w' = atmosphere w
    ∧ worldBiomass w' = worldBiomass w
    ∧ drawn w' = S (S (S k))
    ∧ (∀ x y : nat,
         ¬ ((bx ≤ x ≤ bx + 8)%nat ∧ (by' ≤ y ≤ by' + 8)%nat) →
         getTile w' x y = getTile w x y)
    ∧ (∀ i j : nat,
         (i < volcanoDiameter)%nat → (j < volcanoDiameter)%nat →
         (bx + i < worldWidth)%nat → (by' + j < worldHeight)%nat →
         getTile w' (bx + i) (by' + j)
         = raise (spreadEntry sqrt up i j) <$> getTile w (bx + i) (by' + j)).
Proof.
  intros Hwf Hr k bx by' up.
  pose proof (getRandomX_range rand k Hr) as Hbx.
  pose proof (getRandomY_range rand (S k) Hr) as Hby.
  unfold eruptVolcano. fold k. fold up.
  set (w0 := mkWorld (atmosphere w) (worldBiomass w) (tiles w) (S (S (S k)))).
  assert (Hlen : length (spreadUpthrust sqrt up) = volcanoDiameter).
  { unfold spreadUpthrust. by rewrite length_map, length_seq. }
  rewrite Hlen.
  set (cond := λ i j : nat,
         ((bx + i <? worldWidth)%nat && (by' + j <? worldHeight)%nat)).
  rewrite (forEach_ext_inv (λ _, True) _ _
             (λ i w, forEach (seq 0 volcanoDiameter)
                       (λ j w, if cond i j
                               then updTile (bx + i) (by' + j)
                                      (raise (spreadEntry sqrt up i j)) w
                               else Some w) w)); [|done| |done].
  2:{ intros i w1 Hi%elem_of_seq _.
      rewrite spreadUpthrust_row by lia. cbn [mbind option_bind].
      rewrite length_map, length_seq.
      apply (forEach_ext_inv (λ _, True)); [done| |done].
      intros j w2 Hj%elem_of_seq _.
      rewrite spreadUpthrust_entry by lia. cbn [mbind option_bind].
      unfold cond, updTileZ.
      replace (getRandomX rand k + Z.of_nat i <? Z.of_nat worldWidth)%Z
        with (bx + i <? worldWidth)%nat
        by (apply eq_true_iff_eq; rewrite Nat.ltb_lt, Z.ltb_lt; lia).
      replace (getRandomY rand (S k) + Z.of_nat j <? Z.of_nat worldHeight)%Z
        with (by' + j <? worldHeight)%nat
        by (apply eq_true_iff_eq; rewrite Nat.ltb_lt, Z.ltb_lt; lia).
      destruct ((bx + i <? worldWidth)%nat && (by' + j <? worldHeight)%nat); [|done].
      replace (0 <=? getRandomX rand k + Z.of_nat i)%Z with true
        by (symmetry; apply Z.leb_le; lia).
      replace (0 <=? getRandomY rand (S k) + Z.of_nat j)%Z with true
        by (symmetry; apply Z.leb_le; lia).
      simpl. unfold raise. do 2 f_equal; lia. }
  rewrite (forEach_nested (seq 0 volcanoDiameter) (seq 0 volcanoDiameter)
             (λ i j w, if cond i j
                       then updTile (bx + i) (by' + j)
                              (raise (spreadEntry sqrt up i j)) w
                       else Some w)).
  destruct (forEach2_upd (pairs (seq 0 volcanoDiameter) (seq 0 volcanoDiameter))
              cond (λ i, (bx + i)%nat) (λ j, (by' + j)%nat)
              (λ i j, raise (spreadEntry sqrt up i j)) w0)
    as (w' & Hrun & Hwf' & Ha & Hb & Hd & Hout & Hin).
  { apply NoDup_pairs; apply NoDup_seq. }
  { intros; lia. }
  { intros; lia. }
  { intros i j _ Hc. unfold cond in Hc. apply andb_true_iff in Hc as [H1 H2].
    apply Nat.ltb_lt in H1, H2. done. }
  { done. }
  exists w'. split_and!; try done.
  - intros x y Hxy. rewrite Hout; [done|].
    intros i j Hij _ [-> ->]. apply elem_of_pairs in Hij as [Hi%elem_of_seq Hj%elem_of_seq].
    apply Hxy. unfold volcanoDiameter in *. lia.
  - intros i j Hi Hj Hx Hy. rewrite Hin; [done| |].
    + apply elem_of_pairs. rewrite !elem_of_seq. lia.
    + unfold cond. apply andb_true_iff. by rewrite !Nat.ltb_lt.
Qed.

(** ** The per-tile callback *)

Lemma applyBiomass_eq tile ta a b :
  applyBiomass tile ta a b =
  let p := grownPopulation tile ta in
  (set_biomass (mkBiomass p p) tile,
   mkAtmosphere (nitrogen a) (oxygen a + p * oxygenPerPhotosyntheticBiomass)
     (carbonDioxide a - p * carbonPerPhotosyntheticBiomass) (methane a)
     (waterVapour a),
   mkBiomass (total b + p) (prokaryote b + p)).
Proof.
  unfold applyBiomass, grownPopulation.
  destruct (gtb (heat tile) unlivableTemperature
            || negb (cover_eqb (tileCover tile) Water)
            || eqb (carbonDioxide ta) 0); done.
Qed.

Lemma tileClimate_fst htf t a :
  (tileClimate htf t a).1
  = mkTile (Math_max (altitude t - erosionRate) 0) (baseLuminosity t)
      (computeHeat t (computeLuminosity t) htf) (tileCover t) (biomass t).
Proof.
  unfold tileClimate. simpl.
  destruct (cover_eqb (tileCover t) Water); [done|].
  destruct (cover_eqb (tileCover t) Rock); done.
Qed.

Lemma tileClimate_snd htf t a :
  (tileClimate htf t a).2
  = if isWater t then
      mkAtmosphere (nitrogen a) (oxygen a) (carbonDioxide a) (methane a)
        (waterVapour a + waterVaporPerOceanTile)
    else if isRock t then
      mkAtmosphere (nitrogen a) (oxygen a) (carbonDioxide a + carbonPerLandTile)
        (methane a) (waterVapour a)
    else a.
Proof.
  unfold tileClimate, isWater, isRock. simpl.
  destruct (cover_eqb (tileCover t) Water); [done|].
  destruct (cover_eqb (tileCover t) Rock); done.
Qed.

Lemma abiogenesis_cases rand t k :
  abiogenesis rand t k = (t, k)
  ∨ abiogenesis rand t k = (t, S k)
  ∨ (abiogenesis rand t k = (set_biomass (mkBiomass 1 1) t, S k)
     ∧ total (biomass t) = 0
     ∧ prokaryoteAbiogenesisMinHeat < heat t
     ∧ heat t < unlivableTemperature
     ∧ rand k < prokaryoteAbiogenesisChance).
Proof.
  unfold abiogenesis.
  destruct (eqb (total (biomass t)) 0) eqn:H1; simpl; [|by left].
  destruct (gtb (heat t) prokaryoteAbiogenesisMinHeat) eqn:H2; simpl; [|by left].
  destruct (ltb (heat t) unlivableTemperature) eqn:H3; simpl; [|by left].
  destruct (ltb (rand k) prokaryoteAbiogenesisChance) eqn:H4; [|by right; left].
  right; right. apply eqb_eq in H1. apply ltb_lt in H2, H3, H4. done.
Qed.

Lemma tileLocal_spec rand ta htf w (x y : nat) :
  wf w → (x < worldWidth)%nat → (y < worldHeight)%nat →
  ∃ tile w',
    getTile w x y = Some tile
    ∧ tileLocal rand ta htf x y w = Some w'
    ∧ wf w'
    ∧ let c := tileClimate htf tile (atmosphere w) in
      let ab := abiogenesis rand c.1 (drawn w) in
      let r := applyBiomass ab.1 ta c.2 (worldBiomass w) in
      atmosphere w' = r.1.2
      ∧ worldBiomass w' = r.2
      ∧ drawn w' = ab.2
      ∧ getTile w' x y = Some r.1.1
      ∧ ∀ x' y' : nat, ¬ (x' = x ∧ y' = y) → getTile w' x' y' = getTile w x' y'.
Proof.
  intros Hwf Hx Hy.
  destruct (wf_getTile w x y) as [tile Htile]; [done..|].
  exists tile. unfold tileLocal. rewrite Htile. cbn [mbind option_bind].
  destruct (tileClimate htf tile (atmosphere w)) as [t1 a1]. cbn [fst snd].
  destruct (abiogenesis rand t1 (drawn w)) as [t2 k]. cbn [fst snd].
  destruct (applyBiomass t2 ta a1 (worldBiomass w)) as [[t3 a3] b3]. cbn [fst snd].
  destruct (updTile_updated x y (λ _, t3) (mkWorld a3 b3 (tiles w) k) tile Htile)
    as (w' & -> & Hup).
  exists w'. split_and!; try done.
  - apply (updated_wf _ _ _ _ _ Hup). exact Hwf.
  - by destruct Hup as (-> & _).
  - by destruct Hup as (_ & -> & _).
  - by destruct Hup as (_ & _ & -> & _).
  - by rewrite (updated_at _ _ _ _ _ _ Hup Htile).
  - intros x' y' Hne. by rewrite (updated_other _ _ _ _ _ _ _ Hup).
Qed.

Lemma tileAbiotic_spec htf w (x y : nat) :
  wf w → (x < worldWidth)%nat → (y < worldHeight)%nat →
  ∃ tile w',
    getTile w x y = Some tile
    ∧ tileAbiotic htf x y w = Some w'
    ∧ wf w'
    ∧ let c := tileClimate htf tile (atmosphere w) in
      atmosphere w' = c.2
      ∧ worldBiomass w' = worldBiomass w
      ∧ drawn w' = drawn w
      ∧ getTile w' x y = Some c.1
      ∧ ∀ x' y' : nat, ¬ (x' = x ∧ y' = y) → getTile w' x' y' = getTile w x' y'.
Proof.
  intros Hwf Hx Hy.
  destruct (wf_getTile w x y) as [tile Htile]; [done..|].
  exists tile. unfold tileAbiotic. rewrite Htile. cbn [mbind option_bind].
  destruct (tileClimate htf tile (atmosphere w)) as [t1 a1]. cbn [fst snd].
  destruct (updTile_updated x y (λ _, t1)
              (mkWorld a1 (worldBiomass w) (tiles w) (drawn w)) tile Htile)
    as (w' & -> & Hup).
  exists w'. split_and!; try done.
  - apply (updated_wf _ _ _ _ _ Hup). exact Hwf.
  - by destruct Hup as (-> & _).
  - by destruct Hup as (_ & -> & _).
  - by destruct Hup as (_ & _ & -> & _).
  - by rewrite (updated_at _ _ _ _ _ _ Hup Htile).
  - intros x' y' Hne. by rewrite (updated_other _ _ _ _ _ _ _ Hup).
Qed.

(** ** What each callback leaves alone *)

Tactic Notation "osimpl" :=
  cbn [mbind option_bind fmap option_fmap option_map mret option_ret fst snd].
Tactic Notation "osimpl" "in" hyp(H) :=
  cbn [mbind option_bind fmap option_fmap option_map mret option_ret fst snd] in H.

Lemma getTile_None_out w (x y : nat) :
  wf w → ¬ ((x < worldWidth)%nat ∧ (y < worldHeight)%nat) → getTile w x y = None.
Proof.
  intros Hwf Hout. destruct (getTile w x y) as [t|] eqn:Ht; [|done].
  destruct Hout. apply (getTile_lt w); [done|by rewrite Ht].
Qed.

Lemma transferHeat_same {A} (π : Tile → A) w w' (x y : nat) :
  (∀ v t, π (set_heat v t) = π t) →
  wf w → (x < worldWidth)%nat → (y < worldHeight)%nat →
  transferHeat x y w = Some w' → same π w w'.
Proof.
  intros Hπ Hwf Hx Hy Hrun.
  destruct (transferHeat_spec w x y Hwf Hx Hy)
    as (tile & tileE & w2 & Htile & HtileE & Hrun2 & Hwf2 & _ & _ & _
        & HE & HS & Hlast & Hother).
  rewrite Hrun in Hrun2. injection Hrun2 as <-. intros x' y'.
  destruct (decide (x' = x ∧ y' = y)) as [[-> ->]|H1].
  { destruct (decide (y + 1 = worldHeight)%nat) as [Hl|Hl].
    - rewrite Hlast, Htile by done. simpl. by rewrite Hπ.
    - destruct HS as (tileS & HtS & HS1 & HS2); [lia|].
      rewrite HS2, Htile. simpl. by rewrite Hπ. }
  destruct (decide (x' = (x + 1) mod worldWidth ∧ y' = y)) as [[-> ->]|H2].
  { rewrite HE, HtileE. simpl. by rewrite Hπ. }
  destruct (decide (x' = x ∧ y' = (y + 1)%nat)) as [[-> ->]|H3].
  { destruct (decide (y + 1 < worldHeight)%nat) as [Hl|Hl].
    - destruct HS as (tileS & HtS & HS1 & HS2); [lia|].
      rewrite HS1, HtS. simpl. by rewrite Hπ.
    - rewrite !getTile_None_out; [done|done|lia|done|lia]. }
  by rewrite Hother.
Qed.

Lemma transferProkaryotes_same {A} (π : Tile → A) w w' (x y : nat) :
  (∀ v t, π (set_prokaryote v t) = π t) →
  wf w → (x < worldWidth)%nat → (y < worldHeight)%nat →
  transferProkaryotes x y w = Some w' → same π w w'.
Proof.
  intros Hπ Hwf Hx Hy Hrun.
  destruct (transferProkaryotes_spec w x y Hwf Hx Hy)
    as (tile & tileE & w2 & Htile & HtileE & Hrun2 & Hwf2 & _ & _ & _
        & HE & Hlast & HS & Hother).
  rewrite Hrun in Hrun2. injection Hrun2 as <-. intros x' y'.
  destruct (decide (x' = x ∧ y' = y)) as [[-> ->]|H1].
  { destruct (decide (y + 1 = worldHeight)%nat) as [Hl|Hl].
    - rewrite Hlast, Htile by done. simpl. case_match; [by rewrite Hπ|done].
    - destruct HS as (tileS & HtS & HS1 & HS2); [lia|].
      rewrite HS2, Htile. simpl. repeat case_match; by rewrite ?Hπ. }
  destruct (decide (x' = (x + 1) mod worldWidth ∧ y' = y)) as [[-> ->]|H2].
  { rewrite HE, HtileE. simpl. case_match; [by rewrite Hπ|done]. }
  destruct (decide (x' = x ∧ y' = (y + 1)%nat)) as [[-> ->]|H3].
  { destruct (decide (y + 1 < worldHeight)%nat) as [Hl|Hl].
    - destruct HS as (tileS & HtS & HS1 & HS2); [lia|].
      rewrite HS1, HtS. simpl. case_match; [by rewrite Hπ|done].
    - rewrite !getTile_None_out; [done|done|lia|done|lia]. }
  by rewrite Hother.
Qed.

(** A field that none of the three statements of the callback writes is
    kept by [tileLocal]. *)
Lemma tileLocal_same {A} (π : Tile → A) rand ta htf w w' (x y : nat) :
  (∀ htf t a, π (tileClimate htf t a).1 = π t) →
  (∀ b t, π (set_biomass b t) = π t) →
  wf w → (x < worldWidth)%nat → (y < worldHeight)%nat →
  tileLocal rand ta htf x y w = Some w' → same π w w'.
Proof.
  intros Hc Hb Hwf Hx Hy Hrun.
  destruct (tileLocal_spec rand ta htf w x y Hwf Hx Hy)
    as (tile & w2 & Htile & Hrun2 & _ & _ & _ & _ & Hat & Hother).
  rewrite Hrun in Hrun2. injection Hrun2 as <-. intros x' y'.
  destruct (decide (x' = x ∧ y' = y)) as [[-> ->]|H1]; [|by rewrite Hother].
  rewrite Hat, Htile. osimpl. f_equal. rewrite applyBiomass_eq. osimpl.
  rewrite Hb.
  destruct (abiogenesis_cases rand (tileClimate htf tile (atmosphere w)).1 (drawn w))
    as [->|[->|[-> _]]]; osimpl; by rewrite ?Hb, Hc.
Qed.

Lemma tileStep_inv (P : World → Prop) rand ta htf w (x y : nat) :
  (∀ w w', wf w → P w → tileLocal rand ta htf x y w = Some w' → P w') →
  (∀ w w', wf w → P w → transferProkaryotes x y w = Some w' → P w') →
  wf w → (x < worldWidth)%nat → (y < worldHeight)%nat → P w →
  ∃ w', tileStep rand ta htf x y w = Some w' ∧ wf w' ∧ P w'.
Proof.
  intros Hloc Htr Hwf Hx Hy HP. unfold tileStep.
  destruct (tileLocal_spec rand ta htf w x y Hwf Hx Hy)
    as (tile & w1 & _ & Hrun1 & Hwf1 & _).
  rewrite Hrun1. simpl.
  destruct (transferProkaryotes_spec w1 x y Hwf1 Hx Hy)
    as (? & ? & w2 & _ & _ & Hrun2 & Hwf2 & _).
  exists w2. split_and!; [done|done|]. eauto.
Qed.

(** ** The passes of a tick *)

Lemma tileStep_pass (P : World → Prop) rand ta htf w :
  (∀ (x y : nat) w w', (x < worldWidth)%nat → (y < worldHeight)%nat →
     wf w → P w → tileLocal rand ta htf x y w = Some w' → P w') →
  (∀ (x y : nat) w w', (x < worldWidth)%nat → (y < worldHeight)%nat →
     wf w → P w → transferProkaryotes x y w = Some w' → P w') →
  wf w → P w →
  ∃ w', applyTiles (tileStep rand ta htf) w = Some w' ∧ wf w' ∧ P w'.
Proof.
  intros Hloc Htr Hwf HP.
  destruct (applyTiles_inv P (tileStep rand ta htf) w) as (w' & ? & _ & ? & ?);
    [|done|done|by exists w'].
  intros x y w1 Hx Hy Hwf1 HP1. apply tileStep_inv; try assumption.
  - intros w2 w3 Hwf2 HP2 Hrun. exact (Hloc x y w2 w3 Hx Hy Hwf2 HP2 Hrun).
  - intros w2 w3 Hwf2 HP2 Hrun. exact (Htr x y w2 w3 Hx Hy Hwf2 HP2 Hrun).
Qed.

Lemma heat_pass (P : World → Prop) w :
  (∀ (x y : nat) w w', (x < worldWidth)%nat → (y < worldHeight)%nat →
     wf w → P w → transferHeat x y w = Some w' → P w') →
  wf w → P w →
  ∃ w', applyTiles transferHeat w = Some w' ∧ wf w' ∧ P w'.
Proof.
  intros Hstep Hwf HP.
  destruct (applyTiles_inv P transferHeat w) as (w' & ? & _ & ? & ?);
    [|done|done|by exists w'].
  intros x y w1 Hx Hy Hwf1 HP1.
  destruct (transferHeat_spec w1 x y Hwf1 Hx Hy) as (? & ? & w2 & _ & _ & Hrun & ? & _).
  exists w2. eauto.
Qed.

Lemma wf_beginTick w : wf w → wf (beginTick w).
Proof. done. Qed.

(** The phases of a tick run to completion on a full grid. *)
Lemma tick_phases sqrt rand w :
  wf w → unitInterval rand →
  ∃ w1 w3 w4 w',
    eruptVolcano sqrt rand w = Some w1 ∧ wf w1
    ∧ (let w2 := beginTick w1 in
       let ta := computeTileAtmosphere (atmosphere w2) in
       applyTiles (tileStep rand ta (computeHeatTrappingFactor ta)) w2 = Some w3)
    ∧ wf w3
    ∧ applyTiles transferHeat w3 = Some w4 ∧ wf w4
    ∧ applyTiles classifyTile w4 = Some w' ∧ wf w'
    ∧ tick sqrt rand w = Some w'.
Proof.
  intros Hwf Hr.
  destruct (eruptVolcano_spec sqrt rand w Hwf Hr) as (w1 & Hw1 & Hwf1 & _).
  set (w2 := beginTick w1).
  set (ta := computeTileAtmosphere (atmosphere w2)).
  destruct (tileStep_pass (λ _, True) rand ta (computeHeatTrappingFactor ta) w2)
    as (w3 & Hw3 & Hwf3 & _); [done..|].
  destruct (heat_pass (λ _, True) w3) as (w4 & Hw4 & Hwf4 & _); [done..|].
  destruct (applyTiles_map (λ tile, set_tileCover (computeTileCover tile) tile) w4 Hwf4)
    as (w' & Hw' & Hwf' & _).
  exists w1, w3, w4, w'. split_and!; try done.
  unfold tick. rewrite Hw1. osimpl. fold w2. fold ta. rewrite Hw3. osimpl.
  rewrite Hw4. osimpl. exact Hw'.
Qed.

(** ** Cover classification *)

Lemma computeTileCover_cases tile :
  (seaLevel ≤ altitude tile → computeTileCover tile = Rock)
  ∧ (altitude tile < seaLevel → freezingPoint < heat tile →
     computeTileCover tile = Water)
  ∧ (altitude tile < seaLevel → heat tile ≤ freezingPoint →
     computeTileCover tile = Ice).
Proof.
  unfold computeTileCover, gtb. split_and!; intros.
  - apply ltb_ge in H. by rewrite H.
  - apply ltb_lt in H, H0. by rewrite H, H0.
  - apply ltb_lt in H. apply ltb_ge in H0. by rewrite H, H0.
Qed.

Lemma same_tileCover_tileStep_pass rand ta htf w w' :
  wf w → applyTiles (tileStep rand ta htf) w = Some w' → same tileCover w w'.
Proof.
  intros Hwf Hrun.
  destruct (tileStep_pass (same tileCover w) rand ta htf w) as (w2 & Hw2 & _ & HP);
    [| |done|done|].
  - intros x y w1 w2 Hx Hy Hwf1 HP1 Hstep. eapply same_trans; [exact HP1|].
    apply (tileLocal_same tileCover rand ta htf w1 w2 x y); try assumption.
    + intros. by rewrite tileClimate_fst.
    + reflexivity.
  - intros x y w1 w2 Hx Hy Hwf1 HP1 Hstep. eapply same_trans; [exact HP1|].
    apply (transferProkaryotes_same tileCover w1 w2 x y); try assumption.
    reflexivity.
  - rewrite Hrun in Hw2. by injection Hw2 as ->.
Qed.

Lemma same_heat_pass {A} (π : Tile → A) w w' :
  (∀ v t, π (set_heat v t) = π t) →
  wf w → applyTiles transferHeat w = Some w' → same π w w'.
Proof.
  intros Hπ Hwf Hrun.
  destruct (heat_pass (same π w) w) as (w2 & Hw2 & _ & HP); [|done|done|].
  - intros x y w1 w2 Hx Hy Hwf1 HP1 Hstep. eapply same_trans; [exact HP1|].
    apply (transferHeat_same π w1 w2 x y); assumption.
  - rewrite Hrun in Hw2. by injection Hw2 as ->.
Qed.

Lemma same_eruptVolcano {A} (π : Tile → A) sqrt rand w w' :
  (∀ v t, π (set_altitude v t) = π t) →
  wf w → unitInterval rand →
  eruptVolcano sqrt rand w = Some w' → same π w w'.
Proof.
  intros Hπ Hwf Hr Hrun.
  destruct (eruptVolcano_spec sqrt rand w Hwf Hr)
    as (w2 & Hw2 & _ & _ & _ & _ & Hout & Hin).
  rewrite Hrun in Hw2. injection Hw2 as <-. intros x y.
  set (bx := Z.to_nat (getRandomX rand (drawn w))) in *.
  set (by' := Z.to_nat (getRandomY rand (S (drawn w)))) in *.
  destruct (decide ((bx ≤ x ≤ bx + 8)%nat ∧ (by' ≤ y ≤ by' + 8)%nat)) as [Hsq|Hsq];
    [|by rewrite Hout].
  destruct (decide ((x < worldWidth)%nat ∧ (y < worldHeight)%nat)) as [[Hx Hy]|Hr'].
  - replace x with (bx + (x - bx))%nat by lia.
    replace y with (by' + (y - by'))%nat by lia.
    rewrite Hin by (unfold volcanoDiameter; lia).
    destruct (getTile w _ _); [|done]. osimpl. unfold raise. by rewrite Hπ.
  - rewrite !getTile_None_out; [done|done|done| |done].
    destruct (eruptVolcano_spec sqrt rand w Hwf Hr) as (w3 & Hw3 & ? & _).
    rewrite Hrun in Hw3. by injection Hw3 as ->.
Qed.

(** C8. A tick on a full grid runs its four phases to completion; the
    eruption, the per-tile pass and the heat diffusion pass leave every
    tile's [tileCover] as it was, and the final pass only assigns
    [tileCover]: after the tick every tile's [tileCover] is
    [computeTileCover] of that tile's altitude and heat, that is [Rock] when
    [altitude >= seaLevel], else [Water] when [heat > freezingPoint], else
    [Ice]. *)
Theorem cover_is_classification sqrt rand (w : World) :
  wf w → unitInterval rand →
  ∃ w1 w3 w4 w',
    eruptVolcano sqrt rand w = Some w1
    ∧ (let ta := computeTileAtmosphere (atmosphere (beginTick w1)) in
       applyTiles (tileStep rand ta (computeHeatTrappingFactor ta)) (beginTick w1)
       = Some w3)
    ∧ applyTiles transferHeat w3 = Some w4
    ∧ applyTiles classifyTile w4 = Some w'
    ∧ tick sqrt rand w = Some w'
    ∧ same tileCover w w1
    ∧ same tileCover (beginTick w1) w3
    ∧ same tileCover w3 w4
    ∧ (∀ x y : nat,
         getTile w' x y
         = (λ tile, set_tileCover (computeTileCover tile) tile) <$> getTile w4 x y)
    ∧ (∀ (x y : nat) tile,
         getTile w' x y = Some tile →
         tileCover tile = computeTileCover tile
         ∧ (seaLevel ≤ altitude tile → tileCover tile = Rock)
         ∧ (altitude tile < seaLevel → freezingPoint < heat tile →
            tileCover tile = Water)
         ∧ (altitude tile < seaLevel → heat tile ≤ freezingPoint →
            tileCover tile = Ice)).
Proof.
  intros Hwf Hr.
  destruct (tick_phases sqrt rand w Hwf Hr)
    as (w1 & w3 & w4 & w' & Hw1 & Hwf1 & Hw3 & Hwf3 & Hw4 & Hwf4 & Hw' & Hwf' & Htick).
  destruct (applyTiles_map (λ tile, set_tileCover (computeTileCover tile) tile) w4 Hwf4)
    as (w2' & Hw2' & _ & _ & _ & _ & Hget).
  change (applyTiles classifyTile w4 = Some w2') in Hw2'.
  rewrite Hw' in Hw2'. injection Hw2' as <-.
  exists w1, w3, w4, w'. split_and!; try assumption.
  - apply (same_eruptVolcano tileCover sqrt rand w w1); done.
  - eapply same_tileCover_tileStep_pass; [exact Hwf1|exact Hw3].
  - apply (same_heat_pass tileCover w3 w4); done.
  - intros x y tile Ht. rewrite Hget in Ht.
    destruct (getTile w4 x y) as [t4|]; [|done]. injection Ht as <-.
    assert (Hc : tileCover (set_tileCover (computeTileCover t4) t4)
                 = computeTileCover (set_tileCover (computeTileCover t4) t4)) by done.
    split; [exact Hc|]. rewrite Hc. apply computeTileCover_cases.
Qed.

Lemma unitInterval_zero : unitInterval (λ _, 0).
Proof. intros k. split; [apply Qcle_refl|reflexivity]. Defined.

Lemma cover_is_classification_witness :
  wf newWorld ∧ unitInterval (λ _, 0)
  ∧ ∃ w', tick (λ q, q) (λ _, 0) newWorld = Some w'
          ∧ ∀ (x y : nat) tile, getTile w' x y = Some tile →
                                tileCover tile = computeTileCover tile.
Proof.
  split; [exact wf_newWorld|]. split; [exact unitInterval_zero|].
  destruct (cover_is_classification (λ q, q) (λ _, 0) newWorld
              wf_newWorld unitInterval_zero)
    as (w1 & w3 & w4 & w' & _ & _ & _ & _ & Htick & _ & _ & _ & _ & Hc).
  exists w'. split; [exact Htick|]. intros x y tile Ht. exact (proj1 (Hc x y tile Ht)).
Defined.

(** ** Counting tiles *)

Lemma countAt_app p w l1 l2 :
  countAt p w (l1 ++ l2) = (countAt p w l1 + countAt p w l2)%nat.
Proof.
  induction l1 as [|[x y] l1 IH]; simpl; [done|]. rewrite IH. lia.
Qed.

Lemma countAt_same {A} (π : Tile → A) (p : Tile → bool) w w' idx :
  (∀ t t', π t = π t' → p t = p t') →
  same π w w' → countAt p w' idx = countAt p w idx.
Proof.
  intros Hp Hs. induction idx as [|[x y] idx IH]; simpl; [done|].
  rewrite IH. f_equal. specialize (Hs x y).
  destruct (getTile w' x y) as [t'|], (getTile w x y) as [t|]; try done.
  injection Hs as Hs. by rewrite (Hp t' t Hs).
Qed.

Lemma countAt_column p w (x : nat) (col : list Tile) :
  tiles w !! x = Some col →
  countAt p w ((λ y, (x, y)) <$> seq 0 (length col))
  = length (filter (λ t, p t = true) col).
Proof.
  intros Hcol.
  assert (Hgen : ∀ l b, (∀ j t, l !! j = Some t → col !! (b + j)%nat = Some t) →
            countAt p w ((λ y, (x, y)) <$> seq b (length l))
            = length (filter (λ t, p t = true) l)).
  { induction l as [|t l IH]; intros b Hl; [done|]. simpl.
    unfold getTile. rewrite Hcol. simpl.
    rewrite <- (Nat.add_0_r b) at 1. rewrite (Hl 0%nat t) by done.
    rewrite IH.
    - rewrite filter_cons. destruct (p t); by case_decide.
    - intros j t' Hj. replace (S b + j)%nat with (b + S j)%nat by lia.
      by apply Hl. }
  apply Hgen. intros j t Hj. done.
Qed.

Lemma countAt_columns p w (n a : nat) :
  wf w → (a + n ≤ worldWidth)%nat →
  countAt p w (pairs (seq a n) (seq 0 worldHeight))
  = length (filter (λ t, p t = true) (concat (take n (drop a (tiles w))))).
Proof.
  intros [Hl Hc]. revert a. induction n as [|n IH]; intros a Ha; [done|].
  rewrite <- cons_seq, pairs_cons, countAt_app.
  destruct (lookup_lt_is_Some_2 (tiles w) a) as [col Hcol]; [lia|].
  rewrite (drop_S _ _ _ Hcol). cbn [take concat].
  rewrite list.filter_app, length_app. f_equal.
  - rewrite Forall_lookup in Hc. rewrite <- (Hc _ _ Hcol).
    by apply countAt_column.
  - rewrite IH by lia. done.
Qed.

Lemma countAt_rasterOrder p w :
  wf w → countAt p w rasterOrder = countTiles p w.
Proof.
  intros Hwf. unfold rasterOrder, countTiles.
  rewrite countAt_columns by (done || lia).
  destruct Hwf as [Hl _]. by rewrite drop_0, <- Hl, firstn_all.
Qed.

Lemma ofNat_plus (a b : nat) : ofNat (a + b) = ofNat a + ofNat b.
Proof. unfold ofNat. by rewrite Nat2Z.inj_add, ofZ_plus. Qed.

Lemma countTiles_same {A} (π : Tile → A) (p : Tile → bool) w w' :
  (∀ t t', π t = π t' → p t = p t') →
  wf w → wf w' → same π w w' → countTiles p w' = countTiles p w.
Proof.
  intros Hp Hwf Hwf' Hs. rewrite <- !countAt_rasterOrder by done.
  by apply (countAt_same π).
Qed.

(** ** The atmosphere during the per-tile pass *)

Lemma tileStep_atmosphere rand ta htf w w' (x y : nat) :
  wf w → (x < worldWidth)%nat → (y < worldHeight)%nat →
  tileStep rand ta htf x y w = Some w' →
  ∃ tile,
    getTile w x y = Some tile
    ∧ wf w'
    ∧ same tileCover w w'
    ∧ let a := atmosphere w in
      let p := grownPopulation
                 (abiogenesis rand (tileClimate htf tile a).1 (drawn w)).1 ta in
      nitrogen (atmosphere w') = nitrogen a
      ∧ methane (atmosphere w') = methane a
      ∧ waterVapour (atmosphere w')
        = waterVapour a + (if isWater tile then waterVaporPerOceanTile else 0)
      ∧ oxygen (atmosphere w') = oxygen a + p * oxygenPerPhotosyntheticBiomass
      ∧ carbonDioxide (atmosphere w')
        = carbonDioxide a
          + (if isWater tile then 0 else if isRock tile then carbonPerLandTile else 0)
          - p * carbonPerPhotosyntheticBiomass.
Proof.
  intros Hwf Hx Hy Hrun. unfold tileStep in Hrun.
  destruct (tileLocal_spec rand ta htf w x y Hwf Hx Hy)
    as (tile & w1 & Htile & Hrun1 & Hwf1 & Ha & _ & _ & _ & _).
  rewrite Hrun1 in Hrun. osimpl in Hrun.
  destruct (transferProkaryotes_spec w1 x y Hwf1 Hx Hy)
    as (? & ? & w2 & _ & _ & Hrun2 & Hwf2 & Ha2 & _).
  rewrite Hrun in Hrun2. injection Hrun2 as <-.
  exists tile. cbv zeta. split_and!; try assumption.
  - eapply same_trans.
    + apply (tileLocal_same tileCover rand ta htf w w1 x y); try assumption.
      * intros. by rewrite tileClimate_fst.
      * reflexivity.
    + apply (transferProkaryotes_same tileCover w1 w' x y); try assumption.
      reflexivity.
  - rewrite Ha2, Ha, applyBiomass_eq. cbn [fst snd nitrogen].
    rewrite tileClimate_snd. by destruct (isWater tile), (isRock tile).
  - rewrite Ha2, Ha, applyBiomass_eq. cbn [fst snd methane].
    rewrite tileClimate_snd. by destruct (isWater tile), (isRock tile).
  - rewrite Ha2, Ha, applyBiomass_eq. cbn [fst snd waterVapour].
    rewrite tileClimate_snd.
    destruct (isWater tile), (isRock tile); cbn [waterVapour]; ring.
  - rewrite Ha2, Ha, applyBiomass_eq. cbn [fst snd oxygen].
    rewrite tileClimate_snd. by destruct (isWater tile), (isRock tile).
  - rewrite Ha2, Ha, applyBiomass_eq. cbn [fst snd carbonDioxide].
    rewrite tileClimate_snd.
    destruct (isWater tile), (isRock tile); cbn [carbonDioxide]; ring.
Qed.

Lemma tileStep_waterVapour rand ta htf idx w :
  wf w →
  (∀ x y : nat, (x, y) ∈ idx → (x < worldWidth)%nat ∧ (y < worldHeight)%nat) →
  ∃ w', forEach2 idx (tileStep rand ta htf) w = Some w'
    ∧ wf w'
    ∧ same tileCover w w'
    ∧ nitrogen (atmosphere w') = nitrogen (atmosphere w)
    ∧ methane (atmosphere w') = methane (atmosphere w)
    ∧ waterVapour (atmosphere w')
      = waterVapour (atmosphere w)
        + waterVaporPerOceanTile * ofNat (countAt isWater w idx).
Proof.
  revert w. induction idx as [|[x y] idx IH]; intros w Hwf Hidx.
  - exists w. split_and!; try done. simpl. change (ofNat 0) with 0. ring.
  - destruct (Hidx x y) as [Hx Hy]; [left|].
    destruct (tileStep_inv (λ _, True) rand ta htf w x y) as (w1 & Hw1 & Hwf1 & _);
      [done..|].
    destruct (tileStep_atmosphere rand ta htf w w1 x y Hwf Hx Hy Hw1)
      as (tile & Htile & _ & Hsame & Hn & Hm & Hwv & _).
    destruct (IH w1 Hwf1) as (w' & Hw' & Hwf' & Hsame' & Hn' & Hm' & Hwv').
    { intros x' y' Hin. apply Hidx. by right. }
    exists w'. cbn [forEach2]. rewrite Hw1. osimpl. split_and!; try done.
    + by eapply same_trans.
    + congruence.
    + congruence.
    + rewrite Hwv', Hwv. cbn [countAt]. rewrite Htile.
      rewrite (countAt_same tileCover isWater w w1 idx); [|by intros t1 t2 Ht; unfold isWater; rewrite Ht|done].
      rewrite ofNat_plus. destruct (isWater tile).
      * change (ofNat 1) with 1. ring.
      * change (ofNat 0) with 0. ring.
Qed.

Lemma tileStep_wf rand ta htf w w' (x y : nat) :
  (x < worldWidth)%nat → (y < worldHeight)%nat → wf w →
  tileStep rand ta htf x y w = Some w' → wf w'.
Proof.
  intros Hx Hy Hwf Hrun.
  destruct (tileStep_inv (λ _, True) rand ta htf w x y) as (w1 & Hw1 & Hwf1 & _);
    [done..|].
  rewrite Hrun in Hw1. by injection Hw1 as ->.
Qed.

Lemma heat_pass_atmosphere w w' :
  wf w → applyTiles transferHeat w = Some w' →
  atmosphere w' = atmosphere w ∧ worldBiomass w' = worldBiomass w
  ∧ drawn w' = drawn w.
Proof.
  intros Hwf Hrun.
  destruct (heat_pass (λ w1, atmosphere w1 = atmosphere w
                             ∧ worldBiomass w1 = worldBiomass w
                             ∧ drawn w1 = drawn w) w)
    as (w2 & Hw2 & _ & HP); [|done|done|].
  - intros x y w1 w2 Hx Hy Hwf1 (Ha & Hb & Hd) Hstep.
    destruct (transferHeat_spec w1 x y Hwf1 Hx Hy)
      as (? & ? & w3 & _ & _ & Hrun3 & _ & Ha3 & Hb3 & Hd3 & _).
    rewrite Hstep in Hrun3. injection Hrun3 as <-.
    split_and!; congruence.
  - rewrite Hrun in Hw2. by injection Hw2 as ->.
Qed.

Lemma classify_pass w w' :
  wf w → applyTiles classifyTile w = Some w' →
  wf w'
  ∧ atmosphere w' = atmosphere w ∧ worldBiomass w' = worldBiomass w
  ∧ drawn w' = drawn w
  ∧ ∀ x y : nat,
      getTile w' x y
      = (λ tile, set_tileCover (computeTileCover tile) tile) <$> getTile w x y.
Proof.
  intros Hwf Hrun.
  destruct (applyTiles_map (λ tile, set_tileCover (computeTileCover tile) tile) w Hwf)
    as (w2 & Hw2 & ? & ? & ? & ? & ?).
  change (applyTiles classifyTile w = Some w2) in Hw2.
  rewrite Hrun in Hw2. by injection Hw2 as <-.
Qed.

(** The atmosphere through the phases of a tick. *)
Lemma tick_atmosphere sqrt rand (w : World) :
  wf w → unitInterval rand →
  ∃ w1 w3 w',
    eruptVolcano sqrt rand w = Some w1
    ∧ (let a := atmosphere w in
       atmosphere (beginTick w1)
       = mkAtmosphere (nitrogen a - nitrogen a * atmosphereLossRate)
           (oxygen a - oxygen a * atmosphereLossRate)
           (carbonDioxide a - carbonDioxide a * atmosphereLossRate)
           (methane a - methane a * atmosphereLossRate) 0)
    ∧ (let ta := computeTileAtmosphere (atmosphere (beginTick w1)) in
       applyTiles (tileStep rand ta (computeHeatTrappingFactor ta)) (beginTick w1)
       = Some w3)
    ∧ tick sqrt rand w = Some w'
    ∧ same tileCover w (beginTick w1)
    ∧ same tileCover w w3
    ∧ waterVapour (atmosphere w')
      = waterVaporPerOceanTile * ofNat (countTiles isWater w)
    ∧ nitrogen (atmosphere w')
      = nitrogen (atmosphere w) - nitrogen (atmosphere w) * atmosphereLossRate
    ∧ methane (atmosphere w')
      = methane (atmosphere w) - methane (atmosphere w) * atmosphereLossRate.
Proof.
  intros Hwf Hr.
  destruct (tick_phases sqrt rand w Hwf Hr)
    as (w1 & w3 & w4 & w' & Hw1 & Hwf1 & Hw3 & Hwf3 & Hw4 & Hwf4 & Hw' & Hwf' & Htick).
  destruct (eruptVolcano_spec sqrt rand w Hwf Hr) as (w1' & Hw1' & _ & Ha1 & _).
  rewrite Hw1 in Hw1'. injection Hw1' as <-.
  pose proof (same_eruptVolcano tileCover sqrt rand w w1 (λ _ _, eq_refl) Hwf Hr Hw1)
    as Hs1.
  cbv zeta in Hw3.
  set (ta := computeTileAtmosphere (atmosphere (beginTick w1))) in *.
  destruct (tileStep_waterVapour rand ta (computeHeatTrappingFactor ta) rasterOrder
              (beginTick w1))
    as (w3' & Hw3' & _ & Hs3 & Hn & Hm & Hwv); [done| |].
  { intros x y Hin. by apply elem_of_rasterOrder. }
  rewrite <- applyTiles_raster in Hw3';
    [|intros x y w5 w6; apply tileStep_wf|done].
  rewrite Hw3 in Hw3'. injection Hw3' as <-.
  destruct (heat_pass_atmosphere w3 w4 Hwf3 Hw4) as (Ha4 & _).
  destruct (classify_pass w4 w' Hwf4 Hw') as (_ & Ha' & _).
  exists w1, w3, w'. split_and!; try assumption.
  - cbv zeta. unfold beginTick, decayAtmosphere. cbn [atmosphere]. by rewrite Ha1.
  - eapply same_trans; [exact Hs1|exact Hs3].
  - rewrite Ha', Ha4, Hwv. cbn [beginTick atmosphere decayAtmosphere waterVapour].
    rewrite countAt_rasterOrder by done.
    rewrite (countTiles_same tileCover isWater w (beginTick w1)); try done.
    + ring.
    + intros t1 t2 Ht. unfold isWater. by rewrite Ht.
  - rewrite Ha', Ha4, Hn. cbn [beginTick atmosphere decayAtmosphere nitrogen].
    by rewrite Ha1.
  - rewrite Ha', Ha4, Hm. cbn [beginTick atmosphere decayAtmosphere methane].
    by rewrite Ha1.
Qed.

Lemma countTiles_covered (c : TileCover) w :
  countTiles (λ t, cover_eqb (tileCover t) c) w = covered c w.
Proof.
  unfold countTiles, covered. induction (concat (tiles w)) as [|t l IH]; [done|].
  rewrite !filter_cons.
  destruct (decide (cover_eqb (tileCover t) c = true)) as [H|H];
    destruct (decide (tileCover t = c)) as [H'|H']; cbn [length];
    rewrite ?IH; try done.
  - by apply cover_eqb_eq in H.
  - by apply cover_eqb_eq in H'.
Qed.

(** C7. On a full grid a tick completes, and at its end the water vapour is
    [waterVaporPerOceanTile] times the number of tiles whose [tileCover] is
    [Water] — the covers at the start of the tick, which are those during
    the per-tile pass; the value before the tick plays no part.  The per-tile
    pass starts from the atmosphere in which nitrogen, oxygen, carbon dioxide
    and methane have each lost [quantity * atmosphereLossRate] and the water
    vapour is zero; nitrogen and methane keep that value to the end of the
    tick. *)
Theorem water_vapour_recomputed sqrt rand (w : World) :
  wf w → unitInterval rand →
  ∃ w1 w3 w',
    eruptVolcano sqrt rand w = Some w1
    ∧ (let a := atmosphere w in
       atmosphere (beginTick w1)
       = mkAtmosphere (nitrogen a - nitrogen a * atmosphereLossRate)
           (oxygen a - oxygen a * atmosphereLossRate)
           (carbonDioxide a - carbonDioxide a * atmosphereLossRate)
           (methane a - methane a * atmosphereLossRate) 0)
    ∧ (let ta := computeTileAtmosphere (atmosphere (beginTick w1)) in
       applyTiles (tileStep rand ta (computeHeatTrappingFactor ta)) (beginTick w1)
       = Some w3)
    ∧ tick sqrt rand w = Some w'
    ∧ (∀ (x y : nat),
         tileCover <$> getTile (beginTick w1) x y = tileCover <$> getTile w x y
         ∧ tileCover <$> getTile w3 x y = tileCover <$> getTile w x y)
    ∧ waterVapour (atmosphere w')
      = waterVaporPerOceanTile
        * ofNat (length (filter (λ t, tileCover t = Water) (concat (tiles w))))
    ∧ nitrogen (atmosphere w')
      = nitrogen (atmosphere w) - nitrogen (atmosphere w) * atmosphereLossRate
    ∧ methane (atmosphere w')
      = methane (atmosphere w) - methane (atmosphere w) * atmosphereLossRate.
Proof.
  intros Hwf Hr.
  destruct (tick_atmosphere sqrt rand w Hwf Hr)
    as (w1 & w3 & w' & H1 & H2 & H3 & H4 & H5 & H6 & H7 & H8 & H9).
  exists w1, w3, w'. split_and!; try assumption.
  - intros x y. split; [apply H5|apply H6].
  - rewrite H7. f_equal. f_equal. apply (countTiles_covered Water).
Qed.

Lemma wf_mistyPond : wf mistyPond.
Proof. apply wfb_wf. vm_compute. reflexivity. Qed.

Lemma mistyPond_water :
  length (filter (λ t, tileCover t = Water) (concat (tiles mistyPond))) = 1%nat.
Proof. vm_compute. reflexivity. Qed.

Lemma water_vapour_recomputed_witness :
  wf mistyPond ∧ unitInterval (λ _, 0)
  ∧ waterVapour (atmosphere mistyPond) = num 500 1
  ∧ ∃ w', tick sqrtFloor (λ _, 0) mistyPond = Some w'
          ∧ waterVapour (atmosphere w') = 1.
Proof.
  split; [exact wf_mistyPond|]. split; [exact unitInterval_zero|].
  split; [reflexivity|].
  destruct (water_vapour_recomputed sqrtFloor (λ _, 0) mistyPond
              wf_mistyPond unitInterval_zero)
    as (w1 & w3 & w' & _ & _ & _ & Htick & _ & Hwv & _).
  exists w'. split; [exact Htick|].
  rewrite Hwv, mistyPond_water. by apply Qc_is_canon.
Defined.

(** ** Signs of the gas quantities and of the biomass *)

Lemma grownPopulation_nonneg tile ta :
  0 ≤ prokaryote (biomass tile) → 0 ≤ baseLuminosity tile →
  0 ≤ carbonDioxide ta →
  0 ≤ grownPopulation tile ta.
Proof.
  intros Hp Hl Hc. unfold grownPopulation.
  destruct (gtb (heat tile) unlivableTemperature
            || negb (cover_eqb (tileCover tile) Water)
            || eqb (carbonDioxide ta) 0); qc.
Qed.

Lemma tileLocal_nonneg rand ta htf w w' (x y : nat) :
  0 ≤ carbonDioxide ta →
  wf w → (x < worldWidth)%nat → (y < worldHeight)%nat →
  0 ≤ oxygen (atmosphere w) → tilesNonneg w →
  tileLocal rand ta htf x y w = Some w' →
  0 ≤ oxygen (atmosphere w') ∧ tilesNonneg w'.
Proof.
  intros Hc Hwf Hx Hy Ho Ht Hrun.
  destruct (tileLocal_spec rand ta htf w x y Hwf Hx Hy)
    as (tile & w2 & Htile & Hrun2 & _ & Ha & _ & _ & Hat & Hother).
  rewrite Hrun in Hrun2. injection Hrun2 as <-.
  destruct (Ht x y tile Htile) as (Ht1 & Ht2 & Ht3).
  set (t2 := (abiogenesis rand (tileClimate htf tile (atmosphere w)).1 (drawn w)).1)
    in *.
  assert (Hp : 0 ≤ grownPopulation t2 ta).
  { apply grownPopulation_nonneg; [| |done]; unfold t2;
      destruct (abiogenesis_cases rand (tileClimate htf tile (atmosphere w)).1 (drawn w))
        as [->|[->|[-> _]]]; cbn [fst]; rewrite ?tileClimate_fst; cbn; try done. }
  split.
  - rewrite Ha, applyBiomass_eq. cbn [fst snd oxygen].
    rewrite tileClimate_snd.
    assert (Ho' : oxygen (if isWater tile
                          then mkAtmosphere (nitrogen (atmosphere w)) (oxygen (atmosphere w))
                                 (carbonDioxide (atmosphere w)) (methane (atmosphere w))
                                 (waterVapour (atmosphere w) + waterVaporPerOceanTile)
                          else if isRock tile
                          then mkAtmosphere (nitrogen (atmosphere w)) (oxygen (atmosphere w))
                                 (carbonDioxide (atmosphere w) + carbonPerLandTile)
                                 (methane (atmosphere w)) (waterVapour (atmosphere w))
                          else atmosphere w) = oxygen (atmosphere w))
      by (by destruct (isWater tile), (isRock tile)).
    rewrite Ho'. qc.
  - intros x' y' t' Ht'.
    destruct (decide (x' = x ∧ y' = y)) as [[-> ->]|Hne].
    + rewrite Hat in Ht'. apply (inj Some) in Ht'. subst t'. rewrite applyBiomass_eq.
      cbn [fst snd set_biomass biomass total prokaryote baseLuminosity].
      split_and!; [done|done|].
      fold t2. unfold t2.
      destruct (abiogenesis_cases rand (tileClimate htf tile (atmosphere w)).1 (drawn w))
        as [->|[->|[-> _]]]; cbn [fst]; rewrite ?tileClimate_fst; cbn; done.
    + rewrite Hother in Ht' by done. by apply (Ht x' y').
Qed.

Lemma average_nonneg (a b : Qc) : 0 ≤ a → 0 ≤ b → 0 ≤ (a + b) / 2.
Proof. intros. qc. Qed.

Lemma set_prokaryote_nonneg v t :
  0 ≤ v →
  0 ≤ total (biomass t) ∧ 0 ≤ prokaryote (biomass t) ∧ 0 ≤ baseLuminosity t →
  0 ≤ total (biomass (set_prokaryote v t))
  ∧ 0 ≤ prokaryote (biomass (set_prokaryote v t))
  ∧ 0 ≤ baseLuminosity (set_prokaryote v t).
Proof. intros Hv (H1 & H2 & H3). done. Qed.

Lemma transferProkaryotes_nonneg w w' (x y : nat) :
  wf w → (x < worldWidth)%nat → (y < worldHeight)%nat →
  tilesNonneg w →
  transferProkaryotes x y w = Some w' →
  atmosphere w' = atmosphere w ∧ tilesNonneg w'.
Proof.
  intros Hwf Hx Hy Ht Hrun.
  destruct (transferProkaryotes_spec w x y Hwf Hx Hy)
    as (tile & tileE & w2 & Htile & HtileE & Hrun2 & Hwf2 & Ha & _ & _
        & HE & Hlast & HS & Hother).
  rewrite Hrun in Hrun2. injection Hrun2 as <-. split; [done|].
  pose proof (Ht _ _ _ Htile) as Hn. pose proof (Ht _ _ _ HtileE) as HnE.
  assert (HavgE : 0 ≤ (prokaryote (biomass tile) + prokaryote (biomass tileE)) / 2).
  { apply average_nonneg; [apply Hn|apply HnE]. }
  intros x' y' t' Ht'.
  destruct (decide (x' = x ∧ y' = y)) as [[-> ->]|H1].
  { destruct (decide (y + 1 = worldHeight)%nat) as [Hl|Hl].
    - rewrite Hlast in Ht' by done. apply (inj Some) in Ht'. subst t'.
      case_match; [by apply set_prokaryote_nonneg|done].
    - destruct HS as (tileS & HtS & HS1 & HS2); [lia|].
      pose proof (Ht _ _ _ HtS) as HnS.
      rewrite HS2 in Ht'. apply (inj Some) in Ht'. subst t'.
      case_match.
      + apply set_prokaryote_nonneg; [|done].
        apply average_nonneg; [|apply HnS]. case_match; [done|apply Hn].
      + case_match; [by apply set_prokaryote_nonneg|done]. }
  destruct (decide (x' = (x + 1) mod worldWidth ∧ y' = y)) as [[-> ->]|H2].
  { rewrite HE in Ht'. apply (inj Some) in Ht'. subst t'.
    case_match; [by apply set_prokaryote_nonneg|done]. }
  destruct (decide (x' = x ∧ y' = (y + 1)%nat)) as [[-> ->]|H3].
  { destruct (decide (y + 1 < worldHeight)%nat) as [Hl|Hl].
    - destruct HS as (tileS & HtS & HS1 & HS2); [lia|].
      pose proof (Ht _ _ _ HtS) as HnS.
      rewrite HS1 in Ht'. apply (inj Some) in Ht'. subst t'.
      case_match; [|done].
      apply set_prokaryote_nonneg; [|done].
      apply average_nonneg; [|apply HnS]. case_match; [done|apply Hn].
    - rewrite getTile_None_out in Ht'; [done|done|lia]. }
  rewrite Hother in Ht' by done. by apply (Ht x' y').
Qed.

(** What the heat diffusion pass and the classification pass keep of a
    tile. *)
Lemma tilesNonneg_same w w' :
  same biomass w w' → same baseLuminosity w w' → tilesNonneg w → tilesNonneg w'.
Proof.
  intros Hb Hl Ht x y t' Ht'. specialize (Hb x y). specialize (Hl x y).
  rewrite Ht' in Hb, Hl. destruct (getTile w x y) as [t|] eqn:Hg; [|done].
  apply (inj Some) in Hb, Hl. rewrite Hb, Hl. by apply (Ht x y).
Qed.

Lemma decay_nonneg (a : Qc) : 0 ≤ a → 0 ≤ a - a * atmosphereLossRate.
Proof. intros. qc. Qed.

Lemma decay_le (a : Qc) : 0 ≤ a → a - a * atmosphereLossRate ≤ a.
Proof. intros. qc. Qed.

Lemma share_nonneg (a : Qc) : 0 ≤ a → 0 ≤ a * atmospherePerTile.
Proof. intros. qc. Qed.

Lemma vapour_nonneg (n : nat) : 0 ≤ waterVaporPerOceanTile * ofNat n.
Proof. pose proof (ofNat_nonneg n). qc. Qed.

(** C5 (amended). From a full grid with nonnegative gas quantities,
    nonnegative tile biomass and nonnegative luminosities, a tick completes
    and leaves nitrogen, oxygen, methane and water vapour nonnegative and
    every tile's population and total nonnegative.  Nothing is said about
    carbon dioxide, which the gas exchange can take below zero. *)
Theorem tick_keeps_nonnegative sqrt rand (w : World) :
  wf w → unitInterval rand →
  0 ≤ nitrogen (atmosphere w) → 0 ≤ oxygen (atmosphere w) →
  0 ≤ carbonDioxide (atmosphere w) → 0 ≤ methane (atmosphere w) →
  0 ≤ waterVapour (atmosphere w) →
  tilesNonneg w →
  ∃ w', tick sqrt rand w = Some w'
    ∧ 0 ≤ nitrogen (atmosphere w') ∧ 0 ≤ oxygen (atmosphere w')
    ∧ 0 ≤ methane (atmosphere w') ∧ 0 ≤ waterVapour (atmosphere w')
    ∧ ∀ (x y : nat) tile, getTile w' x y = Some tile →
        0 ≤ total (biomass tile) ∧ 0 ≤ prokaryote (biomass tile).
Proof.
  intros Hwf Hr Hn Ho Hc Hm Hv Ht.
  destruct (tick_atmosphere sqrt rand w Hwf Hr)
    as (w1 & w3 & w' & Hw1 & Ha2 & Hw3 & Htick & _ & _ & Hwv' & Hn' & Hm').
  destruct (tick_phases sqrt rand w Hwf Hr)
    as (w1' & w3' & w4 & w'' & Hw1' & Hwf1 & Hw3' & Hwf3 & Hw4 & Hwf4 & Hw' & Hwf'
        & Htick').
  rewrite Hw1 in Hw1'. injection Hw1' as <-.
  cbv zeta in Hw3, Hw3', Ha2. rewrite Hw3 in Hw3'. injection Hw3' as <-.
  rewrite Htick in Htick'. injection Htick' as <-.
  set (ta := computeTileAtmosphere (atmosphere (beginTick w1))) in *.
  assert (Hta : 0 ≤ carbonDioxide ta).
  { unfold ta. rewrite Ha2. cbn [computeTileAtmosphere carbonDioxide].
    by apply share_nonneg, decay_nonneg. }
  assert (Ht1 : tilesNonneg (beginTick w1)).
  { apply (tilesNonneg_same w); [| |done].
    - apply (same_eruptVolcano biomass sqrt rand w w1); done.
    - apply (same_eruptVolcano baseLuminosity sqrt rand w w1); done. }
  destruct (tileStep_pass (λ w, 0 ≤ oxygen (atmosphere w) ∧ tilesNonneg w)
              rand ta (computeHeatTrappingFactor ta) (beginTick w1))
    as (w3' & Hw3' & _ & Ho3 & Ht3).
  { intros x y w5 w6 Hx Hy Hwf5 [Ho5 Ht5] Hrun.
    exact (tileLocal_nonneg rand ta _ w5 w6 x y Hta Hwf5 Hx Hy Ho5 Ht5 Hrun). }
  { intros x y w5 w6 Hx Hy Hwf5 [Ho5 Ht5] Hrun.
    destruct (transferProkaryotes_nonneg w5 w6 x y Hwf5 Hx Hy Ht5 Hrun) as [-> ?].
    done. }
  { done. }
  { split; [|done]. rewrite Ha2. cbn [oxygen]. by apply decay_nonneg. }
  rewrite Hw3 in Hw3'. injection Hw3' as <-.
  destruct (heat_pass_atmosphere w3 w4 Hwf3 Hw4) as (Ha4 & _).
  destruct (classify_pass w4 w' Hwf4 Hw') as (_ & Ha' & _ & _ & Hget).
  assert (Ht4 : tilesNonneg w4).
  { apply (tilesNonneg_same w3); [| |done].
    - apply (same_heat_pass biomass w3 w4); done.
    - apply (same_heat_pass baseLuminosity w3 w4); done. }
  exists w'. split_and!.
  - done.
  - rewrite Hn'. by apply decay_nonneg.
  - by rewrite Ha', Ha4.
  - rewrite Hm'. by apply decay_nonneg.
  - rewrite Hwv'. apply vapour_nonneg.
  - intros x y tile Hg. rewrite Hget in Hg.
    destruct (getTile w4 x y) as [t4|] eqn:Hg4; [|done].
    apply (inj Some) in Hg. subst tile.
    destruct (Ht4 x y t4 Hg4) as (? & ? & _). done.
Qed.

(** ** Sample inputs *)

Lemma leb_le a b : leb a b = true ↔ a ≤ b.
Proof. unfold leb. rewrite negb_true_iff. apply ltb_ge. Qed.

(** A property of all tiles, checked by running through the grid. *)
Lemma tiles_check (P : Tile → bool) w :
  forallb P (concat (tiles w)) = true →
  ∀ (x y : nat) t, getTile w x y = Some t → P t = true.
Proof.
  intros Hall x y t Ht. rewrite forallb_forall in Hall. apply Hall.
  unfold getTile in Ht. apply bind_Some in Ht as (col & Hcol & Ht).
  apply list_elem_of_lookup_2, list_elem_of_In in Hcol, Ht.
  apply in_concat. eauto.
Qed.

Lemma tilesNonneg_check w :
  forallb (λ t, leb 0 (total (biomass t)) && leb 0 (prokaryote (biomass t))
                && leb 0 (baseLuminosity t)) (concat (tiles w)) = true →
  tilesNonneg w.
Proof.
  intros Hall x y t Ht. apply (tiles_check _ w Hall) in Ht.
  apply andb_true_iff in Ht as [Ht H3]. apply andb_true_iff in Ht as [H1 H2].
  by rewrite !leb_le in *.
Qed.

Lemma unitInterval_half : unitInterval (λ _, num 1 2).
Proof. intros k. split; reflexivity || discriminate. Defined.

Lemma wf_thinAirOcean : wf thinAirOcean.
Proof. apply wfb_wf. vm_compute. reflexivity. Qed.

Lemma tick_localPass sqrt rand w :
  tick sqrt rand w
  = localPass sqrt rand w
    ≫= (λ w, applyTiles transferHeat w ≫= applyTiles classifyTile).
Proof.
  unfold tick, localPass, perTilePass.
  destruct (eruptVolcano sqrt rand w) as [w1|]; [|done]. osimpl.
  by destruct (applyTiles _ (beginTick w1)).
Qed.

(** The two passes after the per-tile pass keep the atmosphere and the
    biomass of every tile. *)
Lemma tick_after_localPass sqrt rand w :
  wf w → unitInterval rand →
  ∃ w3 w',
    localPass sqrt rand w = Some w3
    ∧ tick sqrt rand w = Some w'
    ∧ atmosphere w' = atmosphere w3
    ∧ same biomass w3 w'.
Proof.
  intros Hwf Hr.
  destruct (tick_phases sqrt rand w Hwf Hr)
    as (w1 & w3 & w4 & w' & Hw1 & Hwf1 & Hw3 & Hwf3 & Hw4 & Hwf4 & Hw' & Hwf' & Htick).
  exists w3, w'. split_and!.
  - unfold localPass. rewrite Hw1. osimpl. exact Hw3.
  - exact Htick.
  - destruct (heat_pass_atmosphere w3 w4 Hwf3 Hw4) as (Ha4 & _).
    destruct (classify_pass w4 w' Hwf4 Hw') as (_ & Ha' & _).
    by rewrite Ha', Ha4.
  - eapply same_trans.
    + apply (same_heat_pass biomass w3 w4); done.
    + destruct (classify_pass w4 w' Hwf4 Hw') as (_ & _ & _ & _ & Hget).
      intros x y. rewrite Hget. by destruct (getTile w4 x y).
Qed.

Lemma thinAirOcean_co2 :
  observeGas carbonDioxide (localPass sqrtFloor (λ _, num 1 2) thinAirOcean)
  = Some (-200000099 # 2000000000000)%Q.
Proof. vm_cast_no_check (eq_refl (Some (-200000099 # 2000000000000)%Q)). Qed.

(** C5, counterexample.  [thinAirOcean] has nonnegative gas quantities and
    biomass, yet after one tick its carbon dioxide pool is negative: the pool
    holds 0.0099 after the decay, and the tile [(0, 0)] subtracts 0.01 times
    its population 1.00000000495. *)
Lemma co2_goes_negative :
  wf thinAirOcean ∧ unitInterval (λ _, num 1 2)
  ∧ 0 ≤ nitrogen (atmosphere thinAirOcean)
  ∧ 0 ≤ oxygen (atmosphere thinAirOcean)
  ∧ 0 ≤ carbonDioxide (atmosphere thinAirOcean)
  ∧ 0 ≤ methane (atmosphere thinAirOcean)
  ∧ 0 ≤ waterVapour (atmosphere thinAirOcean)
  ∧ tilesNonneg thinAirOcean
  ∧ ∃ w', tick sqrtFloor (λ _, num 1 2) thinAirOcean = Some w'
          ∧ carbonDioxide (atmosphere w') < 0.
Proof.
  split; [apply wf_thinAirOcean|]. split; [exact unitInterval_half|].
  do 5 (split; [done|]). split.
  - apply tilesNonneg_check. vm_compute. reflexivity.
  - destruct (tick_after_localPass sqrtFloor (λ _, num 1 2) thinAirOcean
                wf_thinAirOcean unitInterval_half) as (w3 & w' & Hw3 & Htick & Ha & _).
    exists w'. split; [exact Htick|].
    pose proof thinAirOcean_co2 as Hc. rewrite Hw3 in Hc.
    apply (inj Some) in Hc. rewrite Ha. unfold Qclt. rewrite Hc. reflexivity.
Qed.

Lemma tick_keeps_nonnegative_witness :
  wf thinAirOcean ∧ unitInterval (λ _, num 1 2)
  ∧ ∃ w', tick sqrtFloor (λ _, num 1 2) thinAirOcean = Some w'
    ∧ 0 ≤ nitrogen (atmosphere w') ∧ 0 ≤ oxygen (atmosphere w')
    ∧ 0 ≤ methane (atmosphere w') ∧ 0 ≤ waterVapour (atmosphere w')
    ∧ ∀ (x y : nat) tile, getTile w' x y = Some tile →
        0 ≤ total (biomass tile) ∧ 0 ≤ prokaryote (biomass tile).
Proof.
  split; [apply wf_thinAirOcean|]. split; [exact unitInterval_half|].
  apply (tick_keeps_nonnegative sqrtFloor (λ _, num 1 2) thinAirOcean).
  - apply wf_thinAirOcean.
  - exact unitInterval_half.
  - apply Qcle_refl.
  - apply Qcle_refl.
  - discriminate.
  - apply Qcle_refl.
  - apply Qcle_refl.
  - apply tilesNonneg_check. vm_compute. reflexivity.
Defined.

(** ** Population and total *)

Lemma wf_colonyOcean : wf colonyOcean.
Proof. apply wfb_wf. vm_compute. reflexivity. Qed.

Lemma colonyOcean_biomass :
  observeBiomass 0 0 (localPass sqrtFloor (λ _, num 1 2) colonyOcean)
  = Some (0, 5 # 4)%Q.
Proof. vm_cast_no_check (eq_refl (Some (0, 5 # 4)%Q)). Qed.

(** C6, the code at a failing input.  In [colonyOcean] every tile has
    [total = prokaryote]; after one tick the tile [(0, 0)] has population 5/4
    and total 0.  The tile is visited first, while its own biomass is 0, and
    [transferProkaryotes] then averages its population with its east
    neighbour's 10 and its south neighbour's 0; at the end of the first row
    the tile [(99, 0)] averages with it once more.  None of these
    exchanges writes [total]. *)
Theorem total_lags_population :
  wf colonyOcean
  ∧ (∀ (x y : nat) t, getTile colonyOcean x y = Some t →
       total (biomass t) = prokaryote (biomass t))
  ∧ ∃ w' t, tick sqrtFloor (λ _, num 1 2) colonyOcean = Some w'
      ∧ getTile w' 0 0 = Some t
      ∧ prokaryote (biomass t) = num 5 4
      ∧ total (biomass t) = 0.
Proof.
  split; [exact wf_colonyOcean|]. split.
  - intros x y t Ht.
    apply (tiles_check (λ t, eqb (total (biomass t)) (prokaryote (biomass t)))) in Ht.
    + by apply eqb_eq.
    + vm_compute. reflexivity.
  - destruct (tick_after_localPass sqrtFloor (λ _, num 1 2) colonyOcean
                wf_colonyOcean unitInterval_half) as (w3 & w' & Hw3 & Htick & _ & Hb).
    pose proof colonyOcean_biomass as Hc. rewrite Hw3 in Hc.
    unfold observeBiomass in Hc. osimpl in Hc.
    specialize (Hb 0%nat 0%nat).
    destruct (getTile w3 0 0) as [t3|]; [|done].
    destruct (getTile w' 0 0) as [t|] eqn:Hg; [|done].
    apply (inj Some) in Hb, Hc. exists w', t. rewrite Hb.
    injection Hc as Ht Hp.
    split; [exact Htick|]. split; [exact Hg|].
    split; apply Qc_is_canon; [rewrite Hp|rewrite Ht]; reflexivity.
Qed.

(** ** Order of the local step and the diffusion *)

Lemma wf_starvedOcean : wf starvedOcean.
Proof. apply wfb_wf. vm_compute. reflexivity. Qed.

(** C2, counterexample.  In [starvedOcean] the carbon dioxide share of a
    tile is zero, so no tile passes the habitability check of
    [applyBiomass].  The per-tile pass of the tick still moves population
    onto the tile [(0, 0)]: its diffusion runs right after its own local
    step, before the colony next to it has had its local step, and it does
    not consult the carbon dioxide share.  Running the local step of all
    tiles before the diffusion of all tiles leaves no population there. *)
Lemma diffusion_inside_local_pass :
  wf starvedOcean
  ∧ carbonDioxide (computeTileAtmosphere (atmosphere (beginTick starvedOcean))) = 0
  ∧ observeBiomass 0 0
      (w ← eruptVolcano sqrtFloor (λ _, num 1 2) starvedOcean;
       perTilePass (λ _, num 1 2) (beginTick w))
    = Some (0, 5 # 4)%Q
  ∧ observeBiomass 0 0
      (w ← eruptVolcano sqrtFloor (λ _, num 1 2) starvedOcean;
       localThenDiffusion (λ _, num 1 2) (beginTick w))
    = Some (0, 0)%Q.
Proof.
  split; [exact wf_starvedOcean|]. split; [by apply Qc_is_canon|]. split.
  - vm_cast_no_check (eq_refl (Some (0, 5 # 4)%Q)).
  - vm_cast_no_check (eq_refl (Some (0, 0)%Q)).
Qed.

Lemma canProkaryotesSurvive_true tile :
  canProkaryotesSurvive tile = true
  ↔ heat tile < unlivableTemperature ∧ tileCover tile = Water.
Proof.
  unfold canProkaryotesSurvive. by rewrite andb_true_iff, ltb_lt, cover_eqb_eq.
Qed.

(** C2 (amended). The population diffusion of a tile is the last statement
    of the per-tile callback: it runs right after the local step of that
    tile, inside the same pass.  A tile exchanges population with its east
    neighbour [((x+1) mod W, y)], and then with its south neighbour
    [(x, y+1)], exactly when both tiles pass [canProkaryotesSurvive] — heat
    strictly below [unlivableTemperature] and [tileCover == Water], the
    carbon dioxide share plays no part — and at least one of the two
    populations exceeds 2, the south exchange reading the population the
    east exchange left; an exchange sets the population of both tiles to
    their average at once; no other tile changes. *)
Theorem population_diffusion_step rand ta htf (w : World) (x y : nat) :
  wf w → (x < worldWidth)%nat → (y < worldHeight)%nat →
  tileStep rand ta htf x y w
  = tileLocal rand ta htf x y w ≫= transferProkaryotes x y
  ∧ (∀ tile, canProkaryotesSurvive tile = true
             ↔ heat tile < unlivableTemperature ∧ tileCover tile = Water)
  ∧ (∀ v tile, prokaryote (biomass (set_prokaryote v tile)) = v)
  ∧ ∃ tile tileE w',
      getTile w x y = Some tile
      ∧ getTile w ((x + 1) mod worldWidth) y = Some tileE
      ∧ transferProkaryotes x y w = Some w'
      ∧ wf w'
      ∧ atmosphere w' = atmosphere w
      ∧ worldBiomass w' = worldBiomass w
      ∧ drawn w' = drawn w
      ∧ let pop := λ t, prokaryote (biomass t) in
        let exE := canProkaryotesSurvive tile && canProkaryotesSurvive tileE
                   && (gtb (pop tile) 2 || gtb (pop tileE) 2) in
        let avgE := (pop tile + pop tileE) / 2 in
        let pop1 := if exE then avgE else pop tile in
        getTile w' ((x + 1) mod worldWidth) y
          = Some (if exE then set_prokaryote avgE tileE else tileE)
        ∧ ((y + 1 = worldHeight)%nat →
           getTile w' x y = Some (if exE then set_prokaryote avgE tile else tile))
        ∧ ((y + 1 < worldHeight)%nat →
           ∃ tileS, getTile w x (y + 1) = Some tileS
             ∧ let exS := canProkaryotesSurvive tile && canProkaryotesSurvive tileS
                          && (gtb pop1 2 || gtb (pop tileS) 2) in
               let avgS := (pop1 + pop tileS) / 2 in
               getTile w' x (y + 1)
                 = Some (if exS then set_prokaryote avgS tileS else tileS)
               ∧ getTile w' x y
                 = Some (if exS then set_prokaryote avgS tile
                         else if exE then set_prokaryote avgE tile else tile))
        ∧ (∀ x' y' : nat,
             ¬ (x' = x ∧ y' = y) → ¬ (x' = (x + 1) mod worldWidth ∧ y' = y)
             → ¬ (x' = x ∧ y' = (y + 1)%nat)
             → getTile w' x' y' = getTile w x' y').
Proof.
  intros Hwf Hx Hy. split; [done|]. split; [apply canProkaryotesSurvive_true|].
  split; [done|]. by apply transferProkaryotes_spec.
Qed.

Lemma population_diffusion_step_witness :
  wf starvedOcean ∧ (0 < worldWidth)%nat ∧ (0 < worldHeight)%nat
  ∧ ∃ w', transferProkaryotes 0 0 starvedOcean = Some w' ∧ wf w'.
Proof.
  split; [exact wf_starvedOcean|]. split; [unfold worldWidth; lia|].
  split; [unfold worldHeight; lia|].
  destruct (population_diffusion_step (λ _, 0) newAtmosphere 0 starvedOcean 0 0
              wf_starvedOcean ltac:(unfold worldWidth; lia)
              ltac:(unfold worldHeight; lia))
    as (_ & _ & _ & tile & tileE & w' & _ & _ & Hrun & Hwf' & _).
  exists w'. exact (conj Hrun Hwf').
Defined.

(** ** Abiogenesis *)

Lemma wf_pondWorld : wf pondWorld.
Proof. apply wfb_wf. vm_compute. reflexivity. Qed.

Lemma pondWorld_biomass :
  observeBiomass 50 50 (localPass sqrtFloor (λ _, 0) pondWorld)
  = Some (201 # 200, 201 # 200)%Q.
Proof. vm_cast_no_check (eq_refl (Some (201 # 200, 201 # 200)%Q)). Qed.

(** C3, counterexample.  In [pondWorld] the pond is the only water tile; it
    has no biomass and its heat 170 lies strictly between
    [prokaryoteAbiogenesisMinHeat] and [unlivableTemperature], as does the
    heat 171.76 it has after the heat update of the tick.  With random
    numbers that make every trial succeed, its population after one tick is
    1.005 and not 1: [applyBiomass] grows the population in the same visit
    that created it. *)
Lemma eligible_tile_grows_past_one :
  wf pondWorld ∧ unitInterval (λ _, 0)
  ∧ (∀ k : nat, (λ _ : nat, 0) k < prokaryoteAbiogenesisChance)
  ∧ getTile pondWorld 50 50 = Some pondTile
  ∧ tileCover pondTile = Water
  ∧ prokaryote (biomass pondTile) = 0 ∧ total (biomass pondTile) = 0
  ∧ prokaryoteAbiogenesisMinHeat < heat pondTile
  ∧ heat pondTile < unlivableTemperature
  ∧ countTiles isWater pondWorld = 1%nat
  ∧ ∃ w' t, tick sqrtFloor (λ _, 0) pondWorld = Some w'
      ∧ getTile w' 50 50 = Some t
      ∧ prokaryote (biomass t) = num 201 200
      ∧ prokaryote (biomass t) ≠ 1.
Proof.
  split; [exact wf_pondWorld|]. split; [exact unitInterval_zero|].
  split; [by intros k|]. split; [by vm_compute|]. do 5 (split; [done|]).
  split; [by vm_compute|].
  destruct (tick_after_localPass sqrtFloor (λ _, 0) pondWorld
              wf_pondWorld unitInterval_zero) as (w3 & w' & Hw3 & Htick & _ & Hb).
  pose proof pondWorld_biomass as Hc. rewrite Hw3 in Hc.
  unfold observeBiomass in Hc. osimpl in Hc.
  specialize (Hb 50%nat 50%nat).
  destruct (getTile w3 50 50) as [t3|]; [|done].
  destruct (getTile w' 50 50) as [t|] eqn:Hg; [|done].
  apply (inj Some) in Hb, Hc. exists w', t. rewrite Hb.
  injection Hc as Ht Hp.
  assert (Hpop : prokaryote (biomass t3) = num 201 200)
    by (apply Qc_is_canon; rewrite Hp; reflexivity).
  split; [exact Htick|]. split; [exact Hg|]. split; [exact Hpop|].
  rewrite Hpop. discriminate.
Qed.

Lemma grownPopulation_cases t ta :
  let rate := Math_min (carbonDioxide ta * prokaryoteReproductionRate)
                prokaryoteReproductionRate in
  let cap := baseLuminosity t * fullLuminosityHeat * photosynthticBiomassPerEnergy in
  (heat t ≤ unlivableTemperature ∧ tileCover t = Water ∧ carbonDioxide ta ≠ 0
   ∧ grownPopulation t ta
     = Math_min (prokaryote (biomass t) + prokaryote (biomass t) * rate) cap)
  ∨ ((unlivableTemperature < heat t ∨ tileCover t ≠ Water ∨ carbonDioxide ta = 0)
     ∧ grownPopulation t ta = Math_min (0 + 0 * rate) cap).
Proof.
  cbv zeta. unfold grownPopulation.
  destruct (gtb (heat t) unlivableTemperature) eqn:Hh; cbn [orb].
  { right. split; [|done]. left. by apply ltb_lt in Hh. }
  apply ltb_ge in Hh.
  destruct (cover_eqb (tileCover t) Water) eqn:Hc; cbn [orb negb].
  2:{ right. split; [|done]. right. left. intros Hw. apply cover_eqb_eq in Hw.
      by rewrite Hw in Hc. }
  apply cover_eqb_eq in Hc.
  destruct (eqb (carbonDioxide ta) 0) eqn:He.
  { right. split; [|done]. right. right. by apply eqb_eq. }
  left. split_and!; try done. intros H0. apply eqb_eq in H0. by rewrite H0 in He.
Qed.

Lemma no_exchange (t n : Tile) :
  tileCover t ≠ Water ∨ unlivableTemperature ≤ heat t
  ∨ (prokaryote (biomass t) ≤ 2
     ∧ (prokaryote (biomass n) ≤ 2 ∨ tileCover n ≠ Water
        ∨ unlivableTemperature ≤ heat n)) →
  canProkaryotesSurvive t && canProkaryotesSurvive n
  && (gtb (prokaryote (biomass t)) 2 || gtb (prokaryote (biomass n)) 2) = false.
Proof.
  intros H. apply not_true_is_false. intros Hex.
  apply andb_true_iff in Hex as [Hex Hgt]. apply andb_true_iff in Hex as [Ht Hn].
  apply canProkaryotesSurvive_true in Ht as [Hth Htc].
  apply canProkaryotesSurvive_true in Hn as [Hnh Hnc].
  destruct H as [H|[H|[Hp H]]]; [done|by apply Qcle_not_lt in H|].
  apply orb_true_iff in Hgt as [Hgt|Hgt]; apply ltb_lt in Hgt.
  - by apply Qcle_not_lt in Hp.
  - destruct H as [H|[H|H]]; [by apply Qcle_not_lt in H|done|by apply Qcle_not_lt in H].
Qed.

(** C3 (amended). The abiogenesis trial of a tile is made in the per-tile
    callback after the heat update, when [total == 0] and the updated heat
    lies strictly between [prokaryoteAbiogenesisMinHeat] and
    [unlivableTemperature]; [tileCover] is not consulted, and a number is
    drawn for every trial.  The trial succeeds when the number is below
    [prokaryoteAbiogenesisChance] and then the biomass that enters
    [applyBiomass] is 1; otherwise it is the biomass the tile had.
    [applyBiomass] runs right after the trial in the same visit and leaves
    population and total equal: on a tile that is [Water], not hotter than
    [unlivableTemperature] and with a nonzero carbon dioxide share they are
    [min (p + p * min (share * rate, rate), capacity)], where [p] is 1 after a
    successful trial — which is [1 + 1 * rate], more than 1, when the share
    is at least 1 and the capacity allows it — and on any other tile they
    are [min (0, capacity)], which is 0 unless the luminosity is negative.
    The visit ends with [transferProkaryotes]: it leaves the total as it
    is, and it averages the population with that of the east neighbour and
    then with that of the south neighbour, each time when both tiles pass
    [canProkaryotesSurvive] and one of the two populations exceeds 2; so the
    population stays as [applyBiomass] left it when the tile is not [Water],
    or when neither the tile nor a habitable east or south neighbour holds
    more than 2. *)
Theorem abiogenesis_then_growth rand ta htf (w : World) (x y : nat) :
  wf w → (x < worldWidth)%nat → (y < worldHeight)%nat →
  ∃ tile tileE w1 w' t1 t',
    getTile w x y = Some tile
    ∧ getTile w ((x + 1) mod worldWidth) y = Some tileE
    ∧ tileLocal rand ta htf x y w = Some w1
    ∧ transferProkaryotes x y w1 = Some w'
    ∧ tileStep rand ta htf x y w = Some w'
    ∧ getTile w1 x y = Some t1
    ∧ getTile w' x y = Some t'
    ∧ (∀ x' y' : nat, ¬ (x' = x ∧ y' = y) → getTile w1 x' y' = getTile w x' y')
    ∧ let h1 := computeHeat tile (computeLuminosity tile) htf in
      let trial :=
        total (biomass tile) = 0
        ∧ prokaryoteAbiogenesisMinHeat < h1 ∧ h1 < unlivableTemperature in
      let fires := trial ∧ rand (drawn w) < prokaryoteAbiogenesisChance in
      let rate :=
        Math_min (carbonDioxide ta * prokaryoteReproductionRate)
                 prokaryoteReproductionRate in
      let capacity :=
        baseLuminosity tile * fullLuminosityHeat * photosynthticBiomassPerEnergy in
      let alive :=
        h1 ≤ unlivableTemperature ∧ tileCover tile = Water
        ∧ carbonDioxide ta ≠ 0 in
      let pop := λ t : Tile, prokaryote (biomass t) in
      heat t1 = h1 ∧ tileCover t1 = tileCover tile
      ∧ total (biomass t1) = pop t1
      ∧ (trial → drawn w1 = S (drawn w))
      ∧ (¬ trial → drawn w1 = drawn w)
      ∧ (fires → alive → pop t1 = Math_min (1 + 1 * rate) capacity)
      ∧ (fires → tileCover tile = Water → 1 ≤ carbonDioxide ta →
         1 + 1 * prokaryoteReproductionRate ≤ capacity →
         pop t1 = 1 + 1 * prokaryoteReproductionRate ∧ 1 < pop t1)
      ∧ (¬ fires → alive →
         pop t1 = Math_min (pop tile + pop tile * rate) capacity)
      ∧ (¬ alive →
         pop t1 = Math_min (0 + 0 * rate) capacity
         ∧ (0 ≤ baseLuminosity tile → pop t1 = 0))
      ∧ total (biomass t') = total (biomass t1)
      ∧ (∀ t, canProkaryotesSurvive t = true
              ↔ heat t < unlivableTemperature ∧ tileCover t = Water)
      ∧ (∀ a b : Qc, gtb a b = true ↔ b < a)
      ∧ (let exE := canProkaryotesSurvive t1 && canProkaryotesSurvive tileE
                    && (gtb (pop t1) 2 || gtb (pop tileE) 2) in
         let pop1 := if exE then (pop t1 + pop tileE) / 2 else pop t1 in
         ((y + 1 = worldHeight)%nat → pop t' = pop1)
         ∧ ((y + 1 < worldHeight)%nat →
            ∃ tileS, getTile w x (y + 1) = Some tileS
              ∧ let exS := canProkaryotesSurvive t1 && canProkaryotesSurvive tileS
                           && (gtb pop1 2 || gtb (pop tileS) 2) in
                pop t' = if exS then (pop1 + pop tileS) / 2 else pop1))
      ∧ (tileCover tile ≠ Water ∨ unlivableTemperature ≤ h1 → pop t' = pop t1)
      ∧ (pop t1 ≤ 2 →
         (pop tileE ≤ 2 ∨ tileCover tileE ≠ Water
          ∨ unlivableTemperature ≤ heat tileE) →
         (∀ tileS, getTile w x (y + 1) = Some tileS →
            pop tileS ≤ 2 ∨ tileCover tileS ≠ Water
            ∨ unlivableTemperature ≤ heat tileS) →
         pop t' = pop t1).
Proof.
  intros Hwf Hx Hy.
  destruct (tileLocal_spec rand ta htf w x y Hwf Hx Hy)
    as (tile & w1 & Htile & Hrun & Hwf1 & _ & _ & Hd & Hat & Hother).
  destruct (transferProkaryotes_spec w1 x y Hwf1 Hx Hy)
    as (t1 & tileE & w' & Ht1 & HtE & Hrun' & _ & _ & _ & _ & HE & Hlast & HS & _).
  pose proof (east_ne x Hx) as Hne.
  assert (HtE0 : getTile w ((x + 1) mod worldWidth) y = Some tileE).
  { rewrite <- Hother; [done|]. intros [? _]. done. }
  set (h1 := computeHeat tile (computeLuminosity tile) htf) in *.
  set (c1 := (tileClimate htf tile (atmosphere w)).1) in *.
  assert (Hc1 : c1 = mkTile (Math_max (altitude tile - erosionRate) 0)
                       (baseLuminosity tile) h1 (tileCover tile) (biomass tile))
    by apply tileClimate_fst.
  cbv zeta in Hd, Hat. rewrite applyBiomass_eq in Hat. cbn [fst snd] in Hat.
  set (ab := abiogenesis rand c1 (drawn w)) in *.
  rewrite Ht1 in Hat. apply (inj Some) in Hat.
  (* the tile the visit ends with *)
  assert (Hend : ∃ t', getTile w' x y = Some t'
                   ∧ total (biomass t') = total (biomass t1)
                   ∧ (let exE := canProkaryotesSurvive t1 && canProkaryotesSurvive tileE
                                 && (gtb (prokaryote (biomass t1)) 2
                                     || gtb (prokaryote (biomass tileE)) 2) in
                      let pop1 := if exE
                                  then (prokaryote (biomass t1)
                                        + prokaryote (biomass tileE)) / 2
                                  else prokaryote (biomass t1) in
                      ((y + 1 = worldHeight)%nat → prokaryote (biomass t') = pop1)
                      ∧ ((y + 1 < worldHeight)%nat →
                         ∃ tileS, getTile w x (y + 1) = Some tileS
                           ∧ let exS := canProkaryotesSurvive t1
                                        && canProkaryotesSurvive tileS
                                        && (gtb pop1 2
                                            || gtb (prokaryote (biomass tileS)) 2) in
                             prokaryote (biomass t')
                             = if exS then (pop1 + prokaryote (biomass tileS)) / 2
                               else pop1))
                   ∧ ((canProkaryotesSurvive t1 && canProkaryotesSurvive tileE
                       && (gtb (prokaryote (biomass t1)) 2
                           || gtb (prokaryote (biomass tileE)) 2) = false) →
                      (∀ tileS, getTile w x (y + 1) = Some tileS →
                         canProkaryotesSurvive t1 && canProkaryotesSurvive tileS
                         && (gtb (prokaryote (biomass t1)) 2
                             || gtb (prokaryote (biomass tileS)) 2) = false) →
                      prokaryote (biomass t') = prokaryote (biomass t1))).
  { cbv zeta in HE, Hlast, HS.
    destruct (decide (y + 1 = worldHeight)%nat) as [Hl|Hl].
    - specialize (Hlast Hl). eexists. split; [exact Hlast|].
      split; [by case_match|]. split.
      + split; [|lia]. intros _. by case_match.
      + intros HexE _. by rewrite HexE.
    - destruct HS as (tileS & HtS & _ & Hself); [lia|].
      rewrite Hother in HtS by (intros [_ ?]; lia).
      eexists. split; [exact Hself|]. split; [by repeat case_match|]. split.
      + split; [lia|]. intros _. exists tileS. split; [exact HtS|].
        by repeat case_match.
      + intros HexE HexS. rewrite HexE in *. by rewrite (HexS tileS HtS). }
  destruct Hend as (t' & Ht' & Htot' & Hgen & Hkeep). cbv zeta in Hgen.
  exists tile, tileE, w1, w', t1, t'.
  split; [exact Htile|]. split; [exact HtE0|]. split; [exact Hrun|].
  split; [exact Hrun'|]. split; [unfold tileStep; by rewrite Hrun|].
  split; [exact Ht1|]. split; [exact Ht'|]. split; [exact Hother|].
  cbv zeta.
  (* the abiogenesis statement *)
  assert (Hab : (total (biomass tile) = 0
                 ∧ prokaryoteAbiogenesisMinHeat < h1 ∧ h1 < unlivableTemperature →
                 ab.2 = S (drawn w))
                ∧ (¬ (total (biomass tile) = 0
                      ∧ prokaryoteAbiogenesisMinHeat < h1
                      ∧ h1 < unlivableTemperature) →
                   ab.2 = drawn w)
                ∧ ((total (biomass tile) = 0
                    ∧ prokaryoteAbiogenesisMinHeat < h1
                    ∧ h1 < unlivableTemperature)
                   ∧ rand (drawn w) < prokaryoteAbiogenesisChance →
                   ab.1 = set_biomass (mkBiomass 1 1) c1)
                ∧ (¬ ((total (biomass tile) = 0
                       ∧ prokaryoteAbiogenesisMinHeat < h1
                       ∧ h1 < unlivableTemperature)
                      ∧ rand (drawn w) < prokaryoteAbiogenesisChance) →
                   ab.1 = c1)).
  { unfold ab, abiogenesis. rewrite Hc1.
    cbn [total biomass heat]. unfold gtb.
    destruct (eqb (total (biomass tile)) 0) eqn:H1; cbn [andb].
    2:{ assert (total (biomass tile) ≠ 0).
        { intros H0. apply eqb_eq in H0. by rewrite H0 in H1. }
        split_and!; try done; by intros [[? _] _] || by intros [? _]. }
    apply eqb_eq in H1.
    destruct (ltb prokaryoteAbiogenesisMinHeat h1) eqn:H2; cbn [andb].
    2:{ apply ltb_ge in H2.
        split_and!; try done;
          [intros (_ & H & _)|intros ((_ & H & _) & _)];
          by apply Qcle_not_lt in H2. }
    apply ltb_lt in H2.
    destruct (ltb h1 unlivableTemperature) eqn:H3; cbn [andb].
    2:{ apply ltb_ge in H3.
        split_and!; try done;
          [intros (_ & _ & H)|intros ((_ & _ & H) & _)];
          by apply Qcle_not_lt in H3. }
    apply ltb_lt in H3.
    destruct (ltb (rand (drawn w)) prokaryoteAbiogenesisChance) eqn:H4.
    - apply ltb_lt in H4. split_and!; try done.
      + intros Hno. by destruct Hno.
      + intros Hno. by destruct Hno.
    - apply ltb_ge in H4. split_and!; try done.
      + intros Hno. by destruct Hno.
      + intros [_ H]. by apply Qcle_not_lt in H4. }
  destruct Hab as (Hd1 & Hd0 & Hfire & Hnofire).
  assert (Hground : heat ab.1 = h1 ∧ tileCover ab.1 = tileCover tile
                    ∧ baseLuminosity ab.1 = baseLuminosity tile).
  { destruct (abiogenesis_cases rand c1 (drawn w)) as [H|[H|[H _]]];
      fold ab in H; rewrite H, Hc1; done. }
  destruct Hground as (Hh & Hc & Hl).
  assert (Hpop : prokaryote (biomass t1) = grownPopulation ab.1 ta) by (by subst t1).
  assert (Htc1 : tileCover t1 = tileCover tile) by (by subst t1).
  assert (Hh1 : heat t1 = h1) by (by subst t1).
  split; [exact Hh1|]. split; [exact Htc1|]. split; [by subst t1|].
  split; [by rewrite Hd|]. split; [by rewrite Hd|].
  pose proof (grownPopulation_cases ab.1 ta) as Hcases. cbv zeta in Hcases.
  rewrite Hh, Hc, Hl in Hcases. rewrite <- Hpop in Hcases.
  split_and!.
  - intros Hf (Ha1 & Ha2 & Ha3).
    destruct Hcases as [(_ & _ & _ & ->)|[[H|[H|H]] _]];
      [|by apply Qcle_not_lt in Ha1|done|done].
    by rewrite (Hfire Hf).
  - intros Hf Hw Hshare Hcap.
    assert (Hrate : Math_min (carbonDioxide ta * prokaryoteReproductionRate)
                      prokaryoteReproductionRate = prokaryoteReproductionRate).
    { clear -Hshare. qc. }
    destruct Hcases as [(_ & _ & _ & Hg)|[[H|[H|H]] _]].
    + rewrite (Hfire Hf) in Hg. cbn [set_biomass biomass prokaryote] in Hg.
      rewrite Hrate in Hg. rewrite Hg. split; [clear -Hcap; qc|].
      clear -Hcap. qc.
    + destruct Hf as [(_ & _ & Hlt) _].
      apply Qclt_le_weak in H. by apply Qcle_not_lt in H.
    + done.
    + rewrite H in Hshare. exfalso. clear -Hshare. qc.
  - intros Hf (Ha1 & Ha2 & Ha3).
    destruct Hcases as [(_ & _ & _ & ->)|[[H|[H|H]] _]];
      [|by apply Qcle_not_lt in Ha1|done|done].
    by rewrite (Hnofire Hf), Hc1.
  - intros Hna.
    assert (Hdead : prokaryote (biomass t1)
                    = Math_min
                        (0 + 0 * Math_min (carbonDioxide ta * prokaryoteReproductionRate)
                                   prokaryoteReproductionRate)
                        (baseLuminosity tile * fullLuminosityHeat
                         * photosynthticBiomassPerEnergy)).
    { destruct Hcases as [(H1 & H2 & H3 & _)|[_ Hg]]; [|done]. by destruct Hna. }
    split; [exact Hdead|]. intros Hlum. rewrite Hdead. clear -Hlum. qc.
  - exact Htot'.
  - apply canProkaryotesSurvive_true.
  - intros a b. apply ltb_lt.
  - exact (proj1 Hgen).
  - exact (proj2 Hgen).
  - intros Hno. apply Hkeep.
    + apply no_exchange. rewrite Htc1, Hh1.
      destruct Hno; [by left|by right; left].
    + intros tileS _. apply no_exchange. rewrite Htc1, Hh1.
      destruct Hno; [by left|by right; left].
  - intros Hp HE' HS'. apply Hkeep.
    + apply no_exchange. right. right. done.
    + intros tileS HtS. apply no_exchange. right. right.
      split; [done|]. by apply HS'.
Qed.

Lemma abiogenesis_then_growth_witness :
  wf (beginTick pondWorld) ∧ (50 < worldWidth)%nat ∧ (50 < worldHeight)%nat
  ∧ getTile (beginTick pondWorld) 50 50 = Some pondTile
  ∧ ∃ w' t',
      tileStep (λ _, 0) pondAir (computeHeatTrappingFactor pondAir) 50 50
        (beginTick pondWorld) = Some w'
      ∧ getTile w' 50 50 = Some t'
      ∧ prokaryote (biomass t') = num 201 200
      ∧ total (biomass t') = num 201 200.
Proof.
  assert (Hwf : wf (beginTick pondWorld)) by exact (wf_beginTick _ wf_pondWorld).
  assert (Hx : (50 < worldWidth)%nat) by (unfold worldWidth; lia).
  assert (Hy : (50 < worldHeight)%nat) by (unfold worldHeight; lia).
  assert (E0 : getTile (beginTick pondWorld) 50 50 = Some pondTile) by (by vm_compute).
  assert (E1 : getTile (beginTick pondWorld) ((50 + 1) mod worldWidth) 50
               = Some rockTile) by (by vm_compute).
  assert (E2 : getTile (beginTick pondWorld) 50 (50 + 1) = Some rockTile)
    by (by vm_compute).
  split; [exact Hwf|]. split; [exact Hx|]. split; [exact Hy|]. split; [exact E0|].
  destruct (abiogenesis_then_growth (λ _, 0) pondAir
              (computeHeatTrappingFactor pondAir) (beginTick pondWorld) 50 50
              Hwf Hx Hy)
    as (tile & tileE & w1 & w' & t1 & t' & Ht & HtE & _ & _ & Hstep & _ & Ht' & _
        & _ & _ & Htot1 & _ & _ & _ & Hgrow & _ & _ & Htot' & _ & _ & _ & _ & Hkeep).
  rewrite E0 in Ht. injection Ht as <-.
  rewrite E1 in HtE. injection HtE as <-.
  destruct Hgrow as [Hpop _].
  { split; [|by vm_compute]. split; [reflexivity|]. split; by vm_compute. }
  { reflexivity. }
  { by vm_compute. }
  { by vm_compute. }
  exists w', t'. split; [exact Hstep|]. split; [exact Ht'|].
  assert (Hp' : prokaryote (biomass t') = prokaryote (biomass t1)).
  { apply Hkeep.
    - rewrite Hpop. by vm_compute.
    - right. left. discriminate.
    - intros tileS HtS. rewrite E2 in HtS. injection HtS as <-.
      right. left. discriminate. }
  rewrite Htot', Htot1, Hp', Hpop. split; by apply Qc_is_canon.
Defined.

(** ** The eruption *)

Lemma spreadEntry_nonneg sqrt up (i j : nat) : 0 ≤ up → 0 ≤ spreadEntry sqrt up i j.
Proof.
  intros Hup. unfold spreadEntry.
  generalize (sqrt ((ofNat volcanoHalfDiameter - ofNat i)
                    * (ofNat volcanoHalfDiameter - ofNat i)
                    + (ofNat volcanoHalfDiameter - ofNat j)
                      * (ofNat volcanoHalfDiameter - ofNat j))).
  intros s. qc.
Qed.

Lemma spreadEntry_centre sqrt up (i j : nat) :
  let dx := ofNat i - ofNat volcanoHalfDiameter in
  let dy := ofNat j - ofNat volcanoHalfDiameter in
  spreadEntry sqrt up i j
  = up * Math_max (ofNat volcanoHalfDiameter - sqrt (dx * dx + dy * dy)) 0
    / ofNat volcanoHalfDiameter.
Proof.
  cbv zeta. unfold spreadEntry.
  replace ((ofNat volcanoHalfDiameter - ofNat i) * (ofNat volcanoHalfDiameter - ofNat i)
           + (ofNat volcanoHalfDiameter - ofNat j) * (ofNat volcanoHalfDiameter - ofNat j))
    with ((ofNat i - ofNat volcanoHalfDiameter) * (ofNat i - ofNat volcanoHalfDiameter)
          + (ofNat j - ofNat volcanoHalfDiameter) * (ofNat j - ofNat volcanoHalfDiameter))
    by ring.
  unfold Qcdiv. ring.
Qed.

Lemma raise_not_lower val tile :
  0 ≤ val → altitude tile ≤ maxAltitude →
  altitude tile ≤ altitude (raise val tile)
  ∧ altitude (raise val tile) ≤ maxAltitude.
Proof. intros Hv Ha. unfold raise. cbn [set_altitude altitude]. split; qc. Qed.

Lemma Math_floor_eq (a : Qc) (c : Z) :
  Math_floor a = c ↔ ofZ c ≤ a ∧ a < ofZ c + 1.
Proof.
  unfold Math_floor, ofZ. split.
  - intros <-. pose proof (Qfloor_le a). pose proof (Qlt_floor a).
    rewrite inject_Z_plus in *. split; to_Q; lra.
  - intros [H1 H2]. apply Z.le_antisymm.
    + apply Z.lt_succ_r. rewrite Zlt_Qlt. eapply Qle_lt_trans; [apply Qfloor_le|].
      unfold Z.succ. rewrite inject_Z_plus. to_Q. lra.
    + rewrite <- (Qfloor_Z c). apply Qfloor_resp_le. to_Q. lra.
Qed.

(** C4, counterexample.  On the new world, whose altitudes are all 0, the
    random numbers 1/2 select the tile [(50, 50)] and the upthrust 1500.
    The tile [(49, 50)], at the offset [(-1, 0)], keeps the altitude 0 where
    the claim adds 1125; the selected tile itself keeps the altitude 0 where
    the claim adds 1500; the peak 1500 is on the tile [(54, 54)]. *)
Lemma eruption_not_centred :
  wf newWorld ∧ unitInterval (λ _, num 1 2)
  ∧ getRandomX (λ _, num 1 2) 0 = 50%Z
  ∧ getRandomY (λ _, num 1 2) 1 = 50%Z
  ∧ volcanoMinUpthrust + ofZ (Math_floor (volcanoUpthrustVariation * num 1 2))
    = num 1500 1
  ∧ observe altitude 49 50 (eruptVolcano sqrtFloor (λ _, num 1 2) newWorld)
    = Some 0%Q
  ∧ this (Math_min (0 + centredContribution sqrtFloor (num 1500 1) (-1) 0)
            maxAltitude) = 1125%Q
  ∧ observe altitude 50 50 (eruptVolcano sqrtFloor (λ _, num 1 2) newWorld)
    = Some 0%Q
  ∧ this (Math_min (0 + centredContribution sqrtFloor (num 1500 1) 0 0)
            maxAltitude) = 1500%Q
  ∧ observe altitude 54 54 (eruptVolcano sqrtFloor (λ _, num 1 2) newWorld)
    = Some 1500%Q.
Proof.
  split; [exact wf_newWorld|]. split; [exact unitInterval_half|].
  split; [by vm_compute|]. split; [by vm_compute|].
  split; [by apply Qc_is_canon|].
  split; [vm_cast_no_check (eq_refl (Some 0%Q))|].
  split; [by vm_compute|].
  split; [vm_cast_no_check (eq_refl (Some 0%Q))|].
  split; [by vm_compute|].
  vm_cast_no_check (eq_refl (Some 1500%Q)).
Qed.

(** C4 (amended). [eruptVolcano] draws three random numbers: the first two
    select the tile [(baseX, baseY)], each tile for an equally long interval
    of the random numbers, and the third gives the upthrust
    [volcanoMinUpthrust + floor (volcanoUpthrustVariation * r)], a whole
    number from [volcanoMinUpthrust] to below
    [volcanoMinUpthrust + volcanoUpthrustVariation].  The eruption completes
    and touches the 9x9 square whose corner — not centre — is the selected
    tile: the tile [(baseX + i, baseY + j)] with [0 <= i, j <= 8] that lies
    on the grid gets
    [min (altitude + upthrust * max (4 - sqrt (dx² + dy²), 0) / 4, maxAltitude)]
    with [dx = i - 4] and [dy = j - 4], the peak being at
    [(baseX + 4, baseY + 4)]; every other tile, and every other field, is
    left alone, and there is no wrap.  No altitude that was at most
    [maxAltitude] decreases. *)
Theorem eruption_from_corner sqrt rand (w : World) :
  wf w → unitInterval rand →
  let k := drawn w in
  let baseX := getRandomX rand k in
  let baseY := getRandomY rand (S k) in
  let m := Math_floor (volcanoUpthrustVariation * rand (S (S k))) in
  let upthrust := volcanoMinUpthrust + ofZ m in
  (0 ≤ baseX < Z.of_nat worldWidth)%Z
  ∧ (0 ≤ baseY < Z.of_nat worldHeight)%Z
  ∧ (∀ c : Z, baseX = c
       ↔ ofZ c ≤ rand k * ofNat worldWidth ∧ rand k * ofNat worldWidth < ofZ c + 1)
  ∧ (∀ c : Z, baseY = c
       ↔ ofZ c ≤ rand (S k) * ofNat worldHeight
         ∧ rand (S k) * ofNat worldHeight < ofZ c + 1)
  ∧ (0 ≤ m < 1000)%Z
  ∧ volcanoMinUpthrust ≤ upthrust
  ∧ upthrust < volcanoMinUpthrust + volcanoUpthrustVariation
  ∧ (∀ i j : nat,
       0 ≤ spreadEntry sqrt upthrust i j
       ∧ let dx := ofNat i - ofNat volcanoHalfDiameter in
         let dy := ofNat j - ofNat volcanoHalfDiameter in
         spreadEntry sqrt upthrust i j
         = upthrust
           * Math_max (ofNat volcanoHalfDiameter - sqrt (dx * dx + dy * dy)) 0
           / ofNat volcanoHalfDiameter)
  ∧ ∃ w',
      eruptVolcano sqrt rand w = Some w'
      ∧ wf w'
      ∧ atmosphere w' = atmosphere w
      ∧ worldBiomass w' = worldBiomass w
      ∧ drawn w' = S (S (S k))
      ∧ ∀ (x y : nat) tile,
          getTile w x y = Some tile →
          let inSquare :=
            (baseX ≤ Z.of_nat x ≤ baseX + 8)%Z ∧ (baseY ≤ Z.of_nat y ≤ baseY + 8)%Z in
          ∃ tile',
            getTile w' x y = Some tile'
            ∧ baseLuminosity tile' = baseLuminosity tile
            ∧ heat tile' = heat tile
            ∧ tileCover tile' = tileCover tile
            ∧ biomass tile' = biomass tile
            ∧ (inSquare →
               altitude tile'
               = Math_min
                   (altitude tile
                    + spreadEntry sqrt upthrust (x - Z.to_nat baseX) (y - Z.to_nat baseY))
                   maxAltitude)
            ∧ (¬ inSquare → tile' = tile)
            ∧ (altitude tile ≤ maxAltitude →
               altitude tile ≤ altitude tile' ∧ altitude tile' ≤ maxAltitude).
Proof.
  intros Hwf Hr k baseX baseY m upthrust.
  pose proof (getRandomX_range rand k Hr) as Hbx.
  pose proof (getRandomY_range rand (S k) Hr) as Hby.
  pose proof (upthrust_range rand (S (S k)) Hr) as Hm.
  fold baseX in Hbx. fold baseY in Hby. fold m in Hm.
  assert (Hup : volcanoMinUpthrust ≤ upthrust
                ∧ upthrust < volcanoMinUpthrust + volcanoUpthrustVariation).
  { unfold upthrust. destruct Hm as [Hm0 Hm1].
    apply ofZ_le in Hm0. apply ofZ_lt in Hm1. clearbody m. clear -Hm0 Hm1.
    unfold ofZ in *. split; qc. }
  assert (Hup0 : 0 ≤ upthrust).
  { destruct Hup as [Hup _]. clearbody upthrust. clear -Hup. qc. }
  split; [exact Hbx|]. split; [exact Hby|].
  split; [intros c; apply Math_floor_eq|]. split; [intros c; apply Math_floor_eq|].
  split; [exact Hm|]. split; [apply Hup|]. split; [apply Hup|].
  split.
  { intros i j. split; [by apply spreadEntry_nonneg|apply spreadEntry_centre]. }
  destruct (eruptVolcano_spec sqrt rand w Hwf Hr)
    as (w' & Hrun & Hwf' & Ha & Hb & Hd & Hout & Hin).
  fold k in Hout, Hin, Hd. fold baseX in Hout, Hin. fold baseY in Hout, Hin.
  fold m in Hin. fold upthrust in Hin.
  exists w'. split_and!; try assumption.
  intros x y tile Htile inSquare.
  destruct (getTile_lt w x y Hwf) as [Hx Hy]; [by rewrite Htile|].
  destruct (decide inSquare) as [Hsq|Hsq].
  - unfold inSquare in Hsq.
    pose proof (Hin (x - Z.to_nat baseX)%nat (y - Z.to_nat baseY)%nat) as Hxy.
    replace (Z.to_nat baseX + (x - Z.to_nat baseX))%nat with x in Hxy by lia.
    replace (Z.to_nat baseY + (y - Z.to_nat baseY))%nat with y in Hxy by lia.
    rewrite Htile in Hxy. osimpl in Hxy.
    eexists. split; [apply Hxy; unfold volcanoDiameter; lia|].
    do 4 (split; [reflexivity|]). split; [intros _; reflexivity|].
    split; [intros Hn; by destruct Hn|].
    intros Halt. apply raise_not_lower; [|done]. by apply spreadEntry_nonneg.
  - exists tile. rewrite Hout by (unfold inSquare in Hsq; lia).
    split; [exact Htile|]. do 4 (split; [reflexivity|]).
    split; [intros Hy'; by destruct Hsq|]. split; [intros _; reflexivity|].
    intros Halt. split; [apply Qcle_refl|done].
Qed.

Lemma eruption_from_corner_witness :
  wf newWorld ∧ unitInterval (λ _, num 1 2)
  ∧ ∃ w', eruptVolcano sqrtFloor (λ _, num 1 2) newWorld = Some w' ∧ wf w'.
Proof.
  split; [exact wf_newWorld|]. split; [exact unitInterval_half|].
  destruct (eruption_from_corner sqrtFloor (λ _, num 1 2) newWorld
              wf_newWorld unitInterval_half)
    as (_ & _ & _ & _ & _ & _ & _ & _ & w' & Hrun & Hwf' & _).
  exists w'. exact (conj Hrun Hwf').
Defined.

(** ** Determinism *)

Lemma ticks_inv (P : World → Prop) sqrt rand :
  (∀ w, wf w → P w → ∃ w', tick sqrt rand w = Some w' ∧ wf w' ∧ P w') →
  ∀ (n : nat) w, wf w → P w → ∃ w', ticks sqrt rand n w = Some w' ∧ wf w' ∧ P w'.
Proof.
  intros Hstep n. induction n as [|n IH]; intros w Hwf HP.
  { exists w. done. }
  destruct (Hstep w Hwf HP) as (w1 & Htick & Hwf1 & HP1).
  destruct (IH w1 Hwf1 HP1) as (w' & Hrun & Hwf' & HP').
  exists w'. cbn [ticks]. rewrite Htick. osimpl. done.
Qed.

Lemma getTile_recount b k w (x y : nat) : getTile (recount b k w) x y = getTile w x y.
Proof. done. Qed.

Lemma updTile_recount b k x y f w :
  updTile x y f (recount b k w) = recount b k <$> updTile x y f w.
Proof.
  unfold updTile, recount. cbn [tiles].
  destruct (tiles w !! x) as [col|]; [|done]. osimpl.
  by destruct (col !! y).
Qed.

Lemma updTileZ_recount b k x y f w :
  updTileZ x y f (recount b k w) = recount b k <$> updTileZ x y f w.
Proof. unfold updTileZ. case_match; [apply updTile_recount|done]. Qed.

Lemma forEach_recount (idx : list nat) (f : nat → World → option World) b k w :
  (∀ i b k w, f i (recount b k w) = recount b k <$> f i w) →
  forEach idx f (recount b k w) = recount b k <$> forEach idx f w.
Proof.
  intros Hf. revert w. induction idx as [|i idx IH]; intros w; [done|].
  cbn [forEach]. rewrite Hf. destruct (f i w) as [w1|]; [|done]. osimpl. apply IH.
Qed.

Lemma transferHeat_recount x y b k w :
  transferHeat x y (recount b k w) = recount b k <$> transferHeat x y w.
Proof.
  unfold transferHeat. rewrite !getTile_recount.
  destruct (getTile w x y) as [tile|]; [|done]. osimpl.
  destruct (getTile w ((x + 1) mod worldWidth) y) as [tileE|]; [|done]. osimpl.
  rewrite updTile_recount.
  destruct (updTile ((x + 1) mod worldWidth) y _ w) as [w1|]; [|done]. osimpl.
  destruct (negb (y + 1 =? worldHeight)%nat); [|apply updTile_recount].
  rewrite !getTile_recount.
  destruct (getTile w1 x y) as [tile1|]; [|done]. osimpl.
  destruct (getTile w1 x (y + 1)) as [tileS|]; [|done]. osimpl.
  rewrite updTile_recount.
  destruct (updTile x (y + 1) _ w1) as [w2|]; [|done]. osimpl.
  apply updTile_recount.
Qed.

Lemma exchange_recount (c : bool) x1 y1 x2 y2 f1 f2 b k w :
  (if c then w ← updTile x1 y1 f1 (recount b k w); updTile x2 y2 f2 w
   else Some (recount b k w))
  = recount b k <$> (if c then w ← updTile x1 y1 f1 w; updTile x2 y2 f2 w
                     else Some w).
Proof.
  destruct c; [|done]. rewrite updTile_recount.
  destruct (updTile x1 y1 f1 w) as [w1|]; [|done]. osimpl. apply updTile_recount.
Qed.

Lemma transferProkaryotes_recount x y b k w :
  transferProkaryotes x y (recount b k w)
  = recount b k <$> transferProkaryotes x y w.
Proof.
  unfold transferProkaryotes. rewrite !getTile_recount.
  destruct (getTile w x y) as [tile|]; [|done]. osimpl.
  destruct (canProkaryotesSurvive tile); [|done].
  destruct (getTile w ((x + 1) mod worldWidth) y) as [tileE|]; [|done]. osimpl.
  rewrite exchange_recount.
  match goal with
  | |- context [recount b k <$> ?o] => destruct o as [w1|]; [|done]
  end. osimpl.
  destruct (negb (y + 1 =? worldHeight)%nat); [|done].
  rewrite !getTile_recount.
  destruct (getTile w1 x y) as [tile1|]; [|done]. osimpl.
  destruct (getTile w1 x (y + 1)) as [tileS|]; [|done]. osimpl.
  apply exchange_recount.
Qed.

Lemma classifyTile_recount x y b k w :
  classifyTile x y (recount b k w) = recount b k <$> classifyTile x y w.
Proof. apply updTile_recount. Qed.

Lemma eruptLoop_recount table baseX baseY b k w :
  eruptLoop table baseX baseY (recount b k w)
  = recount b k <$> eruptLoop table baseX baseY w.
Proof.
  unfold eruptLoop. apply forEach_recount. intros i b1 k1 w1.
  destruct (table !! i) as [val|]; [|done]. osimpl.
  apply forEach_recount. intros j b2 k2 w2.
  destruct (val !! j) as [v|]; [|done]. osimpl. cbv zeta.
  case_match; [apply updTileZ_recount|done].
Qed.

Lemma eruptVolcano_loop sqrt rand w :
  eruptVolcano sqrt rand w
  = eruptLoop
      (spreadUpthrust sqrt
         (volcanoMinUpthrust
          + ofZ (Math_floor (volcanoUpthrustVariation * rand (S (S (drawn w)))))))
      (getRandomX rand (drawn w)) (getRandomY rand (S (drawn w)))
      (recount (worldBiomass w) (S (S (S (drawn w)))) w).
Proof. done. Qed.

Lemma option_Forall2_bind {A} (R : A → A → Prop) (f g : A → option A) o1 o2 :
  option_Forall2 R o1 o2 →
  (∀ a1 a2, R a1 a2 → option_Forall2 R (f a1) (g a2)) →
  option_Forall2 R (o1 ≫= f) (o2 ≫= g).
Proof. intros [a1 a2 Ha|] Hfg; [by apply Hfg|constructor]. Qed.

Lemma forEach_rel {S} (R : S → S → Prop) (idx : list nat)
    (f g : nat → S → option S) s1 s2 :
  (∀ i a1 a2, R a1 a2 → option_Forall2 R (f i a1) (g i a2)) →
  R s1 s2 → option_Forall2 R (forEach idx f s1) (forEach idx g s2).
Proof.
  intros Hfg. revert s1 s2. induction idx as [|i idx IH]; intros s1 s2 Hs.
  - by constructor.
  - cbn [forEach]. apply option_Forall2_bind; [by apply Hfg|]. apply IH.
Qed.

Section Determinism.

Variable sqrt : Qc → Qc.
Variables rand1 rand2 : nat → Qc.
Variables d1 d2 : nat.
Hypothesis same_draws : ∀ i : nat, rand1 (d1 + i)%nat = rand2 (d2 + i)%nat.

(** What a function that neither reads nor writes the counters does in the
    two runs. *)
Lemma alignedGrid_lift (f : World → option World) w1 w2 :
  (∀ b k w, f (recount b k w) = recount b k <$> f w) →
  alignedGrid d1 d2 w1 w2 → option_Forall2 (alignedGrid d1 d2) (f w1) (f w2).
Proof.
  intros Hf (Ha & Ht & j & Hj1 & Hj2).
  assert (E1 : w1 = recount (worldBiomass w1) (drawn w1) w1) by (by destruct w1).
  assert (E2 : w2 = recount (worldBiomass w2) (drawn w2) w1).
  { destruct w1, w2. cbn in *. by subst. }
  pose proof (Hf (worldBiomass w1) (drawn w1) w1) as H1. rewrite <- E1 in H1.
  rewrite E2, Hf. destruct (f w1) as [w1'|]; [|constructor].
  osimpl. constructor. osimpl in H1. apply (inj Some) in H1.
  split; [done|]. split; [done|]. exists j. rewrite H1. cbn [recount drawn]. done.
Qed.

Lemma aligned_lift (f : World → option World) w1 w2 :
  (∀ b k w, f (recount b k w) = recount b k <$> f w) →
  aligned d1 d2 w1 w2 → option_Forall2 (aligned d1 d2) (f w1) (f w2).
Proof.
  intros Hf [Hg Hb].
  assert (E1 : w1 = recount (worldBiomass w1) (drawn w1) w1) by (by destruct w1).
  pose proof (Hf (worldBiomass w1) (drawn w1) w1) as H1. rewrite <- E1 in H1.
  pose proof (Hf (worldBiomass w2) (drawn w2) w2) as H2.
  assert (E2 : w2 = recount (worldBiomass w2) (drawn w2) w2) by (by destruct w2).
  rewrite <- E2 in H2.
  destruct (alignedGrid_lift f w1 w2 Hf Hg) as [w1' w2' Hg'|]; [|constructor].
  constructor. split; [exact Hg'|].
  osimpl in H1. osimpl in H2. apply (inj Some) in H1, H2.
  rewrite H1, H2. cbn [recount worldBiomass]. exact Hb.
Qed.

Lemma eruptVolcano_aligned w1 w2 :
  alignedGrid d1 d2 w1 w2 →
  option_Forall2 (alignedGrid d1 d2)
    (eruptVolcano sqrt rand1 w1) (eruptVolcano sqrt rand2 w2).
Proof using same_draws.
  intros (Ha & Ht & j & Hj1 & Hj2). rewrite !eruptVolcano_loop.
  unfold getRandomX, getRandomY. rewrite Hj1, Hj2.
  replace (S (S (d1 + j))) with (d1 + S (S j))%nat by lia.
  replace (S (S (d2 + j))) with (d2 + S (S j))%nat by lia.
  replace (S (d1 + j)) with (d1 + S j)%nat by lia.
  replace (S (d2 + j)) with (d2 + S j)%nat by lia.
  rewrite !same_draws.
  apply alignedGrid_lift; [intros; apply eruptLoop_recount|].
  split; [done|]. split; [done|]. exists (S (S (S j))). cbn [recount drawn]. lia.
Qed.

Lemma abiogenesis_aligned tile (j : nat) :
  (abiogenesis rand1 tile (d1 + j)).1 = (abiogenesis rand2 tile (d2 + j)).1
  ∧ ∃ j', (abiogenesis rand1 tile (d1 + j)).2 = (d1 + j')%nat
          ∧ (abiogenesis rand2 tile (d2 + j)).2 = (d2 + j')%nat.
Proof using same_draws.
  unfold abiogenesis. rewrite same_draws.
  repeat case_match; cbn [fst snd]; (split; [done|]);
    first [by exists (S j); lia | by exists j].
Qed.

Lemma tileLocal_aligned ta htf x y w1 w2 :
  aligned d1 d2 w1 w2 →
  option_Forall2 (aligned d1 d2)
    (tileLocal rand1 ta htf x y w1) (tileLocal rand2 ta htf x y w2).
Proof using same_draws.
  intros [(Ha & Ht & j & Hj1 & Hj2) Hb]. unfold tileLocal.
  assert (Hg : getTile w2 x y = getTile w1 x y) by (unfold getTile; by rewrite Ht).
  rewrite Hg, <- Ha, <- Hb, Hj1, Hj2.
  destruct (getTile w1 x y) as [tile|]; [|constructor]. osimpl.
  destruct (tileClimate htf tile (atmosphere w1)) as [t1 a1].
  destruct (abiogenesis_aligned t1 j) as (Et & j' & E1 & E2).
  destruct (abiogenesis rand1 t1 (d1 + j)) as [t2 k2].
  destruct (abiogenesis rand2 t1 (d2 + j)) as [t2' k2'].
  cbn [fst snd] in Et, E1, E2. subst t2' k2 k2'.
  destruct (applyBiomass t2 ta a1 (worldBiomass w1)) as [[t3 a3] b3].
  change (mkWorld a3 b3 (tiles w2) (d2 + j'))
    with (recount b3 (d2 + j') (mkWorld a3 b3 (tiles w2) (d1 + j'))).
  rewrite updTile_recount, <- Ht.
  destruct (updTile x y (λ _, t3) (mkWorld a3 b3 (tiles w1) (d1 + j'))) as [w'|] eqn:Hu;
    [|constructor].
  osimpl. constructor.
  assert (Hd : drawn w' = (d1 + j')%nat ∧ worldBiomass w' = b3).
  { unfold updTile in Hu. cbn [tiles] in Hu.
    destruct (tiles w1 !! x) as [col|]; [|done]. osimpl in Hu.
    destruct (col !! y); [|done]. osimpl in Hu. by injection Hu as <-. }
  destruct Hd as [Hd Hb']. split; [|by rewrite Hb'].
  split; [done|]. split; [done|]. exists j'. by rewrite Hd.
Qed.

Lemma tileStep_aligned ta htf x y w1 w2 :
  aligned d1 d2 w1 w2 →
  option_Forall2 (aligned d1 d2)
    (tileStep rand1 ta htf x y w1) (tileStep rand2 ta htf x y w2).
Proof using same_draws.
  intros Hw. unfold tileStep.
  apply option_Forall2_bind; [by apply tileLocal_aligned|].
  intros a1 a2 Ha. apply aligned_lift; [|done].
  intros. apply transferProkaryotes_recount.
Qed.

Lemma applyTiles_aligned (f g : nat → nat → World → option World) w1 w2 :
  (∀ x y a1 a2, aligned d1 d2 a1 a2 →
     option_Forall2 (aligned d1 d2) (f x y a1) (g x y a2)) →
  aligned d1 d2 w1 w2 →
  option_Forall2 (aligned d1 d2) (applyTiles f w1) (applyTiles g w2).
Proof.
  intros Hfg Hw. unfold applyTiles.
  replace (tiles w2) with (tiles w1) by (by destruct Hw as [(_ & -> & _) _]).
  apply forEach_rel; [|done].
  intros x a1 a2 Ha.
  replace (tiles a2) with (tiles a1) by (by destruct Ha as [(_ & -> & _) _]).
  destruct (tiles a1 !! x) as [col|]; [|constructor]. osimpl.
  apply forEach_rel; [|done]. intros y b1 b2 Hb. by apply Hfg.
Qed.

Lemma tick_aligned w1 w2 :
  alignedGrid d1 d2 w1 w2 →
  option_Forall2 (aligned d1 d2) (tick sqrt rand1 w1) (tick sqrt rand2 w2).
Proof using same_draws.
  intros Hw. unfold tick.
  destruct (eruptVolcano_aligned w1 w2 Hw) as [a1 a2 (Ha & Ht & Hj)|]; [|constructor].
  osimpl. cbv zeta.
  assert (Hb : aligned d1 d2 (beginTick a1) (beginTick a2)).
  { unfold beginTick. split; [|done]. split; [cbn; by rewrite Ha|]. done. }
  replace (atmosphere (beginTick a2)) with (atmosphere (beginTick a1))
    by (by destruct Hb as [(-> & _) _]).
  apply option_Forall2_bind.
  { apply applyTiles_aligned; [|done]. intros x y b1 b2. apply tileStep_aligned. }
  intros b1 b2 Hb12. apply option_Forall2_bind.
  { apply applyTiles_aligned; [|done]. intros x y c1 c2 Hc.
    apply aligned_lift; [|done]. intros. apply transferHeat_recount. }
  intros c1 c2 Hc12.
  apply applyTiles_aligned; [|done]. intros x y e1 e2 He.
  apply aligned_lift; [|done]. intros. apply classifyTile_recount.
Qed.

Lemma ticks_aligned (n : nat) w1 w2 :
  alignedGrid d1 d2 w1 w2 →
  option_Forall2
    (λ a1 a2, alignedGrid d1 d2 a1 a2
              ∧ ((0 < n)%nat → worldBiomass a1 = worldBiomass a2))
    (ticks sqrt rand1 n w1) (ticks sqrt rand2 n w2).
Proof using same_draws.
  revert w1 w2. induction n as [|n IH]; intros w1 w2 Hw.
  - constructor. split; [done|lia].
  - cbn [ticks].
    destruct (tick_aligned w1 w2 Hw) as [a1 a2 [Hg Hb]|]; [|constructor]. osimpl.
    destruct n as [|n].
    + constructor. done.
    + destruct (IH a1 a2 Hg) as [b1 b2 [Hg' Hb']|]; constructor.
      split; [done|]. intros _. apply Hb'. lia.
Qed.

End Determinism.

(** C9. Two runs of [n] ticks that start from the same atmosphere and the
    same grid — whatever their biomass counters hold and however many random
    numbers each has drawn before — and that receive the same value at every
    call of [Math.random] from then on, both complete or both fail; when they
    complete they end with the same atmosphere and the same grid, after the
    same number of calls of [Math.random], and with the same biomass counters
    once a tick has run.  On a full grid, with random numbers in [[0, 1)],
    they complete. *)
Theorem ticks_deterministic sqrt rand1 rand2 (w1 w2 : World) (n : nat) :
  atmosphere w1 = atmosphere w2 → tiles w1 = tiles w2 →
  (∀ i : nat, rand1 (drawn w1 + i)%nat = rand2 (drawn w2 + i)%nat) →
  match ticks sqrt rand1 n w1, ticks sqrt rand2 n w2 with
  | Some w1', Some w2' =>
      atmosphere w1' = atmosphere w2'
      ∧ tiles w1' = tiles w2'
      ∧ (∃ j : nat, drawn w1' = (drawn w1 + j)%nat ∧ drawn w2' = (drawn w2 + j)%nat)
      ∧ ((0 < n)%nat → worldBiomass w1' = worldBiomass w2')
  | None, None => True
  | _, _ => False
  end
  ∧ (wf w1 → unitInterval rand1 → is_Some (ticks sqrt rand1 n w1)).
Proof.
  intros Ha Ht Hr. split.
  - assert (Hw : alignedGrid (drawn w1) (drawn w2) w1 w2).
    { split; [done|]. split; [done|]. exists 0%nat. lia. }
    by destruct (ticks_aligned sqrt rand1 rand2 (drawn w1) (drawn w2) Hr n w1 w2 Hw)
      as [a1 a2 [(Ha' & Ht' & Hj) Hb]|].
  - intros Hwf Hu.
    destruct (ticks_inv (λ _, True) sqrt rand1) with (n := n) (w := w1)
      as (w' & Hrun & _); [|done|done|by exists w'].
    intros w Hw _.
    destruct (tick_phases sqrt rand1 w Hw Hu)
      as (_ & _ & _ & w' & _ & _ & _ & _ & _ & _ & _ & Hwf' & Htick).
    by exists w'.
Qed.

Lemma unitInterval_dice : unitInterval dice.
Proof. intros k. unfold dice. by destruct (Nat.even k). Qed.

Lemma ticks_deterministic_witness :
  atmosphere colonyOcean = atmosphere laterColony
  ∧ tiles colonyOcean = tiles laterColony
  ∧ worldBiomass colonyOcean ≠ worldBiomass laterColony
  ∧ (∀ i : nat, dice (drawn colonyOcean + i)%nat
                = (λ k, dice (k - 5)) (drawn laterColony + i)%nat)
  ∧ ∃ w1' w2',
      ticks sqrtFloor dice 3 colonyOcean = Some w1'
      ∧ ticks sqrtFloor (λ k, dice (k - 5)) 3 laterColony = Some w2'
      ∧ atmosphere w1' = atmosphere w2' ∧ tiles w1' = tiles w2'
      ∧ worldBiomass w1' = worldBiomass w2'.
Proof.
  assert (Hd : ∀ i : nat, dice (drawn colonyOcean + i)%nat
                          = (λ k, dice (k - 5)) (drawn laterColony + i)%nat).
  { intros i. cbn [colonyOcean ocean laterColony drawn]. f_equal. lia. }
  split; [reflexivity|]. split; [reflexivity|]. split; [discriminate|].
  split; [exact Hd|].
  destruct (ticks_deterministic sqrtFloor dice (λ k, dice (k - 5))
              colonyOcean laterColony 3 eq_refl eq_refl Hd) as [Hsame Hruns].
  destruct (Hruns wf_colonyOcean unitInterval_dice) as [w1' Hw1].
  clear Hruns. revert Hsame. rewrite Hw1. clear Hw1.
  generalize (ticks sqrtFloor (λ k, dice (k - 5)) 3 laterColony).
  intros [w2'|] Hsame; [|destruct Hsame].
  destruct Hsame as (Ha & Ht & _ & Hb).
  exists w1', w2'. split; [reflexivity|]. split; [reflexivity|].
  split; [exact Ha|]. split; [exact Ht|]. apply Hb. lia.
Defined.

(** ** The tick without volcanism and biomass *)

Lemma tileAbiotic_atmosphere htf w w' (x y : nat) :
  wf w → (x < worldWidth)%nat → (y < worldHeight)%nat →
  tileAbiotic htf x y w = Some w' →
  ∃ tile,
    getTile w x y = Some tile
    ∧ wf w'
    ∧ getTile w' x y = Some (tileClimate htf tile (atmosphere w)).1
    ∧ (∀ x' y' : nat, ¬ (x' = x ∧ y' = y) → getTile w' x' y' = getTile w x' y')
    ∧ let a := atmosphere w in
      nitrogen (atmosphere w') = nitrogen a
      ∧ oxygen (atmosphere w') = oxygen a
      ∧ methane (atmosphere w') = methane a
      ∧ waterVapour (atmosphere w')
        = waterVapour a + (if isWater tile then waterVaporPerOceanTile else 0)
      ∧ carbonDioxide (atmosphere w')
        = carbonDioxide a
          + (if isWater tile then 0 else if isRock tile then carbonPerLandTile else 0).
Proof.
  intros Hwf Hx Hy Hrun.
  destruct (tileAbiotic_spec htf w x y Hwf Hx Hy)
    as (tile & w2 & Htile & Hrun2 & Hwf2 & Ha & _ & _ & Hat & Hother).
  rewrite Hrun in Hrun2. injection Hrun2 as <-.
  exists tile. cbv zeta. split_and!; try assumption.
  - rewrite Ha, tileClimate_snd. by destruct (isWater tile), (isRock tile).
  - rewrite Ha, tileClimate_snd. by destruct (isWater tile), (isRock tile).
  - rewrite Ha, tileClimate_snd. by destruct (isWater tile), (isRock tile).
  - rewrite Ha, tileClimate_snd.
    destruct (isWater tile), (isRock tile); cbn [waterVapour]; ring.
  - rewrite Ha, tileClimate_snd.
    destruct (isWater tile), (isRock tile); cbn [carbonDioxide]; ring.
Qed.

Lemma isWater_isRock tile : isWater tile = true → isRock tile = false.
Proof. unfold isWater, isRock. by destruct (tileCover tile). Qed.

(** The per-tile pass of the abiotic tick: every visited tile gets its
    eroded altitude and its new heat, and the atmosphere gains one unit of
    water vapour per water tile and one of carbon dioxide per rock tile. *)
Lemma abiotic_pass htf idx w :
  wf w → NoDup idx →
  (∀ x y : nat, (x, y) ∈ idx → (x < worldWidth)%nat ∧ (y < worldHeight)%nat) →
  ∃ w', forEach2 idx (tileAbiotic htf) w = Some w'
    ∧ wf w'
    ∧ (∀ x y : nat,
         getTile w' x y
         = if decide ((x, y) ∈ idx)
           then (λ t, (tileClimate htf t (atmosphere w)).1) <$> getTile w x y
           else getTile w x y)
    ∧ nitrogen (atmosphere w') = nitrogen (atmosphere w)
    ∧ oxygen (atmosphere w') = oxygen (atmosphere w)
    ∧ methane (atmosphere w') = methane (atmosphere w)
    ∧ carbonDioxide (atmosphere w')
      = carbonDioxide (atmosphere w)
        + carbonPerLandTile * ofNat (countAt isRock w idx).
Proof.
  intros Hwf Hnd. revert w Hwf.
  induction Hnd as [|[x y] idx Hnotin Hnd IH]; intros w Hwf Hidx.
  - exists w. split_and!; try done. simpl. change (ofNat 0) with 0. ring.
  - destruct (Hidx x y) as [Hx Hy]; [left|].
    destruct (tileAbiotic_spec htf w x y Hwf Hx Hy) as (tile0 & w1 & _ & Hw1 & _).
    destruct (tileAbiotic_atmosphere htf w w1 x y Hwf Hx Hy Hw1)
      as (tile & Htile & Hwf1 & Hat & Hother & Hn & Ho & Hm & _ & Hc).
    destruct (IH w1 Hwf1) as (w' & Hw' & Hwf' & Hget & Hn' & Ho' & Hm' & Hc').
    { intros x' y' Hin. apply Hidx. by right. }
    exists w'. cbn [forEach2]. rewrite Hw1. osimpl. split_and!; try done.
    + intros x' y'. rewrite Hget.
      destruct (decide (x' = x ∧ y' = y)) as [[-> ->]|Hne].
      * rewrite decide_False by done. rewrite decide_True by left.
        rewrite Hat, Htile. done.
      * rewrite Hother by done.
        destruct (decide ((x', y') ∈ idx)) as [Hin|Hin].
        -- rewrite decide_True by (by right).
           destruct (getTile w x' y') as [t|]; [|done]. osimpl.
           by rewrite !tileClimate_fst.
        -- rewrite decide_False; [done|].
           intros [[= -> ->]|?]%elem_of_cons; [by destruct Hne|done].
    + congruence.
    + congruence.
    + congruence.
    + rewrite Hc', Hc. cbn [countAt]. rewrite Htile.
      assert (Hcnt : countAt isRock w1 idx = countAt isRock w idx).
      { clear -Hother Hnotin. induction idx as [|[x' y'] idx IH']; [done|].
        cbn [countAt]. rewrite IH'.
        - rewrite Hother; [done|]. intros [-> ->]. apply Hnotin. left.
        - intros Hin. apply Hnotin. by right. }
      rewrite Hcnt, ofNat_plus.
      destruct (isWater tile) eqn:Hw.
      * rewrite (isWater_isRock tile Hw). change (ofNat 0) with 0. ring.
      * destruct (isRock tile).
        -- change (ofNat 1) with 1. ring.
        -- change (ofNat 0) with 0. ring.
Qed.

(** ** Geometric decay *)

Lemma decayed_iter_S n a : Nat.iter (S n) decayed a = decayed (Nat.iter n decayed a).
Proof. done. Qed.

Lemma decayed_iter_bounds (n : nat) (a : Qc) :
  0 ≤ a →
  0 ≤ Nat.iter n decayed a
  ∧ Nat.iter n decayed a ≤ a
  ∧ Nat.iter n decayed a * (num 99 1 + ofNat n) ≤ num 99 1 * a.
Proof.
  intros Ha. induction n as [|n (IH0 & IH1 & IH2)].
  - change (Nat.iter 0 decayed a) with a. change (ofNat 0) with 0.
    split_and!; [done|apply Qcle_refl|]. qc.
  - rewrite decayed_iter_S, ofNat_S. generalize dependent (Nat.iter n decayed a).
    intros y IH0 IH1 IH2. pose proof (ofNat_nonneg n) as Hn.
    generalize dependent (ofNat n). intros m IH2 Hm. unfold decayed.
    split_and!; qc.
Qed.

Lemma tileAbiotic_wf htf w w' (x y : nat) :
  (x < worldWidth)%nat → (y < worldHeight)%nat → wf w →
  tileAbiotic htf x y w = Some w' → wf w'.
Proof.
  intros Hx Hy Hwf Hrun.
  destruct (tileAbiotic_spec htf w x y Hwf Hx Hy) as (? & w2 & _ & Hw2 & Hwf2 & _).
  rewrite Hrun in Hw2. by injection Hw2 as <-.
Qed.

(** One abiotic tick: the gases, and the altitude and cover of a tile. *)
Lemma tickAbiotic_spec w :
  wf w →
  ∃ w', tickAbiotic w = Some w'
    ∧ wf w'
    ∧ nitrogen (atmosphere w') = decayed (nitrogen (atmosphere w))
    ∧ oxygen (atmosphere w') = decayed (oxygen (atmosphere w))
    ∧ methane (atmosphere w') = decayed (methane (atmosphere w))
    ∧ carbonDioxide (atmosphere w')
      = decayed (carbonDioxide (atmosphere w))
        + carbonPerLandTile * ofNat (countTiles isRock w)
    ∧ ∀ (x y : nat) tile',
        getTile w' x y = Some tile' →
        tileCover tile' = computeTileCover tile'
        ∧ ∃ tile, getTile w x y = Some tile
            ∧ altitude tile' = Math_max (altitude tile - erosionRate) 0.
Proof.
  intros Hwf. unfold tickAbiotic.
  set (w2 := beginTick w).
  set (htf := computeHeatTrappingFactor (computeTileAtmosphere (atmosphere w2))).
  destruct (abiotic_pass htf rasterOrder w2)
    as (w3 & Hw3 & Hwf3 & Hget3 & Hn & Ho & Hm & Hc);
    [done|apply NoDup_rasterOrder| |].
  { intros x y Hin. by apply elem_of_rasterOrder. }
  rewrite <- applyTiles_raster in Hw3;
    [|intros x y w5 w6; apply tileAbiotic_wf|done].
  rewrite Hw3. osimpl.
  destruct (heat_pass (λ _, True) w3) as (w4 & Hw4 & Hwf4 & _); [done..|].
  rewrite Hw4. osimpl.
  destruct (heat_pass_atmosphere w3 w4 Hwf3 Hw4) as (Ha4 & _).
  pose proof (same_heat_pass altitude w3 w4 (λ _ _, eq_refl) Hwf3 Hw4) as Halt.
  destruct (applyTiles_map (λ tile, set_tileCover (computeTileCover tile) tile) w4 Hwf4)
    as (w' & Hw' & Hwf' & Ha' & _ & _ & Hget').
  exists w'. split; [exact Hw'|]. split; [exact Hwf'|].
  rewrite Ha', Ha4, Hn, Ho, Hm, Hc.
  split; [done|]. split; [done|]. split; [done|]. split.
  - rewrite countAt_rasterOrder by done. done.
  - intros x y tile' Ht'. rewrite Hget' in Ht'.
    destruct (getTile w4 x y) as [t4|] eqn:Ht4; [|done].
    apply (inj Some) in Ht'. subst tile'. split; [done|].
    specialize (Halt x y). rewrite Ht4 in Halt.
    rewrite Hget3 in Halt.
    destruct (getTile_lt w4 x y Hwf4) as [Hx Hy]; [by rewrite Ht4|].
    rewrite decide_True in Halt by (by apply elem_of_rasterOrder).
    change (getTile w2 x y) with (getTile w x y) in Halt.
    destruct (getTile w x y) as [t|]; [|done].
    exists t. split; [done|]. osimpl in Halt. apply (inj Some) in Halt.
    cbn [set_tileCover altitude]. rewrite Halt, tileClimate_fst. done.
Qed.

(** The gases after [n] abiotic ticks. *)
Lemma ticksAbiotic_spec (n : nat) w :
  wf w →
  ∃ w', ticksAbiotic n w = Some w'
    ∧ wf w'
    ∧ nitrogen (atmosphere w') = Nat.iter n decayed (nitrogen (atmosphere w))
    ∧ oxygen (atmosphere w') = Nat.iter n decayed (oxygen (atmosphere w))
    ∧ methane (atmosphere w') = Nat.iter n decayed (methane (atmosphere w)).
Proof.
  revert w. induction n as [|n IH]; intros w Hwf.
  - exists w. by split_and!.
  - destruct (tickAbiotic_spec w Hwf) as (w1 & Hw1 & Hwf1 & Hn & Ho & Hm & _).
    destruct (IH w1 Hwf1) as (w' & Hw' & Hwf' & Hn' & Ho' & Hm').
    exists w'. cbn [ticksAbiotic]. rewrite Hw1. osimpl.
    split; [exact Hw'|]. split; [exact Hwf'|].
    rewrite Hn', Ho', Hm', Hn, Ho, Hm.
    split_and!; symmetry; apply Nat.iter_succ_r.
Qed.

(** ** Erosion removes the rock *)

Lemma gridMax_bound w : 0 ≤ gridMax w ∧ altBound (gridMax w) w.
Proof.
  assert (Hgen : ∀ l : list Tile,
            0 ≤ foldr (λ t acc, Math_max (altitude t) acc) 0 l
            ∧ ∀ t, In t l → altitude t ≤ foldr (λ t acc, Math_max (altitude t) acc) 0 l).
  { induction l as [|t l [IH0 IH]]; [split; [apply Qcle_refl|by intros ? []]|].
    cbn [foldr]. generalize dependent (foldr (λ t acc, Math_max (altitude t) acc) 0 l).
    intros m IH0 IH. split; [clear IH; qc|].
    intros t' [<-|Hin]; [clear IH; qc|]. specialize (IH t' Hin).
    clear -IH. qc. }
  split; [apply Hgen|]. intros x y t Ht. apply Hgen.
  unfold getTile in Ht. apply bind_Some in Ht as (col & Hcol & Ht).
  apply list_elem_of_lookup_2, list_elem_of_In in Hcol, Ht.
  apply in_concat. eauto.
Qed.

Lemma ticksAbiotic_S_r (n : nat) w :
  ticksAbiotic (S n) w = ticksAbiotic n w ≫= tickAbiotic.
Proof.
  revert w. induction n as [|n IH]; intros w.
  - cbn [ticksAbiotic]. osimpl. by destruct (tickAbiotic w).
  - change (ticksAbiotic (S (S n)) w) with (tickAbiotic w ≫= ticksAbiotic (S n)).
    change (ticksAbiotic (S n) w) with (tickAbiotic w ≫= ticksAbiotic n).
    destruct (tickAbiotic w) as [w1|]; [|done]. osimpl. apply IH.
Qed.

Lemma eroded_bound (B a : Qc) (n : nat) :
  a ≤ Math_max (B - erosionRate * ofNat n) 0 →
  Math_max (a - erosionRate) 0 ≤ Math_max (B - erosionRate * ofNat (S n)) 0.
Proof.
  rewrite ofNat_S. generalize (ofNat n). intros m H. qc.
Qed.

(** The state after [n] abiotic ticks. *)
Lemma ticksAbiotic_inv (n : nat) (B : Qc) w :
  wf w → altBound B w → 0 ≤ carbonDioxide (atmosphere w) →
  ∃ w', ticksAbiotic n w = Some w'
    ∧ wf w'
    ∧ altBound (Math_max (B - erosionRate * ofNat n) 0) w'
    ∧ ((1 ≤ n)%nat → classified w')
    ∧ 0 ≤ carbonDioxide (atmosphere w').
Proof.
  intros Hwf Hb Hc. induction n as [|n (w1 & Hw1 & Hwf1 & Hb1 & Hcl1 & Hc1)].
  - exists w. split_and!; try done; [|lia].
    intros x y t Ht. specialize (Hb x y t Ht). change (ofNat 0) with 0.
    clear -Hb. qc.
  - destruct (tickAbiotic_spec w1 Hwf1)
      as (w2 & Hw2 & Hwf2 & _ & _ & _ & Hco2 & Htiles).
    exists w2. rewrite ticksAbiotic_S_r, Hw1. osimpl.
    split; [exact Hw2|]. split; [exact Hwf2|]. split_and!.
    + intros x y t' Ht'. destruct (Htiles x y t' Ht') as (_ & t & Ht & ->).
      apply eroded_bound. by apply (Hb1 x y).
    + intros _ x y t' Ht'. by destruct (Htiles x y t' Ht').
    + rewrite Hco2. pose proof (decay_nonneg _ Hc1) as Hd.
      pose proof (vapour_nonneg (countTiles isRock w1)) as Hv.
      unfold decayed. unfold waterVaporPerOceanTile in Hv. unfold carbonPerLandTile.
      generalize dependent (ofNat (countTiles isRock w1)). intros m Hm.
      clear -Hd Hm. qc.
Qed.

Lemma wf_rockWorld : wf rockWorld.
Proof. apply wfb_wf. vm_compute. reflexivity. Qed.

Lemma rockWorld_rock : countTiles isRock rockWorld = (100 * 100)%nat.
Proof. vm_compute. reflexivity. Qed.

(** C10, counterexample.  With neither eruptions nor biomass, a tick over
    [rockWorld] raises the carbon dioxide from 0: each of the 10000 Rock
    tiles adds [carbonPerLandTile] to the pool. *)
Lemma co2_rises_over_rock :
  ∃ w', tickAbiotic rockWorld = Some w'
    ∧ carbonDioxide (atmosphere rockWorld) < carbonDioxide (atmosphere w').
Proof.
  destruct (tickAbiotic_spec rockWorld wf_rockWorld)
    as (w' & Hw' & _ & _ & _ & _ & Hco2 & _).
  exists w'. split; [exact Hw'|]. rewrite Hco2, rockWorld_rock.
  vm_compute. reflexivity.
Qed.

(** ** Tiles of a given cover *)

Lemma elem_of_grid w t :
  t ∈ concat (tiles w) ↔ ∃ x y : nat, getTile w x y = Some t.
Proof.
  rewrite list_elem_of_In, in_concat. split.
  - intros (col & Hcol & Ht). apply list_elem_of_In in Hcol, Ht.
    apply list_elem_of_lookup in Hcol as [x Hx], Ht as [y Hy].
    exists x, y. unfold getTile. by rewrite Hx.
  - intros (x & y & Hg). unfold getTile in Hg.
    apply bind_Some in Hg as (col & Hcol & Ht).
    apply list_elem_of_lookup_2, list_elem_of_In in Hcol, Ht. eauto.
Qed.

Lemma covered_none (c : TileCover) w :
  (∀ (x y : nat) t, getTile w x y = Some t → tileCover t ≠ c) → covered c w = 0%nat.
Proof.
  intros Hno. unfold covered.
  assert (Hall : ∀ t, t ∈ concat (tiles w) → tileCover t ≠ c).
  { intros t Ht. apply elem_of_grid in Ht as (x & y & Hg). by apply (Hno x y). }
  induction (concat (tiles w)) as [|t l IH]; [done|].
  rewrite filter_cons. rewrite decide_False by (apply Hall; left).
  apply IH. intros t' Ht'. apply Hall. by right.
Qed.

Lemma covered_some (c : TileCover) w (x y : nat) t :
  getTile w x y = Some t → tileCover t = c → (1 ≤ covered c w)%nat.
Proof.
  intros Hg Hc. unfold covered.
  assert (Hin : t ∈ filter (λ t, tileCover t = c) (concat (tiles w))).
  { apply list_elem_of_filter. split; [done|]. apply elem_of_grid. eauto. }
  destruct (filter _ _) as [|a l]; [by apply elem_of_nil in Hin|]. cbn. lia.
Qed.

Lemma countTiles_isRock w : countTiles isRock w = covered Rock w.
Proof. apply (countTiles_covered Rock). Qed.

(** From altitudes that do not exceed [maxAltitude], erosion has taken
    every tile below sea level after 1001 abiotic ticks. *)
Lemma eroded_below_sea (n : nat) :
  (1001 ≤ n)%nat → Math_max (maxAltitude - erosionRate * ofNat n) 0 < seaLevel.
Proof.
  intros Hn. apply ofNat_le in Hn. change (ofNat 1001) with (num 1001 1) in Hn.
  generalize dependent (ofNat n). intros m Hm. qc.
Qed.

(** C10, amended.  With neither eruptions nor biomass, from a start with
    nonnegative quantities, on every tick: nitrogen, oxygen and methane
    become [quantity - quantity * atmosphereLossRate], which is neither
    negative nor more than before; carbon dioxide stays nonnegative and ends
    at its decayed value [quantity - quantity * atmosphereLossRate] or above
    — at that value, and so not above the quantity before, on a tick that
    starts without Rock tiles, and at least [carbonPerLandTile] above it on a
    tick that starts with a Rock tile.  When no altitude exceeds
    [maxAltitude], no tile is Rock after 1001 ticks or more, so that from
    then on carbon dioxide does not increase either. *)
Theorem abiotic_gases_decay w :
  wf w →
  0 ≤ nitrogen (atmosphere w) → 0 ≤ oxygen (atmosphere w) →
  0 ≤ carbonDioxide (atmosphere w) → 0 ≤ methane (atmosphere w) →
  (∀ n : nat, ∃ w1 w2,
      ticksAbiotic n w = Some w1 ∧ tickAbiotic w1 = Some w2
      ∧ ticksAbiotic (S n) w = Some w2
      ∧ (let a1 := atmosphere w1 in
         let a2 := atmosphere w2 in
         nitrogen a2 = nitrogen a1 - nitrogen a1 * atmosphereLossRate
         ∧ 0 ≤ nitrogen a2 ∧ nitrogen a2 ≤ nitrogen a1
         ∧ oxygen a2 = oxygen a1 - oxygen a1 * atmosphereLossRate
         ∧ 0 ≤ oxygen a2 ∧ oxygen a2 ≤ oxygen a1
         ∧ methane a2 = methane a1 - methane a1 * atmosphereLossRate
         ∧ 0 ≤ methane a2 ∧ methane a2 ≤ methane a1
         ∧ 0 ≤ carbonDioxide a2
         ∧ carbonDioxide a1 - carbonDioxide a1 * atmosphereLossRate
           ≤ carbonDioxide a2
         ∧ ((∀ (x y : nat) t, getTile w1 x y = Some t → tileCover t ≠ Rock) →
            carbonDioxide a2
            = carbonDioxide a1 - carbonDioxide a1 * atmosphereLossRate
            ∧ carbonDioxide a2 ≤ carbonDioxide a1)
         ∧ ((∃ (x y : nat) t, getTile w1 x y = Some t ∧ tileCover t = Rock) →
            carbonDioxide a1 - carbonDioxide a1 * atmosphereLossRate
            + carbonPerLandTile ≤ carbonDioxide a2)))
  ∧ ((∀ (x y : nat) t, getTile w x y = Some t → altitude t ≤ maxAltitude) →
     ∀ n : nat, (1001 ≤ n)%nat →
       ∃ w1, ticksAbiotic n w = Some w1
         ∧ ∀ (x y : nat) t, getTile w1 x y = Some t → tileCover t ≠ Rock).
Proof.
  intros Hwf Hn Ho Hc Hm. split.
  - intros n.
    destruct (ticksAbiotic_spec n w Hwf) as (w1 & Hw1 & Hwf1 & Hn1 & Ho1 & Hm1).
    destruct (gridMax_bound w) as [_ HB].
    destruct (ticksAbiotic_inv n (gridMax w) w Hwf HB Hc)
      as (w1' & Hw1' & _ & _ & _ & Hc1).
    rewrite Hw1 in Hw1'. apply (inj Some) in Hw1'. subst w1'.
    destruct (ticksAbiotic_inv (S n) (gridMax w) w Hwf HB Hc)
      as (w2 & Hw2 & _ & _ & _ & Hc2).
    assert (Hstep : tickAbiotic w1 = Some w2).
    { rewrite ticksAbiotic_S_r, Hw1 in Hw2. exact Hw2. }
    destruct (tickAbiotic_spec w1 Hwf1)
      as (w2' & Hw2' & _ & Hn2 & Ho2 & Hm2 & Hco2 & _).
    rewrite Hstep in Hw2'. apply (inj Some) in Hw2'. subst w2'.
    destruct (decayed_iter_bounds n _ Hn) as (Hn0 & _ & _).
    destruct (decayed_iter_bounds n _ Ho) as (Ho0 & _ & _).
    destruct (decayed_iter_bounds n _ Hm) as (Hm0 & _ & _).
    rewrite <- Hn1 in Hn0. rewrite <- Ho1 in Ho0. rewrite <- Hm1 in Hm0.
    rewrite countTiles_isRock in Hco2.
    exists w1, w2. split; [exact Hw1|]. split; [exact Hstep|]. split; [exact Hw2|].
    cbv zeta. rewrite Hn2, Ho2, Hm2. unfold decayed in *.
    split; [done|]. split; [by apply decay_nonneg|]. split; [by apply decay_le|].
    split; [done|]. split; [by apply decay_nonneg|]. split; [by apply decay_le|].
    split; [done|]. split; [by apply decay_nonneg|]. split; [by apply decay_le|].
    split; [exact Hc2|].
    pose proof (decay_le _ Hc1) as Hle.
    pose proof (ofNat_nonneg (covered Rock w1)) as Hcnt.
    split_and!.
    + rewrite Hco2. unfold carbonPerLandTile.
      generalize dependent (ofNat (covered Rock w1)).
      generalize (carbonDioxide (atmosphere w1)). intros c m _ Hm'. clear -Hm'. qc.
    + intros Hno. rewrite Hco2, (covered_none Rock w1 Hno).
      change (ofNat 0) with 0.
      generalize dependent (carbonDioxide (atmosphere w1)). intros c _ _ Hle.
      split; [ring|]. clear -Hle. qc.
    + intros (x & y & t & Hg & Hr).
      pose proof (covered_some Rock w1 x y t Hg Hr) as H1.
      apply ofNat_le in H1. change (ofNat 1) with 1 in H1.
      rewrite Hco2. unfold carbonPerLandTile.
      generalize dependent (ofNat (covered Rock w1)).
      generalize (carbonDioxide (atmosphere w1)). intros c m _ _ Hm'. clear -Hm'. qc.
  - intros Halt n Hlate.
    destruct (ticksAbiotic_inv n maxAltitude w Hwf Halt Hc)
      as (w1 & Hw1 & Hwf1 & Hb1 & Hcl1 & _).
    exists w1. split; [exact Hw1|]. intros x y t Hg Hrock.
    rewrite (Hcl1 ltac:(lia) x y t Hg) in Hrock.
    pose proof (Hb1 x y t Hg) as Hb.
    pose proof (eroded_below_sea n Hlate) as Hsea.
    assert (Hlt : altitude t < seaLevel) by (eapply Qcle_lt_trans; eassumption).
    unfold computeTileCover in Hrock. apply ltb_lt in Hlt. rewrite Hlt in Hrock.
    by destruct (gtb (heat t) freezingPoint).
Qed.

Lemma mistyPond_altitudes (x y : nat) t :
  getTile mistyPond x y = Some t → altitude t ≤ maxAltitude.
Proof.
  intros Hg.
  apply (tiles_check (λ t, leb (altitude t) maxAltitude) mistyPond) in Hg.
  - by apply leb_le.
  - vm_compute. reflexivity.
Qed.

Lemma abiotic_gases_decay_witness :
  wf mistyPond
  ∧ 0 ≤ nitrogen (atmosphere mistyPond) ∧ 0 ≤ oxygen (atmosphere mistyPond)
  ∧ 0 ≤ carbonDioxide (atmosphere mistyPond) ∧ 0 ≤ methane (atmosphere mistyPond)
  ∧ (∃ w2, tickAbiotic mistyPond = Some w2
       ∧ nitrogen (atmosphere w2) = num 99 1
       ∧ oxygen (atmosphere w2) = num 198 10
       ∧ methane (atmosphere w2) = num 495 10
       ∧ num 99001 1 ≤ carbonDioxide (atmosphere w2))
  ∧ ∃ w1, ticksAbiotic 1001 mistyPond = Some w1
      ∧ ∀ (x y : nat) t, getTile w1 x y = Some t → tileCover t ≠ Rock.
Proof.
  split; [exact wf_mistyPond|].
  do 4 (split; [by vm_compute|]).
  destruct (abiotic_gases_decay mistyPond wf_mistyPond) as [Hstep Hlate];
    [by vm_compute..|].
  split.
  - destruct (Hstep 0%nat)
      as (w1 & w2 & Hw1 & Htick & _ & Hn & _ & _ & Ho & _ & _ & Hm & _ & _ & _ & _
          & _ & Hrock).
    injection Hw1 as <-. exists w2. split; [exact Htick|].
    rewrite Hn, Ho, Hm.
    split; [by apply Qc_is_canon|]. split; [by apply Qc_is_canon|].
    split; [by apply Qc_is_canon|].
    eapply Qcle_trans; [|apply Hrock].
    + by vm_compute.
    + exists 0%nat, 0%nat, rockTile. split; [by vm_compute|reflexivity].
  - apply (Hlate mistyPond_altitudes 1001%nat). lia.
Defined.

(** * Further properties of the code *)
(** ** Visits of the per-tile pass *)

(** What a call of [transferProkaryotes] can do to a tile: nothing, or a
    new population on a tile that passes [canProkaryotesSurvive]. *)
Ltac tile_case :=
  eexists; split; [reflexivity|];
  first [by left | right; split; [done|]; eexists; reflexivity].

Lemma transferProkaryotes_tiles w (x y : nat) :
  wf w → (x < worldWidth)%nat → (y < worldHeight)%nat →
  ∃ w', transferProkaryotes x y w = Some w' ∧ wf w'
    ∧ atmosphere w' = atmosphere w ∧ worldBiomass w' = worldBiomass w
    ∧ drawn w' = drawn w
    ∧ ∀ (x' y' : nat) t, getTile w x' y' = Some t →
        ∃ t', getTile w' x' y' = Some t'
          ∧ (t' = t ∨ (canProkaryotesSurvive t = true
                       ∧ ∃ v, t' = set_prokaryote v t)).
Proof.
  intros Hwf Hx Hy.
  destruct (transferProkaryotes_spec w x y Hwf Hx Hy)
    as (tile & tileE & w' & Ht & HtE & Hrun & Hwf' & Ha & Hb & Hd & Hspec).
  cbv zeta in Hspec. destruct Hspec as (HE & Hlast & Hsouth & Hother).
  exists w'. split; [exact Hrun|]. split; [exact Hwf'|].
  split; [exact Ha|]. split; [exact Hb|]. split; [exact Hd|].
  intros x' y' t Hg.
  destruct (decide (x' = x ∧ y' = y)) as [[-> ->]|Hn1].
  { rewrite Ht in Hg. apply (inj Some) in Hg. subst t.
    destruct (decide (y + 1 = worldHeight)%nat) as [Hl|Hl].
    - rewrite (Hlast Hl).
      destruct (canProkaryotesSurvive tile) eqn:Hc; cbn [andb].
      + repeat case_match; tile_case.
      + tile_case.
    - destruct Hsouth as (tileS & HtS & HS & Hself); [lia|]. rewrite Hself.
      destruct (canProkaryotesSurvive tile) eqn:Hc; cbn [andb].
      + repeat case_match; tile_case.
      + tile_case. }
  destruct (decide (x' = (x + 1) mod worldWidth ∧ y' = y)) as [[-> ->]|Hn2].
  { rewrite HtE in Hg. apply (inj Some) in Hg. subst t. rewrite HE.
    destruct (canProkaryotesSurvive tileE) eqn:Hc;
      rewrite ?andb_false_r; cbn [andb]; [|tile_case].
    repeat case_match; tile_case. }
  destruct (decide (x' = x ∧ y' = (y + 1)%nat)) as [[-> ->]|Hn3].
  { destruct (getTile_lt w x (y + 1)%nat Hwf) as [_ Hlt]; [by rewrite Hg|].
    destruct (Hsouth Hlt) as (tileS & HtS & HS & _).
    rewrite HtS in Hg. apply (inj Some) in Hg. subst t. rewrite HS.
    destruct (canProkaryotesSurvive tileS) eqn:Hc;
      rewrite ?andb_false_r; cbn [andb]; [|tile_case].
    repeat case_match; tile_case. }
  rewrite (Hother x' y' Hn1 Hn2 Hn3), Hg. tile_case.
Qed.

(** The tile a visit of the per-tile pass leaves before the population
    diffusion. *)
Lemma tileLocal_tile rand ta htf tile a k b :
  ∃ p,
    (applyBiomass (abiogenesis rand (tileClimate htf tile a).1 k).1 ta
       (tileClimate htf tile a).2 b).1.1
    = mkTile (Math_max (altitude tile - erosionRate) 0) (baseLuminosity tile)
        (computeHeat tile (computeLuminosity tile) htf) (tileCover tile)
        (mkBiomass p p)
    ∧ p = grownPopulation (abiogenesis rand (tileClimate htf tile a).1 k).1 ta.
Proof.
  eexists. split; [|reflexivity]. rewrite applyBiomass_eq. cbv zeta. cbn [fst snd].
  rewrite tileClimate_fst.
  destruct (abiogenesis_cases rand
              (mkTile (Math_max (altitude tile - erosionRate) 0) (baseLuminosity tile)
                 (computeHeat tile (computeLuminosity tile) htf) (tileCover tile)
                 (biomass tile)) k) as [->| [->|(-> & _)]]; reflexivity.
Qed.

(** A visit of the per-tile pass, tile by tile. *)
Lemma tileStep_tiles rand ta htf w (x y : nat) :
  wf w → (x < worldWidth)%nat → (y < worldHeight)%nat →
  ∃ tile w',
    getTile w x y = Some tile
    ∧ tileStep rand ta htf x y w = Some w'
    ∧ wf w'
    ∧ let c := tileClimate htf tile (atmosphere w) in
      let ab := abiogenesis rand c.1 (drawn w) in
      let r := applyBiomass ab.1 ta c.2 (worldBiomass w) in
      atmosphere w' = r.1.2
      ∧ worldBiomass w' = r.2
      ∧ drawn w' = ab.2
      ∧ ∀ (x' y' : nat) t, getTile w x' y' = Some t →
          let t0 := if decide (x' = x ∧ y' = y) then r.1.1 else t in
          ∃ t', getTile w' x' y' = Some t'
            ∧ (t' = t0 ∨ (canProkaryotesSurvive t0 = true
                          ∧ ∃ v, t' = set_prokaryote v t0)).
Proof.
  intros Hwf Hx Hy.
  destruct (tileLocal_spec rand ta htf w x y Hwf Hx Hy)
    as (tile & w1 & Ht & Hrun1 & Hwf1 & Hspec).
  cbv zeta in Hspec. destruct Hspec as (Ha1 & Hb1 & Hd1 & Hself & Hother).
  destruct (transferProkaryotes_tiles w1 x y Hwf1 Hx Hy)
    as (w2 & Hrun2 & Hwf2 & Ha2 & Hb2 & Hd2 & Htiles).
  exists tile, w2. split; [exact Ht|]. split.
  { unfold tileStep. rewrite Hrun1. osimpl. exact Hrun2. }
  split; [exact Hwf2|]. cbv zeta.
  split; [by rewrite Ha2|]. split; [by rewrite Hb2|]. split; [by rewrite Hd2|].
  intros x' y' t Hg. destruct (decide (x' = x ∧ y' = y)) as [[-> ->]|Hne].
  - exact (Htiles x y _ Hself).
  - apply Htiles. rewrite (Hother x' y' Hne). exact Hg.
Qed.

(** A pass that visits every position of [idx] once: the visit of a tile
    establishes [R] between the projection [π] of the tile before the visit
    and the tile after it; the visits of the other tiles keep [π] and [R]. *)
Lemma forEach2_visit {A} (π : Tile → A) (R : A → Tile → Prop)
    (f : nat → nat → World → option World) (idx : list (nat * nat)) w :
  NoDup idx →
  (∀ (x y : nat) w, (x, y) ∈ idx → wf w →
     ∃ w', f x y w = Some w' ∧ wf w'
       ∧ ∀ (x' y' : nat) t, getTile w x' y' = Some t →
           ∃ t', getTile w' x' y' = Some t'
             ∧ if decide (x' = x ∧ y' = y) then R (π t) t'
               else π t' = π t ∧ ∀ a, R a t → R a t') →
  wf w →
  ∃ w', forEach2 idx f w = Some w' ∧ wf w'
    ∧ ∀ (x y : nat) t, getTile w x y = Some t →
        ∃ t', getTile w' x y = Some t'
          ∧ if decide ((x, y) ∈ idx) then R (π t) t'
            else π t' = π t ∧ ∀ a, R a t → R a t'.
Proof.
  intros Hnd Hstep. revert w.
  induction idx as [|[x y] idx IH]; intros w Hwf.
  { exists w. split; [done|]. split; [done|]. intros x y t Hg. exists t.
    split; [done|]. rewrite decide_False by apply not_elem_of_nil. done. }
  apply list.NoDup_cons in Hnd as [Hnin Hnd].
  destruct (Hstep x y w) as (w1 & Hrun1 & Hwf1 & Ht1); [left|done|].
  destruct (IH Hnd) with (w := w1) as (w' & Hrun & Hwf' & Ht'); [|done|].
  { intros x0 y0 w0 Hin. apply Hstep. by right. }
  exists w'. split; [cbn [forEach2]; rewrite Hrun1; osimpl; exact Hrun|].
  split; [done|]. intros x0 y0 t Hg.
  destruct (Ht1 x0 y0 t Hg) as (t1 & Hg1 & H1).
  destruct (Ht' x0 y0 t1 Hg1) as (t' & Hg' & H'). exists t'. split; [done|].
  destruct (decide (x0 = x ∧ y0 = y)) as [[-> ->]|Hne].
  - rewrite decide_True by left.
    rewrite decide_False in H' by done. destruct H' as [_ HR]. by apply HR.
  - destruct H1 as [Hπ HR1]. destruct (decide ((x0, y0) ∈ idx)) as [Hin|Hin].
    + rewrite decide_True by (by right). by rewrite <- Hπ.
    + destruct H' as [Hπ' HR']. rewrite decide_False.
      * split; [congruence|]. intros a Ha. by apply HR', HR1.
      * intros [Heq|?]%elem_of_cons; [|done]. injection Heq as -> ->. by apply Hne.
Qed.

(** ** The tile a visit leaves *)

Lemma grownPopulation_le_capacity t ta : grownPopulation t ta ≤ capacity t.
Proof.
  unfold grownPopulation, capacity. cbv zeta.
  generalize (baseLuminosity t * fullLuminosityHeat * photosynthticBiomassPerEnergy).
  intros c.
  match goal with |- Math_min ?a c ≤ c => generalize a end.
  intros a. unfold Math_min. destruct (ltb c a) eqn:H; [apply Qcle_refl|].
  by apply ltb_ge in H.
Qed.

Lemma grownPopulation_zero t ta :
  0 ≤ baseLuminosity t →
  gtb (heat t) unlivableTemperature || negb (cover_eqb (tileCover t) Water)
  || eqb (carbonDioxide ta) 0 = true →
  grownPopulation t ta = 0.
Proof.
  intros Hl Hc. unfold grownPopulation. cbv zeta. rewrite Hc.
  match goal with |- context [Math_min (_ * _) ?r] =>
    generalize (Math_min (carbonDioxide ta * r) r) end.
  intros m. replace (0 + 0 * m) with 0 by ring.
  assert (Hcap : 0 ≤ baseLuminosity t * fullLuminosityHeat
                     * photosynthticBiomassPerEnergy).
  { generalize dependent (baseLuminosity t). intros l Hl. clear -Hl. qc. }
  unfold Math_min.
  destruct (ltb _ 0) eqn:H; [|done]. apply ltb_lt in H.
  exfalso. by apply (Qclt_not_le _ _ H).
Qed.

Lemma abiogenesis_ground rand t k :
  ground (abiogenesis rand t k).1 = ground t.
Proof.
  by destruct (abiogenesis_cases rand t k) as [->| [->|(-> & _)]].
Qed.

Lemma visit_population rand ta htf tile a k :
  let p := grownPopulation (abiogenesis rand (tileClimate htf tile a).1 k).1 ta in
  p ≤ capacity tile
  ∧ (0 ≤ baseLuminosity tile →
     tileCover tile ≠ Water
     ∨ unlivableTemperature < computeHeat tile (computeLuminosity tile) htf
     ∨ carbonDioxide ta = 0 →
     p = 0).
Proof.
  cbv zeta.
  pose proof (abiogenesis_ground rand (tileClimate htf tile a).1 k) as Hg.
  rewrite tileClimate_fst in Hg |- *.
  set (t1 := (abiogenesis rand _ k).1) in *.
  apply (f_equal baseLuminosity) in Hg as Hl.
  apply (f_equal heat) in Hg as Hh.
  apply (f_equal tileCover) in Hg as Hc.
  cbn [ground baseLuminosity heat tileCover] in Hl, Hh, Hc. split.
  - pose proof (grownPopulation_le_capacity t1 ta) as Hle.
    unfold capacity in *. by rewrite Hl in Hle.
  - intros Hlum Hcond. apply grownPopulation_zero; [by rewrite Hl|].
    rewrite Hh, Hc. destruct Hcond as [Hw| [Hu|Hz]].
    + destruct (cover_eqb (tileCover tile) Water) eqn:Heq.
      * by apply cover_eqb_eq in Heq.
      * by rewrite orb_true_r.
    + apply ltb_lt in Hu. unfold gtb. by rewrite Hu.
    + apply eqb_eq in Hz. rewrite Hz. by rewrite orb_true_r.
Qed.

Lemma afterVisit_ground htf ta t t' :
  afterVisit htf ta (ground t) t' ↔ afterVisit htf ta t t'.
Proof. done. Qed.

Lemma canProkaryotesSurvive_inv t :
  canProkaryotesSurvive t = true →
  heat t < unlivableTemperature ∧ tileCover t = Water.
Proof.
  unfold canProkaryotesSurvive. by rewrite andb_true_iff, ltb_lt, cover_eqb_eq.
Qed.

(** A population exchange keeps what the visit of a tile established. *)
Lemma afterVisit_exchange htf ta a t t' :
  t' = t ∨ (canProkaryotesSurvive t = true ∧ ∃ v, t' = set_prokaryote v t) →
  ground t' = ground t ∧ (afterVisit htf ta a t → afterVisit htf ta a t').
Proof.
  intros [->|(Hs & v & ->)]; [done|]. split; [done|].
  intros (Halt & Hlum & Hheat & Hcov & Hcap & Hz & Hdead).
  split_and!; try assumption.
  intros Hl Hcond. exfalso.
  apply canProkaryotesSurvive_inv in Hs as [Hs1 Hs2].
  destruct Hcond as [Hw|Hu].
  - apply Hw. by rewrite <- Hcov.
  - cbn [set_prokaryote heat] in Hu. by apply (Qclt_not_le _ _ Hu), Qclt_le_weak.
Qed.

(** One visit of the per-tile pass. *)
Lemma tileStep_visit rand ta htf (x y : nat) w :
  (x < worldWidth)%nat → (y < worldHeight)%nat → wf w →
  ∃ w', tileStep rand ta htf x y w = Some w' ∧ wf w'
    ∧ ∀ (x' y' : nat) t, getTile w x' y' = Some t →
        ∃ t', getTile w' x' y' = Some t'
          ∧ if decide (x' = x ∧ y' = y) then afterVisit htf ta (ground t) t'
            else ground t' = ground t
                 ∧ ∀ a, afterVisit htf ta a t → afterVisit htf ta a t'.
Proof.
  intros Hx Hy Hwf.
  destruct (tileStep_tiles rand ta htf w x y Hwf Hx Hy)
    as (tile & w' & Ht & Hrun & Hwf' & Hspec).
  cbv zeta in Hspec. destruct Hspec as (_ & _ & _ & Htiles).
  exists w'. split; [exact Hrun|]. split; [exact Hwf'|].
  intros x' y' t Hg. destruct (Htiles x' y' t Hg) as (t' & Hg' & Hcase).
  exists t'. split; [exact Hg'|].
  destruct (decide (x' = x ∧ y' = y)) as [[-> ->]|Hne].
  - rewrite Ht in Hg. apply (inj Some) in Hg. subst t.
    destruct (tileLocal_tile rand ta htf tile (atmosphere w) (drawn w)
                (worldBiomass w)) as (p & Heq & Hp).
    rewrite Heq in Hcase.
    destruct (visit_population rand ta htf tile (atmosphere w) (drawn w))
      as [Hcap Hzero].
    rewrite <- Hp in Hcap, Hzero. clear Heq Hp Htiles.
    set (t0 := mkTile _ _ _ _ (mkBiomass p p)) in *.
    assert (H0 : afterVisit htf ta tile t0).
    { unfold afterVisit, t0. cbn [altitude baseLuminosity heat tileCover biomass
                                   total prokaryote].
      split_and!; try reflexivity.
      - exact Hcap.
      - intros Hl Hz. apply Hzero; auto.
      - intros Hl Hc. split; apply Hzero; tauto. }
    apply afterVisit_ground.
    by apply (afterVisit_exchange htf ta tile t0 t' Hcase).
  - split; [by apply (afterVisit_exchange htf ta t t t' Hcase)|].
    intros a. by apply (afterVisit_exchange htf ta a t t' Hcase).
Qed.

(** The per-tile pass of a tick, tile by tile. *)
Lemma perTile_pass_tiles rand ta htf w :
  wf w →
  ∃ w', applyTiles (tileStep rand ta htf) w = Some w' ∧ wf w'
    ∧ ∀ (x y : nat) t, getTile w x y = Some t →
        ∃ t', getTile w' x y = Some t' ∧ afterVisit htf ta t t'.
Proof.
  intros Hwf.
  destruct (forEach2_visit ground (afterVisit htf ta) (tileStep rand ta htf)
              rasterOrder w NoDup_rasterOrder) as (w' & Hrun & Hwf' & Htiles).
  { intros x y w0 [Hx Hy]%elem_of_rasterOrder Hwf0.
    by apply tileStep_visit. }
  { exact Hwf. }
  exists w'. split.
  { rewrite applyTiles_raster; [exact Hrun| |exact Hwf].
    intros x y w1 w2 Hx Hy Hwf1 Hr. by apply (tileStep_wf rand ta htf w1 w2 x y). }
  split; [exact Hwf'|]. intros x y t Hg.
  destruct (Htiles x y t Hg) as (t' & Hg' & H). exists t'. split; [exact Hg'|].
  rewrite decide_True in H; [by apply afterVisit_ground|].
  apply elem_of_rasterOrder. apply (getTile_lt w x y Hwf). by rewrite Hg.
Qed.

(** ** Heat diffusion keeps the range of the heats *)

Lemma average_between (lo hi a b : Qc) :
  lo ≤ a ∧ a ≤ hi → lo ≤ b ∧ b ≤ hi → lo ≤ (a + b) / 2 ∧ (a + b) / 2 ≤ hi.
Proof. intros [? ?] [? ?]. split; qc. Qed.

Lemma transferHeat_between (lo hi : Qc) (x y : nat) w w' :
  (x < worldWidth)%nat → (y < worldHeight)%nat → wf w →
  heatBetween lo hi w → transferHeat x y w = Some w' → heatBetween lo hi w'.
Proof.
  intros Hx Hy Hwf Hb Hrun.
  destruct (transferHeat_spec w x y Hwf Hx Hy)
    as (tile & tileE & w2 & Ht & HtE & Hrun2 & _ & _ & _ & _ & Hspec).
  rewrite Hrun in Hrun2. apply (inj Some) in Hrun2. subst w2.
  cbv zeta in Hspec. destruct Hspec as (HE & Hsouth & Hlast & Hother).
  pose proof (Hb _ _ _ Ht) as Bt. pose proof (Hb _ _ _ HtE) as BE.
  pose proof (average_between lo hi _ _ Bt BE) as BavgE.
  intros x' y' t' Hg'.
  destruct (decide (x' = x ∧ y' = y)) as [[-> ->]|Hn1].
  { destruct (decide (y + 1 = worldHeight)%nat) as [Hl|Hl].
    - rewrite (Hlast Hl) in Hg'. apply (inj Some) in Hg'. by subst t'.
    - destruct Hsouth as (tileS & HtS & _ & Hself); [lia|].
      rewrite Hself in Hg'. apply (inj Some) in Hg'. subst t'.
      pose proof (Hb _ _ _ HtS) as BS. cbn [set_heat heat].
      apply average_between; [done|]. by apply average_between. }
  destruct (decide (x' = (x + 1) mod worldWidth ∧ y' = y)) as [[-> ->]|Hn2].
  { rewrite HE in Hg'. apply (inj Some) in Hg'. by subst t'. }
  destruct (decide (x' = x ∧ y' = (y + 1)%nat)) as [[-> ->]|Hn3].
  { destruct (getTile_lt w' x (y + 1)%nat) as [_ Hlt].
    { eapply transferHeat_wf; [| | |exact Hrun]; done. }
    { by rewrite Hg'. }
    destruct (Hsouth Hlt) as (tileS & HtS & HS & _).
    rewrite HS in Hg'. apply (inj Some) in Hg'. subst t'.
    pose proof (Hb _ _ _ HtS) as BS. cbn [set_heat heat].
    by apply average_between. }
  rewrite (Hother x' y' Hn1 Hn2 Hn3) in Hg'. by apply (Hb x' y').
Qed.

Lemma heat_pass_between (lo hi : Qc) w :
  wf w → heatBetween lo hi w →
  ∃ w', applyTiles transferHeat w = Some w' ∧ wf w' ∧ heatBetween lo hi w'.
Proof.
  intros Hwf Hb. apply (heat_pass (heatBetween lo hi)); [|done..].
  intros x y w1 w2 Hx Hy Hwf1 Hb1 Hrun.
  exact (transferHeat_between lo hi x y w1 w2 Hx Hy Hwf1 Hb1 Hrun).
Qed.

(** ** The eruption, tile by tile *)

Lemma eruptVolcano_tiles sqrt rand w :
  wf w → unitInterval rand →
  ∃ w1, eruptVolcano sqrt rand w = Some w1 ∧ wf w1
    ∧ atmosphere w1 = atmosphere w
    ∧ worldBiomass w1 = worldBiomass w
    ∧ drawn w1 = S (S (S (drawn w)))
    ∧ ∀ (x y : nat) t, getTile w x y = Some t →
        ∃ t1 val, getTile w1 x y = Some t1 ∧ 0 ≤ val ∧ (t1 = t ∨ t1 = raise val t).
Proof.
  intros Hwf Hr.
  destruct (eruptVolcano_spec sqrt rand w Hwf Hr)
    as (w1 & Hrun & Hwf1 & Ha & Hb & Hd & Hout & Hin).
  cbv zeta in Hout, Hin.
  set (bx := Z.to_nat (getRandomX rand (drawn w))) in *.
  set (by' := Z.to_nat (getRandomY rand (S (drawn w)))) in *.
  set (up := volcanoMinUpthrust + _) in *.
  assert (Hup : 0 ≤ up).
  { unfold up. pose proof (upthrust_range rand (S (S (drawn w))) Hr) as [H0 _].
    apply ofZ_le in H0. change (ofZ 0) with 0 in H0.
    generalize dependent
      (ofZ (Math_floor (volcanoUpthrustVariation * rand (S (S (drawn w)))))).
    intros f _ _ Hf. clear -Hf. qc. }
  exists w1. split; [exact Hrun|]. split; [exact Hwf1|].
  split; [exact Ha|]. split; [exact Hb|]. split; [exact Hd|].
  intros x y t Hg.
  destruct (getTile_lt w x y Hwf) as [Hx Hy]; [by rewrite Hg|].
  destruct (decide ((bx ≤ x ≤ bx + 8)%nat ∧ (by' ≤ y ≤ by' + 8)%nat))
    as [[Hbx Hby]|Hno].
  - specialize (Hin (x - bx)%nat (y - by')%nat).
    replace (bx + (x - bx))%nat with x in Hin by lia.
    replace (by' + (y - by'))%nat with y in Hin by lia.
    rewrite Hg in Hin. exists (raise (spreadEntry sqrt up (x - bx) (y - by')) t).
    exists (spreadEntry sqrt up (x - bx) (y - by')).
    split; [apply Hin; unfold volcanoDiameter; lia|].
    split; [by apply spreadEntry_nonneg|by right].
  - exists t, 0. rewrite (Hout x y Hno). split; [exact Hg|].
    split; [apply Qcle_refl|by left].
Qed.

(** ** The phases of a tick, tile by tile *)

Lemma tick_tiles sqrt rand w :
  wf w → unitInterval rand →
  ∃ w1 w3 w4 w',
    tick sqrt rand w = Some w' ∧ wf w'
    ∧ wf w3 ∧ applyTiles transferHeat w3 = Some w4 ∧ wf w4
    ∧ atmosphere w1 = atmosphere w
    ∧ (∀ (x y : nat) t, getTile w x y = Some t →
         ∃ t1 val, getTile w1 x y = Some t1 ∧ 0 ≤ val
                   ∧ (t1 = t ∨ t1 = raise val t))
    ∧ (∀ (x y : nat) t1, getTile w1 x y = Some t1 →
         ∃ t3, getTile w3 x y = Some t3
           ∧ afterVisit (tickHeatTrapping w)
               (computeTileAtmosphere (atmosphere (beginTick w))) t1 t3)
    ∧ (∀ (x y : nat) t3, getTile w3 x y = Some t3 →
         ∃ t4, getTile w4 x y = Some t4 ∧ t4 = set_heat (heat t4) t3)
    ∧ (∀ (x y : nat),
         getTile w' x y
         = (λ tile, set_tileCover (computeTileCover tile) tile) <$> getTile w4 x y).
Proof.
  intros Hwf Hr.
  destruct (tick_phases sqrt rand w Hwf Hr)
    as (w1 & w3 & w4 & w' & Hw1 & Hwf1 & Hw3 & Hwf3 & Hw4 & Hwf4 & Hw' & Hwf' & Htick).
  destruct (eruptVolcano_tiles sqrt rand w Hwf Hr)
    as (w1' & Hw1' & _ & Ha1 & _ & _ & Ht1).
  rewrite Hw1 in Hw1'. apply (inj Some) in Hw1'. subst w1'.
  cbv zeta in Hw3.
  assert (Hbt : atmosphere (beginTick w1) = atmosphere (beginTick w)).
  { unfold beginTick. cbn [atmosphere]. by rewrite Ha1. }
  rewrite Hbt in Hw3.
  destruct (perTile_pass_tiles rand
              (computeTileAtmosphere (atmosphere (beginTick w)))
              (computeHeatTrappingFactor
                 (computeTileAtmosphere (atmosphere (beginTick w))))
              (beginTick w1) (wf_beginTick w1 Hwf1))
    as (w3' & Hw3' & _ & Ht3).
  rewrite Hw3 in Hw3'. apply (inj Some) in Hw3'. subst w3'.
  destruct (classify_pass w4 w' Hwf4 Hw') as (_ & _ & _ & _ & Ht').
  pose proof (same_heat_pass (set_heat 0) w3 w4 (λ _ _, eq_refl) Hwf3 Hw4) as Hs4.
  exists w1, w3, w4, w'.
  split; [exact Htick|]. split; [exact Hwf'|]. split; [exact Hwf3|].
  split; [exact Hw4|]. split; [exact Hwf4|]. split; [exact Ha1|].
  split; [exact Ht1|]. split; [exact Ht3|]. split; [|exact Ht'].
  intros x y t3 Hg3. specialize (Hs4 x y). rewrite Hg3 in Hs4.
  destruct (getTile w4 x y) as [t4|]; [|done]. exists t4. split; [done|].
  cbn [fmap option_fmap option_map] in Hs4. apply (inj Some) in Hs4.
  destruct t4 as [a4 l4 h4 c4 b4], t3 as [a3 l3 h3 c3 b3].
  cbn [set_heat altitude baseLuminosity heat tileCover biomass] in *.
  by injection Hs4 as -> -> -> ->.
Qed.

(** ** Altitudes *)

Lemma tiles_back w w' (x y : nat) t' :
  wf w → wf w' → getTile w' x y = Some t' → ∃ t, getTile w x y = Some t.
Proof.
  intros Hwf Hwf' Hg'.
  destruct (getTile_lt w' x y Hwf') as [Hx Hy]; [by rewrite Hg'|].
  by apply wf_getTile.
Qed.

Lemma tick_altitude sqrt rand w :
  wf w → unitInterval rand → altBound maxAltitude w →
  ∃ w', tick sqrt rand w = Some w' ∧ wf w'
    ∧ ∀ (x y : nat) t t', getTile w x y = Some t → getTile w' x y = Some t' →
        0 ≤ altitude t' ∧ altitude t' ≤ maxAltitude - erosionRate
        ∧ altitude t - erosionRate ≤ altitude t'.
Proof.
  intros Hwf Hr Hb.
  destruct (tick_tiles sqrt rand w Hwf Hr)
    as (w1 & w3 & w4 & w' & Htick & Hwf' & _ & _ & _ & _ & H1 & H3 & H4 & H').
  exists w'. split; [exact Htick|]. split; [exact Hwf'|].
  intros x y t t' Hg Hg'.
  destruct (H1 x y t Hg) as (t1 & val & Hg1 & Hval & Ht1).
  destruct (H3 x y t1 Hg1) as (t3 & Hg3 & Halt & _).
  destruct (H4 x y t3 Hg3) as (t4 & Hg4 & Ht4).
  rewrite H', Hg4 in Hg'. apply (inj Some) in Hg'. subst t'.
  cbn [set_tileCover altitude]. rewrite Ht4. cbn [set_heat altitude].
  rewrite Halt. pose proof (Hb x y t Hg) as Hmax.
  assert (Hr1 : altitude t ≤ altitude t1 ∧ altitude t1 ≤ maxAltitude).
  { destruct Ht1 as [->| ->]; [split; [apply Qcle_refl|done]|].
    by apply raise_not_lower. }
  destruct Hr1 as [Hlo Hhi].
  generalize dependent (altitude t1). generalize dependent (altitude t).
  intros a Ha a1 _ Hlo Hhi. clear -Ha Hlo Hhi. split_and!; qc.
Qed.

(** X6. From a grid without altitudes above [maxAltitude], a tick lowers
    no tile by more than [erosionRate], and after any number of ticks no
    altitude is above [maxAltitude]; after one tick or more every altitude
    is between 0 and [maxAltitude - erosionRate]. *)
Theorem ticks_altitude_range sqrt rand w :
  wf w → unitInterval rand → altBound maxAltitude w →
  (∃ w', tick sqrt rand w = Some w'
     ∧ ∀ (x y : nat) t t', getTile w x y = Some t → getTile w' x y = Some t' →
         altitude t - erosionRate ≤ altitude t')
  ∧ ∀ n : nat, ∃ w', ticks sqrt rand n w = Some w' ∧ wf w'
      ∧ ∀ (x y : nat) t', getTile w' x y = Some t' →
          altitude t' ≤ maxAltitude
          ∧ ((1 ≤ n)%nat →
             0 ≤ altitude t' ∧ altitude t' ≤ maxAltitude - erosionRate).
Proof.
  intros Hwf Hr Hb. split.
  { destruct (tick_altitude sqrt rand w Hwf Hr Hb) as (w' & Htick & _ & Ht).
    exists w'. split; [exact Htick|]. intros x y t t' Hg Hg'.
    by destruct (Ht x y t t' Hg Hg') as (_ & _ & ?). }
  intros n. revert w Hwf Hb. induction n as [|n IH]; intros w Hwf Hb.
  { exists w. split; [done|]. split; [done|]. intros x y t' Hg.
    split; [by apply (Hb x y)|lia]. }
  destruct (tick_altitude sqrt rand w Hwf Hr Hb) as (w1 & Htick & Hwf1 & Ht1).
  assert (Hrange : ∀ (x y : nat) t1, getTile w1 x y = Some t1 →
            0 ≤ altitude t1 ∧ altitude t1 ≤ maxAltitude - erosionRate).
  { intros x y t1 Hg1. destruct (tiles_back w w1 x y t1 Hwf Hwf1 Hg1) as [t Hg].
    by destruct (Ht1 x y t t1 Hg Hg1) as (? & ? & _). }
  assert (Hb1 : altBound maxAltitude w1).
  { intros x y t1 Hg1. destruct (Hrange x y t1 Hg1) as [_ Hle].
    generalize dependent (altitude t1). intros a Hle. clear -Hle. qc. }
  destruct (IH w1 Hwf1 Hb1) as (w' & Hrun & Hwf' & Ht').
  exists w'. split; [cbn [ticks]; rewrite Htick; osimpl; exact Hrun|].
  split; [exact Hwf'|]. intros x y t' Hg'.
  destruct (Ht' x y t' Hg') as [Hmax Hpos]. split; [exact Hmax|]. intros _.
  destruct n as [|n]; [|apply Hpos; lia].
  cbn [ticks] in Hrun. apply (inj Some) in Hrun. subst w'.
  by apply (Hrange x y).
Qed.

Lemma altBound_newWorld : altBound maxAltitude newWorld.
Proof.
  intros x y t Hg. apply leb_le.
  apply (tiles_check (λ t, leb (altitude t) maxAltitude) newWorld) in Hg; [done|].
  vm_compute. reflexivity.
Qed.

Lemma ticks_altitude_range_witness :
  wf newWorld ∧ unitInterval (λ _, num 1 2) ∧ altBound maxAltitude newWorld
  ∧ ∃ w', ticks sqrtFloor (λ _, num 1 2) 3 newWorld = Some w'
      ∧ ∀ (x y : nat) t', getTile w' x y = Some t' →
          0 ≤ altitude t' ∧ altitude t' ≤ maxAltitude - erosionRate.
Proof.
  split; [exact wf_newWorld|]. split; [exact unitInterval_half|].
  split; [exact altBound_newWorld|].
  destruct (ticks_altitude_range sqrtFloor (λ _, num 1 2) newWorld wf_newWorld
              unitInterval_half altBound_newWorld) as [_ Hn].
  destruct (Hn 3%nat) as (w' & Hrun & _ & Ht). exists w'. split; [exact Hrun|].
  intros x y t' Hg. destruct (Ht x y t' Hg) as [_ Hpos]. apply Hpos. lia.
Defined.

(** ** Heats *)

Lemma tickHeatTrapping_eq w :
  tickHeatTrapping w
  = decayed (carbonDioxide (atmosphere w)) * atmospherePerTile * carbonHeatRetention.
Proof.
  unfold tickHeatTrapping, computeHeatTrappingFactor, computeTileAtmosphere,
    beginTick, decayAtmosphere, decayed.
  cbn [atmosphere carbonDioxide waterVapour]. ring.
Qed.

Lemma computeLuminosity_range t :
  0 ≤ baseLuminosity t →
  0 ≤ computeLuminosity t ∧ computeLuminosity t ≤ baseLuminosity t.
Proof.
  intros Hl. unfold computeLuminosity.
  generalize dependent (baseLuminosity t). intros l Hl.
  destruct (cover_eqb _ Water); [split; qc|].
  destruct (cover_eqb _ Ice); split; qc.
Qed.

(** X4. The heat diffusion pass [applyTiles(transferHeat)] completes on a
    full grid and creates no new extreme: when every heat lies between [lo]
    and [hi] before the pass, every heat lies between [lo] and [hi] after
    it. *)
Theorem heat_diffusion_range (lo hi : Qc) w :
  wf w → heatBetween lo hi w →
  ∃ w', applyTiles transferHeat w = Some w' ∧ heatBetween lo hi w'.
Proof.
  intros Hwf Hb. destruct (heat_pass_between lo hi w Hwf Hb) as (w' & ? & _ & ?).
  by exists w'.
Qed.

Lemma heatBetween_check (lo hi : Qc) w :
  forallb (λ t, leb lo (heat t) && leb (heat t) hi) (concat (tiles w)) = true →
  heatBetween lo hi w.
Proof.
  intros Hall x y t Hg.
  apply (tiles_check (λ t, leb lo (heat t) && leb (heat t) hi) w Hall) in Hg.
  apply andb_true_iff in Hg as [H0 H1]. by rewrite !leb_le in *.
Qed.

Lemma heatBetween_hotSpot : heatBetween (num 40 1) (num 160 1) hotSpot.
Proof. apply heatBetween_check. vm_compute. reflexivity. Qed.

Lemma heat_diffusion_range_witness :
  wf hotSpot ∧ heatBetween (num 40 1) (num 160 1) hotSpot
  ∧ heat <$> getTile hotSpot 0 0 = Some (num 160 1)
  ∧ heat <$> getTile hotSpot 0 1 = Some (num 40 1)
  ∧ heat <$> getTile hotSpot 1 0 = Some (num 100 1)
  ∧ ∃ w', applyTiles transferHeat hotSpot = Some w'
      ∧ heatBetween (num 40 1) (num 160 1) w'.
Proof.
  split; [exact wf_hotSpot|]. split; [exact heatBetween_hotSpot|].
  do 3 (split; [by vm_compute|]).
  exact (heat_diffusion_range (num 40 1) (num 160 1) hotSpot wf_hotSpot
           heatBetween_hotSpot).
Defined.

Lemma computeHeat_bound (M l htf : Qc) t :
  0 ≤ l → l ≤ 1 → 0 ≤ htf → 0 ≤ heat t → heat t ≤ M →
  0 ≤ computeHeat t l htf
  ∧ computeHeat t l htf ≤ computeHeat (heatedTile M) 1 htf.
Proof.
  intros Hl0 Hl1 Hh H0 HM. unfold computeHeat. cbv zeta. cbn [heatedTile heat].
  generalize dependent (heat t). intros h H0 HM.
  assert (Hp0 : 0 ≤ l * (1 + htf)).
  { rewrite <- (Qcmult_0_l (1 + htf)).
    apply Qcmult_le_compat_r; [done|]. clear -Hh. qc. }
  assert (Hp1 : l * (1 + htf) ≤ 1 + htf).
  { rewrite <- (Qcmult_1_l (1 + htf)) at 2.
    apply Qcmult_le_compat_r; [done|]. clear -Hh. qc. }
  replace (fullLuminosityHeat * l * (1 + htf))
    with (fullLuminosityHeat * (l * (1 + htf))) by ring.
  generalize dependent (l * (1 + htf)). intros p Hp0 Hp1.
  clear -Hp0 Hp1 H0 HM. split; qc.
Qed.

(** X5. The heat-trapping factor of a tick comes from the carbon dioxide
    alone (the water vapour is zero when it is computed): it is the decayed
    carbon dioxide times [atmospherePerTile] times [carbonHeatRetention].
    When the carbon dioxide is not negative, every base luminosity is in
    [[0, 1]] and every heat is in [[0, M]], every heat after the tick is
    nonnegative and at most the heat [computeHeat] gives a tile of heat [M]
    at luminosity 1: neither the heat update of a dimmer or cooler tile nor
    the diffusion goes above it. *)
Theorem tick_heat_range sqrt rand (M : Qc) w :
  wf w → unitInterval rand →
  0 ≤ carbonDioxide (atmosphere w) →
  (∀ (x y : nat) t, getTile w x y = Some t →
     0 ≤ baseLuminosity t ∧ baseLuminosity t ≤ 1) →
  heatBetween 0 M w →
  tickHeatTrapping w
  = (carbonDioxide (atmosphere w)
     - carbonDioxide (atmosphere w) * atmosphereLossRate)
    * atmospherePerTile * carbonHeatRetention
  ∧ ∃ w', tick sqrt rand w = Some w'
      ∧ heatBetween 0 (computeHeat (heatedTile M) 1 (tickHeatTrapping w)) w'.
Proof.
  intros Hwf Hr Hc Hlum Hheat. split; [apply tickHeatTrapping_eq|].
  destruct (tick_tiles sqrt rand w Hwf Hr)
    as (w1 & w3 & w4 & w' & Htick & Hwf' & Hwf3 & Hw4 & Hwf4 & _ & H1 & H3 & H4 & H').
  exists w'. split; [exact Htick|].
  assert (Hhtf : 0 ≤ tickHeatTrapping w).
  { rewrite tickHeatTrapping_eq. unfold decayed.
    generalize dependent (carbonDioxide (atmosphere w)). intros c Hc.
    clear -Hc. qc. }
  set (hi := computeHeat (heatedTile M) 1 (tickHeatTrapping w)).
  assert (Hb3 : heatBetween 0 hi w3).
  { intros x y t3 Hg3. destruct (tiles_back w w3 x y t3 Hwf Hwf3 Hg3) as [t Hg].
    destruct (H1 x y t Hg) as (t1 & val & Hg1 & _ & Ht1).
    destruct (H3 x y t1 Hg1) as (t3' & Hg3' & _ & _ & Hh3 & _).
    rewrite Hg3 in Hg3'. apply (inj Some) in Hg3'. subst t3'.
    destruct (Hlum x y t Hg) as [Hl0 Hl1]. destruct (Hheat x y t Hg) as [Hh0 HhM].
    assert (Hsame : baseLuminosity t1 = baseLuminosity t ∧ heat t1 = heat t).
    { by destruct Ht1 as [->| ->]. }
    destruct Hsame as [El Eh]. rewrite Hh3.
    destruct (computeLuminosity_range t1) as [Hc0 Hc1]; [by rewrite El|].
    apply computeHeat_bound; try done.
    - eapply Qcle_trans; [exact Hc1|]. by rewrite El.
    - by rewrite Eh.
    - by rewrite Eh. }
  destruct (heat_pass_between 0 hi w3 Hwf3 Hb3) as (w4' & Hw4' & _ & Hb4).
  rewrite Hw4 in Hw4'. apply (inj Some) in Hw4'. subst w4'.
  intros x y t' Hg'. rewrite H' in Hg'.
  destruct (getTile w4 x y) as [t4|] eqn:Hg4; [|done].
  apply (inj Some) in Hg'. subst t'. cbn [set_tileCover heat].
  by apply (Hb4 x y).
Qed.

Lemma luminosity_check w :
  forallb (λ t, leb 0 (baseLuminosity t) && leb (baseLuminosity t) 1)
    (concat (tiles w)) = true →
  ∀ (x y : nat) t, getTile w x y = Some t →
    0 ≤ baseLuminosity t ∧ baseLuminosity t ≤ 1.
Proof.
  intros Hall x y t Hg.
  apply (tiles_check _ w Hall) in Hg.
  apply andb_true_iff in Hg as [H0 H1]. by rewrite !leb_le in *.
Qed.

Lemma luminosity_hotSpot (x y : nat) t :
  getTile hotSpot x y = Some t → 0 ≤ baseLuminosity t ∧ baseLuminosity t ≤ 1.
Proof. apply luminosity_check. vm_compute. reflexivity. Qed.

Lemma heatBetween_weaken (lo lo' hi hi' : Qc) w :
  lo' ≤ lo → hi ≤ hi' → heatBetween lo hi w → heatBetween lo' hi' w.
Proof.
  intros Hlo Hhi Hb x y t Hg. destruct (Hb x y t Hg) as [H0 H1].
  split; eapply Qcle_trans; eassumption.
Qed.

Lemma tick_heat_range_witness :
  wf hotSpot ∧ unitInterval (λ _, num 1 2)
  ∧ 0 ≤ carbonDioxide (atmosphere hotSpot)
  ∧ heatBetween 0 (num 160 1) hotSpot
  ∧ heat <$> getTile hotSpot 0 0 = Some (num 160 1)
  ∧ heat <$> getTile hotSpot 0 1 = Some (num 40 1)
  ∧ ∃ w', tick sqrtFloor (λ _, num 1 2) hotSpot = Some w'
      ∧ heatBetween 0
          (computeHeat (heatedTile (num 160 1)) 1 (tickHeatTrapping hotSpot)) w'.
Proof.
  assert (Hb : heatBetween 0 (num 160 1) hotSpot).
  { apply (heatBetween_weaken (num 40 1) 0 (num 160 1) (num 160 1));
      [by vm_compute|apply Qcle_refl|exact heatBetween_hotSpot]. }
  assert (Hc : 0 ≤ carbonDioxide (atmosphere hotSpot)) by (by vm_compute).
  split; [exact wf_hotSpot|]. split; [exact unitInterval_half|].
  split; [exact Hc|]. split; [exact Hb|].
  do 2 (split; [by vm_compute|]).
  by destruct (tick_heat_range sqrtFloor (λ _, num 1 2) (num 160 1) hotSpot
                wf_hotSpot unitInterval_half Hc luminosity_hotSpot Hb) as [_ Hrun].
Defined.

(** ** Where the biomass lives *)

(** X7. On a grid without negative luminosities, after a tick the biomass
    total of every tile is at most the capacity
    [baseLuminosity * fullLuminosityHeat * photosynthticBiomassPerEnergy] of
    the tile; a tile that was not [Water] when the tick began, or whose
    updated heat is above [unlivableTemperature], ends the tick with total
    and population 0; and without carbon dioxide every total is 0. *)
Theorem tick_life_on_water sqrt rand w :
  wf w → unitInterval rand →
  (∀ (x y : nat) t, getTile w x y = Some t → 0 ≤ baseLuminosity t) →
  ∃ w', tick sqrt rand w = Some w'
    ∧ ∀ (x y : nat) t t', getTile w x y = Some t → getTile w' x y = Some t' →
        total (biomass t') ≤ capacity t
        ∧ (tileCover t ≠ Water →
           total (biomass t') = 0 ∧ prokaryote (biomass t') = 0)
        ∧ (unlivableTemperature
             < computeHeat t (computeLuminosity t) (tickHeatTrapping w) →
           total (biomass t') = 0 ∧ prokaryote (biomass t') = 0)
        ∧ (carbonDioxide (atmosphere w) = 0 → total (biomass t') = 0).
Proof.
  intros Hwf Hr Hlum.
  destruct (tick_tiles sqrt rand w Hwf Hr)
    as (w1 & w3 & w4 & w' & Htick & Hwf' & Hwf3 & Hw4 & Hwf4 & _ & H1 & H3 & H4 & H').
  exists w'. split; [exact Htick|]. intros x y t t' Hg Hg'.
  destruct (H1 x y t Hg) as (t1 & val & Hg1 & _ & Ht1).
  destruct (H3 x y t1 Hg1) as (t3 & Hg3 & _ & _ & Hh3 & _ & Hcap & Hz & Hdead).
  destruct (H4 x y t3 Hg3) as (t4 & Hg4 & Ht4).
  rewrite H', Hg4 in Hg'. apply (inj Some) in Hg'. subst t'.
  cbn [set_tileCover biomass]. rewrite Ht4. cbn [set_heat biomass].
  assert (Hsame : t1 = set_altitude (altitude t1) t).
  { by destruct Ht1 as [->| ->]; destruct t. }
  rewrite Hsame in Hcap, Hz, Hdead, Hh3.
  change (capacity (set_altitude (altitude t1) t)) with (capacity t) in Hcap.
  cbn [set_altitude baseLuminosity tileCover] in Hz, Hdead.
  change (computeHeat (set_altitude (altitude t1) t)
            (computeLuminosity (set_altitude (altitude t1) t)))
    with (computeHeat t (computeLuminosity t)) in Hh3.
  specialize (Hlum x y t Hg). split_and!.
  - exact Hcap.
  - intros Hw. apply Hdead; [done|by left].
  - intros Hu. apply Hdead; [done|]. right. by rewrite Hh3.
  - intros Hc. apply Hz; [done|].
    unfold computeTileAtmosphere, beginTick, decayAtmosphere.
    cbn [atmosphere carbonDioxide]. rewrite Hc. ring.
Qed.

Lemma wf_shore : wf shore.
Proof. apply wfb_wf. vm_compute. reflexivity. Qed.

Lemma luminosity_shore (x y : nat) t :
  getTile shore x y = Some t → 0 ≤ baseLuminosity t ∧ baseLuminosity t ≤ 1.
Proof. apply luminosity_check. vm_compute. reflexivity. Qed.

Lemma tick_life_on_water_witness :
  wf shore ∧ unitInterval (λ _, num 1 2)
  ∧ (prokaryote ∘ biomass) <$> getTile shore 0 0 = Some (num 5 1)
  ∧ (tileCover <$> getTile shore 0 0 = Some Rock)
  ∧ (prokaryote ∘ biomass) <$> getTile shore 0 1 = Some (num 3 1)
  ∧ ∃ w', tick sqrtFloor (λ _, num 1 2) shore = Some w'
      ∧ (∀ t', getTile w' 0 0 = Some t' →
           total (biomass t') = 0 ∧ prokaryote (biomass t') = 0)
      ∧ (∀ t', getTile w' 0 1 = Some t' → total (biomass t') ≤ num 7200 1).
Proof.
  split; [exact wf_shore|]. split; [exact unitInterval_half|].
  do 3 (split; [by vm_compute|]).
  destruct (tick_life_on_water sqrtFloor (λ _, num 1 2) shore wf_shore
              unitInterval_half) as (w' & Htick & Ht).
  { intros x y t Hg. by destruct (luminosity_shore x y t Hg). }
  exists w'. split; [exact Htick|]. split.
  - intros t' Hg'.
    destruct (Ht 0%nat 0%nat _ t' ltac:(by vm_compute) Hg') as (_ & Hrock & _).
    apply Hrock. discriminate.
  - intros t' Hg'.
    destruct (Ht 0%nat 1%nat _ t' ltac:(by vm_compute) Hg') as (Hcap & _).
    eapply Qcle_trans; [exact Hcap|]. by vm_compute.
Defined.

(** ** Sums over the grid *)

Lemma sumAt_app v w l1 l2 : sumAt v w (l1 ++ l2) = sumAt v w l1 + sumAt v w l2.
Proof.
  induction l1 as [|[x y] l1 IH]; cbn [sumAt app]; [ring|]. rewrite IH. ring.
Qed.

Lemma sumAt_ext v w w' idx :
  (∀ x y : nat, (x, y) ∈ idx → v <$> getTile w' x y = v <$> getTile w x y) →
  sumAt v w' idx = sumAt v w idx.
Proof.
  induction idx as [|[x y] idx IH]; intros H; [done|]. cbn [sumAt].
  rewrite IH by (intros x' y' Hin; apply H; by right). f_equal.
  specialize (H x y ltac:(left)).
  destruct (getTile w' x y), (getTile w x y); try done.
  cbn [fmap option_fmap option_map] in H. by apply (inj Some) in H.
Qed.

Lemma sumAt_column v w (x : nat) (col : list Tile) :
  tiles w !! x = Some col →
  sumAt v w ((λ y, (x, y)) <$> seq 0 (length col))
  = foldr (λ t acc, v t + acc) 0 col.
Proof.
  intros Hcol.
  assert (Hgen : ∀ l b, (∀ j t, l !! j = Some t → col !! (b + j)%nat = Some t) →
            sumAt v w ((λ y, (x, y)) <$> seq b (length l))
            = foldr (λ t acc, v t + acc) 0 l).
  { induction l as [|t l IH]; intros b Hl; [done|].
    cbn [length seq fmap list_fmap sumAt foldr].
    unfold getTile at 1. rewrite Hcol. osimpl.
    rewrite <- (Nat.add_0_r b) at 1. rewrite (Hl 0%nat t) by done.
    f_equal. apply IH.
    intros j t' Hj. replace (S b + j)%nat with (b + S j)%nat by lia.
    by apply Hl. }
  apply Hgen. intros j t Hj. done.
Qed.

Lemma foldr_sum_app (v : Tile → Qc) (l1 l2 : list Tile) :
  foldr (λ t acc, v t + acc) 0 (l1 ++ l2)
  = foldr (λ t acc, v t + acc) 0 l1 + foldr (λ t acc, v t + acc) 0 l2.
Proof. induction l1 as [|t l1 IH]; cbn [foldr app]; [ring|]. rewrite IH. ring. Qed.

Lemma sumAt_columns v w (n a : nat) :
  wf w → (a + n ≤ worldWidth)%nat →
  sumAt v w (pairs (seq a n) (seq 0 worldHeight))
  = foldr (λ t acc, v t + acc) 0 (concat (take n (drop a (tiles w)))).
Proof.
  intros [Hl Hc]. revert a. induction n as [|n IH]; intros a Ha; [done|].
  rewrite <- cons_seq, pairs_cons, sumAt_app.
  destruct (lookup_lt_is_Some_2 (tiles w) a) as [col Hcol]; [lia|].
  rewrite (drop_S _ _ _ Hcol). cbn [take concat].
  rewrite foldr_sum_app. f_equal.
  - rewrite Forall_lookup in Hc. rewrite <- (Hc _ _ Hcol).
    by apply sumAt_column.
  - rewrite IH by lia. done.
Qed.

Lemma sumAt_rasterOrder v w : wf w → sumAt v w rasterOrder = gridSum v w.
Proof.
  intros Hwf. unfold rasterOrder, gridSum.
  rewrite sumAt_columns by (done || lia).
  destruct Hwf as [Hl _]. by rewrite drop_0, <- Hl, firstn_all.
Qed.

(** ** The population exchange keeps the range of the populations *)

(** X8. A call of [transferProkaryotes] on a tile of a full grid completes
    and creates no new extreme: when every population lies between [lo] and
    [hi] before the call, every population lies between [lo] and [hi] after
    it; and the call changes the biomass total of no tile. *)
Theorem transferProkaryotes_range (lo hi : Qc) w (x y : nat) :
  wf w → (x < worldWidth)%nat → (y < worldHeight)%nat →
  populationBetween lo hi w →
  ∃ w', transferProkaryotes x y w = Some w'
    ∧ populationBetween lo hi w'
    ∧ ∀ x' y' : nat,
        (total ∘ biomass) <$> getTile w' x' y' = (total ∘ biomass) <$> getTile w x' y'.
Proof.
  intros Hwf Hx Hy Hb.
  destruct (transferProkaryotes_spec w x y Hwf Hx Hy)
    as (tile & tileE & w' & Ht & HtE & Hrun & Hwf' & _ & _ & _ & Hspec).
  cbv zeta in Hspec. destruct Hspec as (HE & Hlast & Hsouth & Hother).
  pose proof (Hb _ _ _ Ht) as Pt. pose proof (Hb _ _ _ HtE) as PE.
  pose proof (average_between lo hi _ _ Pt PE) as PavgE.
  set (exE := canProkaryotesSurvive tile && canProkaryotesSurvive tileE && _) in *.
  assert (P1 : lo ≤ (if exE
                then (prokaryote (biomass tile) + prokaryote (biomass tileE)) / 2
                else prokaryote (biomass tile))
               ∧ (if exE
                then (prokaryote (biomass tile) + prokaryote (biomass tileE)) / 2
                else prokaryote (biomass tile)) ≤ hi).
  { by destruct exE. }
  exists w'. split; [exact Hrun|]. split.
  - intros x' y' t' Hg'.
    destruct (decide (x' = x ∧ y' = y)) as [[-> ->]|Hn1].
    { destruct (decide (y + 1 = worldHeight)%nat) as [Hl|Hl].
      - rewrite (Hlast Hl) in Hg'. apply (inj Some) in Hg'. subst t'.
        by destruct exE.
      - destruct Hsouth as (tileS & HtS & _ & Hself); [lia|].
        rewrite Hself in Hg'. apply (inj Some) in Hg'. subst t'.
        pose proof (Hb _ _ _ HtS) as PS.
        pose proof (average_between lo hi _ _ P1 PS) as PavgS.
        set (exS := canProkaryotesSurvive tile && canProkaryotesSurvive tileS && _).
        destruct exS; [done|]. by destruct exE. }
    destruct (decide (x' = (x + 1) mod worldWidth ∧ y' = y)) as [[-> ->]|Hn2].
    { rewrite HE in Hg'. apply (inj Some) in Hg'. subst t'. by destruct exE. }
    destruct (decide (x' = x ∧ y' = (y + 1)%nat)) as [[-> ->]|Hn3].
    { destruct (getTile_lt w' x (y + 1)%nat Hwf') as [_ Hlt]; [by rewrite Hg'|].
      destruct (Hsouth Hlt) as (tileS & HtS & HS & _).
      rewrite HS in Hg'. apply (inj Some) in Hg'. subst t'.
      pose proof (Hb _ _ _ HtS) as PS.
      pose proof (average_between lo hi _ _ P1 PS) as PavgS.
      set (exS := canProkaryotesSurvive tile && canProkaryotesSurvive tileS && _).
      by destruct exS. }
    rewrite (Hother x' y' Hn1 Hn2 Hn3) in Hg'. by apply (Hb x' y').
  - intros x' y'.
    destruct (decide (x' = x ∧ y' = y)) as [[-> ->]|Hn1].
    { rewrite Ht. destruct (decide (y + 1 = worldHeight)%nat) as [Hl|Hl].
      - rewrite (Hlast Hl). by destruct exE.
      - destruct Hsouth as (tileS & HtS & _ & Hself); [lia|]. rewrite Hself.
        by repeat case_match. }
    destruct (decide (x' = (x + 1) mod worldWidth ∧ y' = y)) as [[-> ->]|Hn2].
    { rewrite HE, HtE. by destruct exE. }
    destruct (decide (x' = x ∧ y' = (y + 1)%nat)) as [[-> ->]|Hn3].
    { destruct (decide (y + 1 < worldHeight)%nat) as [Hlt|Hge].
      - destruct (Hsouth Hlt) as (tileS & HtS & HS & _). rewrite HS, HtS.
        by case_match.
      - rewrite (getTile_None_out w' x (y + 1) Hwf'), (getTile_None_out w x (y + 1) Hwf);
          [done|intros [_ ?]; lia|intros [_ ?]; lia]. }
    by rewrite (Hother x' y' Hn1 Hn2 Hn3).
Qed.

Lemma populationBetween_check (lo hi : Qc) w :
  forallb (λ t, leb lo (prokaryote (biomass t)) && leb (prokaryote (biomass t)) hi)
    (concat (tiles w)) = true →
  populationBetween lo hi w.
Proof.
  intros Hall x y t Hg.
  apply (tiles_check _ w Hall) in Hg.
  apply andb_true_iff in Hg as [H0 H1]. by rewrite !leb_le in *.
Qed.

Lemma transferProkaryotes_range_witness :
  wf colonyOcean ∧ populationBetween 0 (num 10 1) colonyOcean
  ∧ (prokaryote ∘ biomass) <$> getTile colonyOcean 0 0 = Some 0
  ∧ (prokaryote ∘ biomass) <$> getTile colonyOcean 1 0 = Some (num 10 1)
  ∧ ∃ w', transferProkaryotes 0 0 colonyOcean = Some w'
      ∧ populationBetween 0 (num 10 1) w'.
Proof.
  assert (Hb : populationBetween 0 (num 10 1) colonyOcean).
  { apply populationBetween_check. vm_compute. reflexivity. }
  split; [exact wf_colonyOcean|]. split; [exact Hb|].
  do 2 (split; [by vm_compute|]).
  destruct (transferProkaryotes_range 0 (num 10 1) colonyOcean 0 0 wf_colonyOcean)
    as (w' & Hrun & Hb' & _); [unfold worldWidth; lia|unfold worldHeight; lia|done|].
  by exists w'.
Defined.

(** ** The biomass counters of the world *)

Lemma pass_biomass rand ta htf idx w :
  NoDup idx →
  (∀ x y : nat, (x, y) ∈ idx → (x < worldWidth)%nat ∧ (y < worldHeight)%nat) →
  wf w →
  ∃ w', forEach2 idx (tileStep rand ta htf) w = Some w'
    ∧ wf w'
    ∧ total (worldBiomass w') = total (worldBiomass w) + sumAt tileTotal w' idx
    ∧ prokaryote (worldBiomass w')
      = prokaryote (worldBiomass w) + sumAt tileTotal w' idx
    ∧ ∀ x y : nat, (x, y) ∉ idx →
        tileTotal <$> getTile w' x y = tileTotal <$> getTile w x y.
Proof.
  intros Hnd. revert w. induction Hnd as [|[x y] idx Hnin Hnd IH];
    intros w Hidx Hwf.
  { exists w. split_and!; try done; cbn [sumAt]; ring. }
  destruct (Hidx x y) as [Hx Hy]; [left|].
  destruct (tileStep_tiles rand ta htf w x y Hwf Hx Hy)
    as (tile & w1 & Ht & Hrun1 & Hwf1 & Hspec).
  cbv zeta in Hspec. destruct Hspec as (_ & Hb1 & _ & Htiles).
  destruct (tileLocal_tile rand ta htf tile (atmosphere w) (drawn w)
              (worldBiomass w)) as (p & Heq & Hp).
  rewrite applyBiomass_eq in Hb1. cbv zeta in Hb1. rewrite <- Hp in Hb1.
  cbn [fst snd] in Hb1.
  destruct (IH w1) as (w' & Hrun & Hwf' & Htot & Hpro & Hout); [|done|].
  { intros x' y' Hin. apply Hidx. by right. }
  assert (Hstep : ∀ (x' y' : nat),
            tileTotal <$> getTile w1 x' y'
            = if decide (x' = x ∧ y' = y) then Some p
              else tileTotal <$> getTile w x' y').
  { intros x' y'. destruct (getTile w x' y') as [t|] eqn:Hg.
    - destruct (Htiles x' y' t Hg) as (t' & -> & Hcase).
      cbn [fmap option_fmap option_map].
      destruct (decide (x' = x ∧ y' = y)) as [[-> ->]|Hne].
      + rewrite Heq in Hcase. f_equal.
        by destruct Hcase as [->|(_ & v & ->)].
      + f_equal. by destruct Hcase as [->|(_ & v & ->)].
    - rewrite decide_False; [|intros [-> ->]; by rewrite Ht in Hg].
      rewrite (getTile_None_out w1 x' y' Hwf1); [done|].
      intros [Hx' Hy']. destruct (wf_getTile w x' y' Hwf Hx' Hy') as [? Hs].
      by rewrite Hg in Hs. }
  assert (Hxy : tileTotal <$> getTile w' x y = Some p).
  { rewrite (Hout x y Hnin), Hstep. by rewrite decide_True. }
  exists w'. cbn [forEach2]. rewrite Hrun1. osimpl.
  split; [exact Hrun|]. split; [exact Hwf'|].
  cbn [sumAt]. destruct (getTile w' x y) as [t'|]; [|done].
  cbn [fmap option_fmap option_map] in Hxy. apply (inj Some) in Hxy.
  rewrite Hxy, Htot, Hpro, Hb1. cbn [total prokaryote].
  split; [ring|]. split; [ring|].
  intros x' y' Hn. apply not_elem_of_cons in Hn as [Hne Hn].
  rewrite (Hout x' y' Hn), Hstep. rewrite decide_False; [done|].
  intros [-> ->]. by apply Hne.
Qed.

Lemma foldl_sum (v : Tile → Qc) (l : list Tile) (a : Qc) :
  foldl (λ acc t, acc + v t) a l = a + foldr (λ t acc, v t + acc) 0 l.
Proof.
  revert a. induction l as [|t l IH]; intros a; cbn [foldl foldr]; [ring|].
  rewrite IH. ring.
Qed.

Lemma runningSum_gridSum v w : runningSum v w = gridSum v w.
Proof. unfold runningSum, gridSum. rewrite foldl_sum. ring. Qed.

(** X12. The biomass counters of the world are rebuilt by every tick: at
    its end [biomass.total] and [biomass.prokaryote] both equal the sum of
    the biomass totals of all tiles, accumulated from 0 in the order of the
    visits, whatever the counters held before. *)
Theorem tick_world_biomass sqrt rand w :
  wf w → unitInterval rand →
  ∃ w', tick sqrt rand w = Some w'
    ∧ total (worldBiomass w') = runningSum tileTotal w'
    ∧ prokaryote (worldBiomass w') = runningSum tileTotal w'.
Proof.
  intros Hwf Hr.
  destruct (tick_phases sqrt rand w Hwf Hr)
    as (w1 & w3 & w4 & w' & Hw1 & Hwf1 & Hw3 & Hwf3 & Hw4 & Hwf4 & Hw' & Hwf' & Htick).
  cbv zeta in Hw3.
  set (ta := computeTileAtmosphere (atmosphere (beginTick w1))) in *.
  destruct (pass_biomass rand ta (computeHeatTrappingFactor ta) rasterOrder
              (beginTick w1) NoDup_rasterOrder)
    as (w3' & Hw3' & _ & Htot & Hpro & _); [|done|].
  { intros x y Hin. by apply elem_of_rasterOrder. }
  rewrite <- applyTiles_raster in Hw3';
    [|intros x y w5 w6; apply tileStep_wf|done].
  rewrite Hw3 in Hw3'. apply (inj Some) in Hw3'. subst w3'.
  destruct (heat_pass_atmosphere w3 w4 Hwf3 Hw4) as (_ & Hb4 & _).
  destruct (classify_pass w4 w' Hwf4 Hw') as (_ & _ & Hb' & _ & Hget).
  pose proof (same_heat_pass tileTotal w3 w4 (λ _ _, eq_refl) Hwf3 Hw4) as Hs4.
  exists w'. split; [exact Htick|].
  assert (Hsum : sumAt tileTotal w3 rasterOrder = gridSum tileTotal w').
  { rewrite <- sumAt_rasterOrder by done. symmetry. apply sumAt_ext.
    intros x y _. rewrite Hget, <- (Hs4 x y). by destruct (getTile w4 x y). }
  rewrite runningSum_gridSum, Hb', Hb4, Htot, Hpro, Hsum.
  cbn [beginTick worldBiomass total prokaryote]. split; ring.
Qed.

Lemma mistyPond_counters :
  (λ w, (this (total (worldBiomass w)), this (prokaryote (worldBiomass w))))
    <$> tick sqrtFloor (λ _, 0) mistyPond
  = Some (201 # 200, 201 # 200)%Q.
Proof. vm_cast_no_check (eq_refl (Some (201 # 200, 201 # 200)%Q)). Qed.

Lemma tick_world_biomass_witness :
  wf mistyPond ∧ unitInterval (λ _, 0)
  ∧ worldBiomass mistyPond = mkBiomass (num 7 1) (num 7 1)
  ∧ ∃ w', tick sqrtFloor (λ _, 0) mistyPond = Some w'
    ∧ total (worldBiomass w') = runningSum tileTotal w'
    ∧ prokaryote (worldBiomass w') = runningSum tileTotal w'
    ∧ runningSum tileTotal w' = num 201 200.
Proof.
  split; [exact wf_mistyPond|]. split; [exact unitInterval_zero|].
  split; [reflexivity|].
  destruct (tick_world_biomass sqrtFloor (λ _, 0) mistyPond wf_mistyPond
              unitInterval_zero) as (w' & Htick & Htot & Hpro).
  exists w'. split; [exact Htick|]. split; [exact Htot|]. split; [exact Hpro|].
  pose proof mistyPond_counters as Hc. rewrite Htick in Hc.
  cbn [fmap option_fmap option_map] in Hc. injection Hc as Hc _.
  rewrite <- Htot. apply Qc_is_canon. rewrite Hc. reflexivity.
Defined.

(** ** The random numbers a tick draws *)

Lemma countAt_ext p w w' idx :
  (∀ x y : nat, (x, y) ∈ idx → p <$> getTile w' x y = p <$> getTile w x y) →
  countAt p w' idx = countAt p w idx.
Proof.
  induction idx as [|[x y] idx IH]; intros H; [done|]. cbn [countAt].
  rewrite IH by (intros x' y' Hin; apply H; by right). f_equal.
  specialize (H x y ltac:(left)).
  destruct (getTile w' x y), (getTile w x y); try done.
  cbn [fmap option_fmap option_map] in H. apply (inj Some) in H. by rewrite H.
Qed.

Lemma abiogenesis_drawn rand htf tile a k :
  (abiogenesis rand (tileClimate htf tile a).1 k).2
  = if abiogenesisTrial htf tile then S k else k.
Proof.
  rewrite tileClimate_fst. unfold abiogenesis, abiogenesisTrial.
  cbn [biomass heat]. destruct (_ && _ && _); [|done].
  by destruct (ltb (rand k) prokaryoteAbiogenesisChance).
Qed.

Lemma abiogenesisTrial_exchange htf t t' :
  t' = t ∨ (canProkaryotesSurvive t = true ∧ ∃ v, t' = set_prokaryote v t) →
  abiogenesisTrial htf t' = abiogenesisTrial htf t.
Proof. by intros [->|(_ & v & ->)]. Qed.

Lemma pass_drawn rand ta htf idx w :
  NoDup idx →
  (∀ x y : nat, (x, y) ∈ idx → (x < worldWidth)%nat ∧ (y < worldHeight)%nat) →
  wf w →
  ∃ w', forEach2 idx (tileStep rand ta htf) w = Some w'
    ∧ wf w'
    ∧ drawn w' = (drawn w + countAt (abiogenesisTrial htf) w idx)%nat.
Proof.
  intros Hnd. revert w. induction Hnd as [|[x y] idx Hnin Hnd IH];
    intros w Hidx Hwf.
  { exists w. split; [done|]. split; [done|]. cbn [countAt]. lia. }
  destruct (Hidx x y) as [Hx Hy]; [left|].
  destruct (tileStep_tiles rand ta htf w x y Hwf Hx Hy)
    as (tile & w1 & Ht & Hrun1 & Hwf1 & Hspec).
  cbv zeta in Hspec. destruct Hspec as (_ & _ & Hd1 & Htiles).
  rewrite abiogenesis_drawn in Hd1.
  destruct (IH w1) as (w' & Hrun & Hwf' & Hd'); [|done|].
  { intros x' y' Hin. apply Hidx. by right. }
  exists w'. cbn [forEach2]. rewrite Hrun1. osimpl.
  split; [exact Hrun|]. split; [exact Hwf'|].
  rewrite Hd', Hd1. cbn [countAt]. rewrite Ht.
  rewrite (countAt_ext (abiogenesisTrial htf) w w1 idx).
  - destruct (abiogenesisTrial htf tile); lia.
  - intros x' y' Hin. destruct (getTile w x' y') as [t|] eqn:Hg.
    + destruct (Htiles x' y' t Hg) as (t' & -> & Hcase).
      rewrite decide_False in Hcase.
      * cbn [fmap option_fmap option_map]. f_equal.
        by apply abiogenesisTrial_exchange.
      * intros [-> ->]. by apply Hnin.
    + rewrite (getTile_None_out w1 x' y' Hwf1); [done|].
      intros [Hx' Hy']. destruct (wf_getTile w x' y' Hwf Hx' Hy') as [? Hs].
      by rewrite Hg in Hs.
Qed.

(** X13. A tick calls [Math.random] three times for the eruption and once
    for every tile that has no biomass and whose updated heat lies strictly
    between [prokaryoteAbiogenesisMinHeat] and [unlivableTemperature] — a
    number fixed by the state the tick starts from — and so between 3 and
    [3 + worldWidth * worldHeight] times. *)
Theorem tick_random_draws sqrt rand w :
  wf w → unitInterval rand →
  ∃ w', tick sqrt rand w = Some w'
    ∧ drawn w'
      = (drawn w + 3 + countTiles (abiogenesisTrial (tickHeatTrapping w)) w)%nat
    ∧ (drawn w + 3 ≤ drawn w' ≤ drawn w + 3 + worldWidth * worldHeight)%nat.
Proof.
  intros Hwf Hr.
  destruct (tick_phases sqrt rand w Hwf Hr)
    as (w1 & w3 & w4 & w' & Hw1 & Hwf1 & Hw3 & Hwf3 & Hw4 & Hwf4 & Hw' & Hwf' & Htick).
  destruct (eruptVolcano_spec sqrt rand w Hwf Hr)
    as (w1' & Hw1' & _ & Ha1 & _ & Hd1 & _).
  rewrite Hw1 in Hw1'. apply (inj Some) in Hw1'. subst w1'.
  pose proof (same_eruptVolcano (set_altitude 0) sqrt rand w w1 (λ _ _, eq_refl)
                Hwf Hr Hw1) as Hs1.
  cbv zeta in Hw3, Hd1.
  assert (Hbt : atmosphere (beginTick w1) = atmosphere (beginTick w)).
  { unfold beginTick. cbn [atmosphere]. by rewrite Ha1. }
  rewrite Hbt in Hw3. fold (tickHeatTrapping w) in Hw3.
  destruct (pass_drawn rand (computeTileAtmosphere (atmosphere (beginTick w)))
              (tickHeatTrapping w) rasterOrder (beginTick w1) NoDup_rasterOrder)
    as (w3' & Hw3' & _ & Hd3); [|done|].
  { intros x y Hin. by apply elem_of_rasterOrder. }
  rewrite <- applyTiles_raster in Hw3';
    [|intros x y w5 w6; apply tileStep_wf|done].
  rewrite Hw3 in Hw3'. apply (inj Some) in Hw3'. subst w3'.
  destruct (heat_pass_atmosphere w3 w4 Hwf3 Hw4) as (_ & _ & Hd4).
  destruct (classify_pass w4 w' Hwf4 Hw') as (_ & _ & _ & Hd' & _).
  rewrite countAt_rasterOrder in Hd3 by done.
  rewrite (countTiles_same (set_altitude 0) (abiogenesisTrial (tickHeatTrapping w))
             w (beginTick w1)) in Hd3; [|
    |exact Hwf|exact (wf_beginTick w1 Hwf1)|exact Hs1].
  2:{ intros [a1 l1 h1 c1 b1] [a2 l2 h2 c2 b2] Heq.
      cbn [set_altitude] in Heq. by injection Heq as -> -> -> ->. }
  exists w'. split; [exact Htick|].
  assert (Hd : drawn w'
    = (drawn w + 3 + countTiles (abiogenesisTrial (tickHeatTrapping w)) w)%nat).
  { rewrite Hd', Hd4, Hd3. cbn [beginTick drawn]. rewrite Hd1. lia. }
  split; [exact Hd|]. rewrite Hd.
  assert (Hle : (countTiles (abiogenesisTrial (tickHeatTrapping w)) w
                 ≤ worldWidth * worldHeight)%nat).
  { unfold countTiles. etransitivity; [apply length_filter|].
    destruct Hwf as [Hl Hc]. rewrite <- Hl. clear Hl.
    induction Hc as [|col cols Hcol _ IH]; [done|].
    cbn [concat length]. rewrite length_app, Hcol. lia. }
  lia.
Qed.

Lemma tick_random_draws_witness :
  wf newWorld ∧ unitInterval (λ _, num 1 2)
  ∧ ∃ w', tick sqrtFloor (λ _, num 1 2) newWorld = Some w'
      ∧ (drawn newWorld + 3 ≤ drawn w')%nat.
Proof.
  split; [exact wf_newWorld|]. split; [exact unitInterval_half|].
  destruct (tick_random_draws sqrtFloor (λ _, num 1 2) newWorld wf_newWorld
              unitInterval_half) as (w' & Htick & _ & Hle & _).
  exists w'. exact (conj Htick Hle).
Defined.

(** ** The new world *)

Lemma ofNat_inj (a b : nat) : ofNat a = ofNat b → a = b.
Proof.
  unfold ofNat, ofZ. intros H. apply (f_equal this) in H. cbn [this Q2Qc] in H.
  assert (Hq : (inject_Z (Z.of_nat a) == inject_Z (Z.of_nat b))%Q).
  { rewrite <- (Qred_correct (inject_Z (Z.of_nat a))), H. apply Qred_correct. }
  by apply Nat2Z.inj, inject_Z_injective.
Qed.

Lemma ofNat_minus (a b : nat) : (b ≤ a)%nat → ofNat (a - b) = ofNat a - ofNat b.
Proof.
  intros H. replace a with (a - b + b)%nat at 2 by lia. rewrite ofNat_plus. ring.
Qed.

Lemma Qc_eq_le (a b : Qc) : a = b → a ≤ b ∧ b ≤ a.
Proof. intros ->. split; apply Qcle_refl. Qed.

Lemma newTile_luminosity (x y : nat) :
  baseLuminosity (newTile x y)
  = 1 - (1 - polarLuminosity) * (Qcabs (ofNat y - num 50 1) / num 50 1).
Proof.
  unfold newTile. cbv zeta. cbn [baseLuminosity].
  replace (ofNat worldHeight / 2) with (num 50 1); [done|].
  by apply Qc_is_canon.
Qed.

(** X2. The base luminosity [Tile(x, y)] gives a tile of the grid depends on
    the row [y] only and lies between [polarLuminosity] and 1; it is 1 on
    the row [worldHeight / 2] only and [polarLuminosity] on the row 0 only
    (the last row stays above it); the rows [y] and [worldHeight - y] have
    the same luminosity. *)
Theorem Tile_luminosity (x y : nat) :
  (y < worldHeight)%nat →
  polarLuminosity ≤ baseLuminosity (newTile x y)
  ∧ baseLuminosity (newTile x y) ≤ 1
  ∧ (baseLuminosity (newTile x y) = 1 ↔ y = (worldHeight / 2)%nat)
  ∧ (baseLuminosity (newTile x y) = polarLuminosity ↔ y = 0%nat)
  ∧ ((0 < y)%nat →
     baseLuminosity (newTile x (worldHeight - y)) = baseLuminosity (newTile x y))
  ∧ ∀ x' : nat, baseLuminosity (newTile x' y) = baseLuminosity (newTile x y).
Proof.
  intros Hy. rewrite !newTile_luminosity.
  assert (Hw : ofNat worldHeight = num 100 1) by by apply Qc_is_canon.
  pose proof (ofNat_nonneg y) as H0.
  assert (H1 : ofNat y ≤ num 99 1).
  { change (num 99 1) with (ofNat 99). apply ofNat_le. unfold worldHeight in Hy. lia. }
  split_and!.
  - unfold Qcabs. generalize dependent (ofNat y). intros q H0 H1. qc.
  - unfold Qcabs. generalize dependent (ofNat y). intros q H0 H1. qc.
  - split.
    + intros E. apply ofNat_inj. change (ofNat (worldHeight / 2)) with (num 50 1).
      unfold Qcabs in E. apply Qc_eq_le in E as [E1 E2].
      generalize dependent (ofNat y). intros q H0 H1 E1 E2.
      apply Qcle_antisym; qc.
    + intros ->. change (ofNat (worldHeight / 2)) with (num 50 1).
      by apply Qc_is_canon.
  - split.
    + intros E. apply ofNat_inj. change (ofNat 0) with 0.
      unfold Qcabs in E. apply Qc_eq_le in E as [E1 E2].
      generalize dependent (ofNat y). intros q H0 H1 E1 E2.
      apply Qcle_antisym; qc.
    + intros ->. by apply Qc_is_canon.
  - intros Hpos. rewrite ofNat_minus, Hw by lia.
    assert (H2 : num 1 1 ≤ ofNat y).
    { change (num 1 1) with (ofNat 1). by apply ofNat_le. }
    unfold Qcabs. generalize dependent (ofNat y). intros q H0 H1 H2. qc.
  - done.
Qed.

Lemma Tile_luminosity_witness :
  polarLuminosity ≤ baseLuminosity (newTile 3 99)
  ∧ baseLuminosity (newTile 3 99) ≤ 1.
Proof.
  destruct (Tile_luminosity 3 99) as (H1 & H2 & _); [unfold worldHeight; lia|].
  exact (conj H1 H2).
Defined.

(** ** Rendering *)

Lemma draw_lookup ts w (i : nat) r :
  wf w →
  draw ts w !! i = Some r
  ↔ ∃ (x y : nat) tile,
      getTile w x y = Some tile ∧ i = (x * worldHeight + y)%nat
      ∧ r = mkFillRect (tileFillStyle ts tile) (Z.of_nat x * tileSize)
              (Z.of_nat y * tileSize) tileSize tileSize.
Proof.
  intros [Hl Hc]. unfold draw.
  rewrite (join_lookup_Some_same_length worldHeight).
  - split.
    + intros (x & l & y & Hx & Hy & ->).
      rewrite list_lookup_imap in Hx.
      destruct (tiles w !! x) as [col|] eqn:Hcol; [|done].
      cbn [fmap option_fmap option_map] in Hx. apply (inj Some) in Hx. subst l.
      rewrite list_lookup_imap in Hy.
      destruct (col !! y) as [tile|] eqn:Ht; [|done].
      cbn [fmap option_fmap option_map] in Hy. apply (inj Some) in Hy. subst r.
      exists x, y, tile. split; [|done]. unfold getTile. by rewrite Hcol.
    + intros (x & y & tile & Hg & -> & ->). unfold getTile in Hg.
      destruct (tiles w !! x) as [col|] eqn:Hcol; [|done]. osimpl in Hg.
      eexists x, _, y. split; [by rewrite list_lookup_imap, Hcol|].
      split; [|done]. by rewrite list_lookup_imap, Hg.
  - apply Forall_lookup. intros x l Hx.
    rewrite list_lookup_imap in Hx.
    destruct (tiles w !! x) as [col|] eqn:Hcol; [|done].
    cbn [fmap option_fmap option_map] in Hx. apply (inj Some) in Hx. subst l.
    rewrite length_imap. rewrite Forall_lookup in Hc. by apply (Hc x).
Qed.

(** X15. On a full grid [draw] paints [worldWidth * worldHeight]
    rectangles, the tiles in raster order: the tile [(x, y)] is the
    [(x * worldHeight + y)]-th, a square of side [tileSize] at
    [(x * tileSize, y * tileSize)] in the colour of the tile.  The squares
    tile the canvas: every pixel of the 1000 by 1000 canvas lies in exactly
    one of them. *)
Theorem draw_covers_canvas ts w :
  wf w →
  length (draw ts w) = (worldWidth * worldHeight)%nat
  ∧ (∀ (x y : nat) tile, getTile w x y = Some tile →
       draw ts w !! (x * worldHeight + y)%nat
       = Some (mkFillRect (tileFillStyle ts tile) (Z.of_nat x * tileSize)
                 (Z.of_nat y * tileSize) tileSize tileSize))
  ∧ (∀ px py : Z, (0 ≤ px < canvasWidth)%Z → (0 ≤ py < canvasHeight)%Z →
       ∃ (i : nat) r, draw ts w !! i = Some r ∧ covers r px py
         ∧ ∀ (i' : nat) r', draw ts w !! i' = Some r' → covers r' px py → i' = i).
Proof.
  intros Hwf. split; [|split].
  - destruct Hwf as [Hl Hc]. unfold draw. rewrite length_join.
    rewrite (sum_list_fmap_same worldHeight).
    + by rewrite length_imap, Hl, Nat.mul_comm.
    + apply Forall_lookup. intros x l Hx.
      rewrite list_lookup_imap in Hx.
      destruct (tiles w !! x) as [col|] eqn:Hcol; [|done].
      cbn [fmap option_fmap option_map] in Hx. apply (inj Some) in Hx. subst l.
      rewrite length_imap. rewrite Forall_lookup in Hc. by apply (Hc x).
  - intros x y tile Hg. apply draw_lookup; [done|]. by exists x, y, tile.
  - intros px py Hpx Hpy. unfold canvasWidth in Hpx. unfold canvasHeight in Hpy.
    set (x := Z.to_nat (px / 10)). set (y := Z.to_nat (py / 10)).
    assert (Hx : (x < worldWidth)%nat).
    { unfold x, worldWidth. apply Nat2Z.inj_lt. rewrite Z2Nat.id by (apply Z.div_pos; lia).
      apply Z.div_lt_upper_bound; lia. }
    assert (Hy : (y < worldHeight)%nat).
    { unfold y, worldHeight. apply Nat2Z.inj_lt. rewrite Z2Nat.id by (apply Z.div_pos; lia).
      apply Z.div_lt_upper_bound; lia. }
    destruct (wf_getTile w x y Hwf Hx Hy) as [tile Hg].
    eexists (x * worldHeight + y)%nat, _. split.
    { apply draw_lookup; [done|]. by exists x, y, tile. }
    assert (Hxz : Z.of_nat x = (px / 10)%Z).
    { unfold x. apply Z2Nat.id, Z.div_pos; lia. }
    assert (Hyz : Z.of_nat y = (py / 10)%Z).
    { unfold y. apply Z2Nat.id, Z.div_pos; lia. }
    split.
    { unfold covers, tileSize. cbn [rectX rectY rectWidth rectHeight].
      rewrite Hxz, Hyz. pose proof (Z.mul_div_le px 10).
      pose proof (Z.mul_div_le py 10).
      pose proof (Z.mul_succ_div_gt px 10). pose proof (Z.mul_succ_div_gt py 10).
      lia. }
    intros i' r' Hr' Hcov.
    apply draw_lookup in Hr' as (x' & y' & tile' & Hg' & -> & ->); [|done].
    unfold covers, tileSize in Hcov. cbn [rectX rectY rectWidth rectHeight] in Hcov.
    destruct Hcov as [Hcx Hcy].
    assert (Z.of_nat x' = (px / 10)%Z).
    { apply (Z.div_unique px 10 _ (px - Z.of_nat x' * 10)); lia. }
    assert (Z.of_nat y' = (py / 10)%Z).
    { apply (Z.div_unique py 10 _ (py - Z.of_nat y' * 10)); lia. }
    replace x' with x by lia. replace y' with y by lia. done.
Qed.

Lemma draw_covers_canvas_witness :
  wf newWorld ∧ length (draw pretty newWorld) = (worldWidth * worldHeight)%nat.
Proof.
  split; [exact wf_newWorld|].
  by destruct (draw_covers_canvas pretty newWorld wf_newWorld) as [? _].
Defined.

Lemma decimal_small (ts : Z → string) (n : Z) :
  decimal ts → (-1000 ≤ n ≤ 1000)%Z → ts n = pretty n.
Proof.
  intros Hd Hn. apply Hd.
  assert (H : (10 ^ 21 = 1000000000000000000000)%Z) by reflexivity.
  rewrite H. lia.
Qed.

Lemma lightness_range (a : Qc) :
  0 ≤ a → a ≤ maxAltitude →
  (0 ≤ Math_round (a / maxAltitude * num 100 1) ≤ 100)%Z.
Proof.
  intros H0 H1. unfold Math_round.
  assert (H : (0 ≤ Math_floor (a / maxAltitude * num 100 1 + num 1 2) < 101)%Z);
    [|lia].
  apply Math_floor_range.
  - clear H1. qc.
  - change (ofZ 101) with (num 101 1). clear H0. qc.
Qed.

(** The text of the fill style of a tile. *)
Lemma tileFillStyle_text (ts : Z → string) t :
  decimal ts → 0 ≤ altitude t → altitude t ≤ maxAltitude →
  (0 ≤ Math_round (altitude t / maxAltitude * num 100 1) ≤ 100)%Z
  ∧ tileFillStyle ts t
    = match legend t with
      | Land =>
          "hsl(21,55%,"
          +:+ pretty (Math_round (altitude t / maxAltitude * num 100 1))
          +:+ "%)"
      | Ocean => "hsl(233,84%,45%)"
      | Life => "hsl(117,80%,34%)"
      | Frozen => "hsl(0,0%,90%)"
      | Blank => "hsl(0,0%,0%)"
      end.
Proof.
  intros Hd H0 H1. pose proof (lightness_range (altitude t) H0 H1) as HL.
  split; [exact HL|]. unfold tileFillStyle, legend, hsl. cbv zeta.
  destruct (tileCover t); cbn [cover_eqb].
  - rewrite !(decimal_small ts) by (done || by vm_compute). by vm_compute.
  - rewrite (decimal_small ts 21 Hd) by lia.
    rewrite (decimal_small ts (Math_round (num 55 100 * num 100 1)) Hd)
      by (by vm_compute).
    rewrite (decimal_small ts
               (Math_round (altitude t / maxAltitude * num 100 1)) Hd) by lia.
    generalize (pretty (Math_round (altitude t / maxAltitude * num 100 1))).
    intros s. reflexivity.
  - destruct (eqb (prokaryote (biomass t)) 0);
      rewrite !(decimal_small ts) by (done || by vm_compute); by vm_compute.
  - rewrite !(decimal_small ts) by (done || by vm_compute). by vm_compute.
Qed.

Lemma legend_cases t :
  (legend t = Land ↔ tileCover t = Rock)
  ∧ (legend t = Ocean ↔ tileCover t = Water ∧ prokaryote (biomass t) = 0)
  ∧ (legend t = Life ↔ tileCover t = Water ∧ prokaryote (biomass t) ≠ 0)
  ∧ (legend t = Frozen ↔ tileCover t = Ice)
  ∧ (legend t = Blank ↔ tileCover t = NotComputed).
Proof.
  unfold legend. destruct (tileCover t); [| |destruct (eqb _ 0) eqn:He|].
  - split_and!; split; (done || by intros [? ?]).
  - split_and!; split; (done || by intros [? ?]).
  - apply eqb_eq in He. split_and!; split; (done || by intros [? ?]).
  - assert (prokaryote (biomass t) ≠ 0).
    { intros H0. apply eqb_eq in H0. by rewrite H0 in He. }
    split_and!; split; (done || by intros [? ?]).
  - split_and!; split; (done || by intros [? ?]).
Qed.

(** X16. With numbers written in decimal digits, the fill style of a tile
    whose altitude is between 0 and [maxAltitude] is [hsl(21,55%,L%)] on
    rock, for a whole number [L] between 0 and 100 that is 100 at
    [maxAltitude]; [hsl(233,84%,45%)] on water whose population is 0,
    [hsl(117,80%,34%)] on water with prokaryotes, [hsl(0,0%,90%)] on ice and
    [hsl(0,0%,0%)] on a tile not yet classified.  The picture can be read
    back: two tiles of the same fill style are of the same kind. *)
Theorem tile_colours (ts : Z → string) :
  decimal ts →
  (∀ t, (legend t = Land ↔ tileCover t = Rock)
        ∧ (legend t = Ocean ↔ tileCover t = Water ∧ prokaryote (biomass t) = 0)
        ∧ (legend t = Life ↔ tileCover t = Water ∧ prokaryote (biomass t) ≠ 0)
        ∧ (legend t = Frozen ↔ tileCover t = Ice)
        ∧ (legend t = Blank ↔ tileCover t = NotComputed))
  ∧ (∀ t, 0 ≤ altitude t → altitude t ≤ maxAltitude →
       match legend t with
       | Land => ∃ L : Z, (0 ≤ L ≤ 100)%Z
                   ∧ tileFillStyle ts t = "hsl(21,55%," +:+ pretty L +:+ "%)"
       | Ocean => tileFillStyle ts t = "hsl(233,84%,45%)"
       | Life => tileFillStyle ts t = "hsl(117,80%,34%)"
       | Frozen => tileFillStyle ts t = "hsl(0,0%,90%)"
       | Blank => tileFillStyle ts t = "hsl(0,0%,0%)"
       end)
  ∧ (∀ t, tileCover t = Rock → altitude t = maxAltitude →
       tileFillStyle ts t = "hsl(21,55%,100%)")
  ∧ (∀ t1 t2,
       0 ≤ altitude t1 → altitude t1 ≤ maxAltitude →
       0 ≤ altitude t2 → altitude t2 ≤ maxAltitude →
       tileFillStyle ts t1 = tileFillStyle ts t2 → legend t1 = legend t2).
Proof.
  intros Hd. split; [exact legend_cases|]. split_and!.
  - intros t H0 H1. destruct (tileFillStyle_text ts t Hd H0 H1) as [HL E].
    rewrite E. destruct (legend t); try done. eexists. split; [exact HL|done].
  - intros t Hr Ha.
    destruct (tileFillStyle_text ts t Hd) as [_ E];
      [rewrite Ha; by vm_compute|rewrite Ha; apply Qcle_refl|].
    rewrite E. unfold legend. rewrite Hr, Ha. by vm_compute.
  - intros t1 t2 H10 H11 H20 H21 Heq.
    destruct (tileFillStyle_text ts t1 Hd H10 H11) as [_ E1].
    destruct (tileFillStyle_text ts t2 Hd H20 H21) as [_ E2].
    rewrite E1, E2 in Heq. clear E1 E2.
    destruct (legend t1), (legend t2); try reflexivity;
      exfalso; cbn in Heq; discriminate Heq.
Qed.

Lemma decimal_pretty : decimal pretty.
Proof. by intros n _. Qed.

Lemma tile_colours_witness :
  decimal pretty
  ∧ tileFillStyle pretty (oceanTile 0) = "hsl(233,84%,45%)"
  ∧ tileFillStyle pretty (oceanTile (num 3 1)) = "hsl(117,80%,34%)"
  ∧ tileFillStyle pretty (set_altitude maxAltitude rockTile) = "hsl(21,55%,100%)"
  ∧ legend (oceanTile 0) ≠ legend (oceanTile (num 3 1)).
Proof.
  split; [exact decimal_pretty|].
  destruct (tile_colours pretty decimal_pretty) as (_ & Htext & Htop & _).
  split_and!.
  - pose proof (Htext (oceanTile 0)) as H.
    assert (E : legend (oceanTile 0) = Ocean) by (by vm_compute).
    rewrite E in H. apply H; by vm_compute.
  - pose proof (Htext (oceanTile (num 3 1))) as H.
    assert (E : legend (oceanTile (num 3 1)) = Life) by (by vm_compute).
    rewrite E in H. apply H; by vm_compute.
  - by apply Htop.
  - by vm_compute.
Defined.

(** X17. With numbers written in decimal digits, [rgb(r, g, b)] for
    intensities between 0 and 1 is the text [rgb(R,G,B)] of the channels
    [floor (256 * intensity)]; a channel is between 0 and 256, and it is 256,
    one above the highest channel value 255, exactly at the intensity
    1. *)
Theorem rgb_channels (ts : Z → string) (r g b : Qc) :
  decimal ts →
  0 ≤ r → r ≤ 1 → 0 ≤ g → g ≤ 1 → 0 ≤ b → b ≤ 1 →
  let channel := λ v : Qc, Math_floor (v * num 256 1) in
  rgb ts r g b
  = "rgb(" +:+ pretty (channel r) +:+ "," +:+ pretty (channel g) +:+ ","
    +:+ pretty (channel b) +:+ ")"
  ∧ ∀ v : Qc, 0 ≤ v → v ≤ 1 →
      (0 ≤ channel v ≤ 256)%Z ∧ (channel v = 256%Z ↔ v = 1).
Proof.
  intros Hd Hr0 Hr1 Hg0 Hg1 Hb0 Hb1 channel.
  assert (Hch : ∀ v : Qc, 0 ≤ v → v ≤ 1 →
            (0 ≤ channel v ≤ 256)%Z ∧ (channel v = 256%Z ↔ v = 1)).
  { intros v H0 H1. unfold channel.
    assert (H : (0 ≤ Math_floor (v * num 256 1) < 257)%Z).
    { apply Math_floor_range; [clear H1; qc|].
      change (ofZ 257) with (num 257 1). clear H0. qc. }
    split; [lia|]. split.
    - intros E. apply Qcle_antisym; [done|].
      apply Qcnot_lt_le. intros Hlt.
      assert (H' : (0 ≤ Math_floor (v * num 256 1) < 256)%Z); [|lia].
      apply Math_floor_range; [clear H1 Hlt; qc|].
      change (ofZ 256) with (num 256 1). clear H0 H1. qc.
    - intros ->. by vm_compute. }
  split; [|exact Hch].
  unfold rgb. cbv zeta. fold (channel r) (channel g) (channel b).
  destruct (Hch r Hr0 Hr1) as [Hr _]. destruct (Hch g Hg0 Hg1) as [Hg _].
  destruct (Hch b Hb0 Hb1) as [Hb _].
  rewrite !(decimal_small ts) by (done || lia). done.
Qed.

Lemma rgb_channels_witness :
  decimal pretty ∧ rgb pretty 1 (num 1 2) 0 = "rgb(256,128,0)".
Proof.
  split; [exact decimal_pretty|].
  destruct (rgb_channels pretty 1 (num 1 2) 0 decimal_pretty) as [-> _];
    try done.
Defined.

(** ** Runs of several ticks *)

(** X11. Nothing but the decay statement touches nitrogen and methane:
    after [n] ticks each holds the quantity that [n] decay statements
    [quantity -= quantity * atmosphereLossRate] leave of its first quantity,
    whatever the eruptions and the biomass do; from a nonnegative quantity
    it stays nonnegative and never rises above it. *)
Theorem ticks_inert_gases sqrt rand w :
  wf w → unitInterval rand →
  ∀ n : nat, ∃ w', ticks sqrt rand n w = Some w'
    ∧ nitrogen (atmosphere w')
      = Nat.iter n (λ q, q - q * atmosphereLossRate) (nitrogen (atmosphere w))
    ∧ methane (atmosphere w')
      = Nat.iter n (λ q, q - q * atmosphereLossRate) (methane (atmosphere w))
    ∧ (0 ≤ nitrogen (atmosphere w) →
       0 ≤ nitrogen (atmosphere w')
       ∧ nitrogen (atmosphere w') ≤ nitrogen (atmosphere w))
    ∧ (0 ≤ methane (atmosphere w) →
       0 ≤ methane (atmosphere w')
       ∧ methane (atmosphere w') ≤ methane (atmosphere w)).
Proof.
  intros Hwf Hr n. change (λ q : Qc, q - q * atmosphereLossRate) with decayed.
  assert (Hrun : ∃ w', ticks sqrt rand n w = Some w'
            ∧ nitrogen (atmosphere w') = Nat.iter n decayed (nitrogen (atmosphere w))
            ∧ methane (atmosphere w') = Nat.iter n decayed (methane (atmosphere w))).
  { revert w Hwf. induction n as [|n IH]; intros w Hwf.
    { exists w. done. }
    destruct (tick_phases sqrt rand w Hwf Hr)
      as (_ & _ & _ & w1 & _ & _ & _ & _ & _ & _ & _ & Hwf1 & Htick).
    destruct (tick_atmosphere sqrt rand w Hwf Hr)
      as (_ & _ & w1' & _ & _ & _ & Htick' & _ & _ & _ & Hn & Hm).
    rewrite Htick in Htick'. apply (inj Some) in Htick'. subst w1'.
    destruct (IH w1 Hwf1) as (w' & Hrun & Hn' & Hm').
    exists w'. cbn [ticks]. rewrite Htick. osimpl. split; [exact Hrun|].
    rewrite Hn', Hm', Hn, Hm.
    fold (decayed (nitrogen (atmosphere w))) (decayed (methane (atmosphere w))).
    split; symmetry; apply Nat.iter_succ_r. }
  destruct Hrun as (w' & Hrun & Hn & Hm). exists w'.
  split; [exact Hrun|]. split; [exact Hn|]. split; [exact Hm|].
  rewrite Hn, Hm. split; intros H0;
    destruct (decayed_iter_bounds n _ H0) as (? & ? & _); done.
Qed.

Lemma ticks_inert_gases_witness :
  wf mistyPond ∧ unitInterval (λ _, num 1 2)
  ∧ nitrogen (atmosphere mistyPond) = num 100 1
  ∧ ∃ w', ticks sqrtFloor (λ _, num 1 2) 3 mistyPond = Some w'
      ∧ nitrogen (atmosphere w')
        = Nat.iter 3 (λ q, q - q * atmosphereLossRate) (num 100 1)
      ∧ 0 ≤ nitrogen (atmosphere w')
      ∧ nitrogen (atmosphere w') ≤ num 100 1.
Proof.
  split; [exact wf_mistyPond|]. split; [exact unitInterval_half|].
  split; [reflexivity|].
  destruct (ticks_inert_gases sqrtFloor (λ _, num 1 2) mistyPond wf_mistyPond
              unitInterval_half 3) as (w' & Hrun & Hn & _ & Hsign & _).
  exists w'. split; [exact Hrun|]. split; [exact Hn|].
  apply Hsign. by vm_compute.
Defined.

(** ** The population stays below the capacity of a bright tile *)

Lemma capacity_le_max t : baseLuminosity t ≤ 1 → capacity t ≤ maxPopulation.
Proof.
  unfold capacity, maxPopulation. generalize (baseLuminosity t). intros l Hl. qc.
Qed.

Lemma average_le (K a b : Qc) : a ≤ K → b ≤ K → (a + b) / 2 ≤ K.
Proof. intros. qc. Qed.

Lemma tileLocal_bounded rand ta htf w w' (x y : nat) :
  wf w → (x < worldWidth)%nat → (y < worldHeight)%nat →
  populationBounded w → tileLocal rand ta htf x y w = Some w' →
  populationBounded w'.
Proof.
  intros Hwf Hx Hy Hb Hrun.
  destruct (tileLocal_spec rand ta htf w x y Hwf Hx Hy)
    as (tile & w1 & Ht & Hrun1 & _ & Hspec).
  rewrite Hrun in Hrun1. apply (inj Some) in Hrun1. subst w1.
  cbv zeta in Hspec. destruct Hspec as (_ & _ & _ & Hself & Hother).
  intros x' y' t' Hg'. destruct (decide (x' = x ∧ y' = y)) as [[-> ->]|Hne].
  - rewrite Hself in Hg'. apply (inj Some) in Hg'. subst t'.
    destruct (tileLocal_tile rand ta htf tile (atmosphere w) (drawn w)
                (worldBiomass w)) as (p & -> & Hp).
    cbn [baseLuminosity biomass prokaryote].
    destruct (Hb x y tile Ht) as [Hl _]. split; [exact Hl|].
    destruct (visit_population rand ta htf tile (atmosphere w) (drawn w))
      as [Hcap _].
    rewrite <- Hp in Hcap. eapply Qcle_trans; [exact Hcap|].
    by apply capacity_le_max.
  - rewrite (Hother x' y' Hne) in Hg'. by apply (Hb x' y').
Qed.

Lemma transferProkaryotes_bounded w w' (x y : nat) :
  wf w → (x < worldWidth)%nat → (y < worldHeight)%nat →
  populationBounded w → transferProkaryotes x y w = Some w' →
  populationBounded w'.
Proof.
  intros Hwf Hx Hy Hb Hrun.
  destruct (transferProkaryotes_spec w x y Hwf Hx Hy)
    as (tile & tileE & w2 & Ht & HtE & Hrun2 & Hwf' & _ & _ & _ & Hspec).
  rewrite Hrun in Hrun2. apply (inj Some) in Hrun2. subst w2.
  cbv zeta in Hspec. destruct Hspec as (HE & Hlast & Hsouth & Hother).
  destruct (Hb _ _ _ Ht) as [Lt Pt]. destruct (Hb _ _ _ HtE) as [LE PE].
  pose proof (average_le _ _ _ Pt PE) as PavgE.
  set (exE := canProkaryotesSurvive tile && canProkaryotesSurvive tileE && _) in *.
  assert (P1 : (if exE
                then (prokaryote (biomass tile) + prokaryote (biomass tileE)) / 2
                else prokaryote (biomass tile)) ≤ maxPopulation).
  { by destruct exE. }
  intros x' y' t' Hg'.
  destruct (decide (x' = x ∧ y' = y)) as [[-> ->]|Hn1].
  { destruct (decide (y + 1 = worldHeight)%nat) as [Hl|Hl].
    - rewrite (Hlast Hl) in Hg'. apply (inj Some) in Hg'. subst t'.
      by destruct exE.
    - destruct Hsouth as (tileS & HtS & _ & Hself); [lia|].
      rewrite Hself in Hg'. apply (inj Some) in Hg'. subst t'.
      destruct (Hb _ _ _ HtS) as [LS PS].
      pose proof (average_le _ _ _ P1 PS) as PavgS.
      set (exS := canProkaryotesSurvive tile && canProkaryotesSurvive tileS && _).
      destruct exS; [done|]. by destruct exE. }
  destruct (decide (x' = (x + 1) mod worldWidth ∧ y' = y)) as [[-> ->]|Hn2].
  { rewrite HE in Hg'. apply (inj Some) in Hg'. subst t'. by destruct exE. }
  destruct (decide (x' = x ∧ y' = (y + 1)%nat)) as [[-> ->]|Hn3].
  { destruct (getTile_lt w' x (y + 1)%nat Hwf') as [_ Hlt]; [by rewrite Hg'|].
    destruct (Hsouth Hlt) as (tileS & HtS & HS & _).
    rewrite HS in Hg'. apply (inj Some) in Hg'. subst t'.
    destruct (Hb _ _ _ HtS) as [LS PS].
    pose proof (average_le _ _ _ P1 PS) as PavgS.
    set (exS := canProkaryotesSurvive tile && canProkaryotesSurvive tileS && _).
    by destruct exS. }
  rewrite (Hother x' y' Hn1 Hn2 Hn3) in Hg'. by apply (Hb x' y').
Qed.

Lemma populationBounded_same w w' :
  same baseLuminosity w w' → same biomass w w' →
  populationBounded w → populationBounded w'.
Proof.
  intros Hl Hbio Hb x y t' Hg'. specialize (Hl x y). specialize (Hbio x y).
  rewrite Hg' in Hl, Hbio. destruct (getTile w x y) as [t|] eqn:Hg; [|done].
  cbn [fmap option_fmap option_map] in Hl, Hbio.
  apply (inj Some) in Hl, Hbio. rewrite Hl, Hbio. by apply (Hb x y).
Qed.

Lemma tick_bounded sqrt rand :
  unitInterval rand → ∀ w, wf w → populationBounded w →
  ∃ w', tick sqrt rand w = Some w' ∧ wf w' ∧ populationBounded w'.
Proof.
  intros Hr w Hwf Hb.
  destruct (tick_phases sqrt rand w Hwf Hr)
    as (w1 & w3 & w4 & w' & Hw1 & Hwf1 & Hw3 & Hwf3 & Hw4 & Hwf4 & Hw' & Hwf' & Htick).
  exists w'. split; [exact Htick|]. split; [exact Hwf'|].
  assert (Hb1 : populationBounded (beginTick w1)).
  { apply (populationBounded_same w); [| |done].
    - apply (same_eruptVolcano baseLuminosity sqrt rand w w1); done.
    - apply (same_eruptVolcano biomass sqrt rand w w1); done. }
  cbv zeta in Hw3.
  set (ta := computeTileAtmosphere (atmosphere (beginTick w1))) in *.
  destruct (tileStep_pass populationBounded rand ta (computeHeatTrappingFactor ta)
              (beginTick w1)) as (w3' & Hw3' & _ & Hb3).
  { intros x y w5 w6 Hx Hy Hwf5 Hb5 Hrun.
    exact (tileLocal_bounded rand ta _ w5 w6 x y Hwf5 Hx Hy Hb5 Hrun). }
  { intros x y w5 w6 Hx Hy Hwf5 Hb5 Hrun.
    exact (transferProkaryotes_bounded w5 w6 x y Hwf5 Hx Hy Hb5 Hrun). }
  { exact (wf_beginTick w1 Hwf1). }
  { exact Hb1. }
  rewrite Hw3 in Hw3'. apply (inj Some) in Hw3'. subst w3'.
  assert (Hb4 : populationBounded w4).
  { apply (populationBounded_same w3); [| |done].
    - apply (same_heat_pass baseLuminosity w3 w4); done.
    - apply (same_heat_pass biomass w3 w4); done. }
  destruct (classify_pass w4 w' Hwf4 Hw') as (_ & _ & _ & _ & Hget).
  intros x y t' Hg'. rewrite Hget in Hg'.
  destruct (getTile w4 x y) as [t4|] eqn:Hg4; [|done].
  apply (inj Some) in Hg'. subst t'. cbn [set_tileCover baseLuminosity biomass].
  by apply (Hb4 x y).
Qed.

(** X9. When no tile is brighter than full luminosity or holds a
    population above
    [maxPopulation = fullLuminosityHeat * photosynthticBiomassPerEnergy],
    the same holds after every number of ticks. *)
Theorem ticks_population_bounded sqrt rand w :
  wf w → unitInterval rand → populationBounded w →
  ∀ n : nat, ∃ w', ticks sqrt rand n w = Some w' ∧ populationBounded w'.
Proof.
  intros Hwf Hr Hb n.
  destruct (ticks_inv populationBounded sqrt rand (tick_bounded sqrt rand Hr)
              n w Hwf Hb) as (w' & Hrun & _ & Hb').
  by exists w'.
Qed.

Lemma wf_crowdedOcean : wf crowdedOcean.
Proof. apply wfb_wf. vm_compute. reflexivity. Qed.

Lemma populationBounded_crowdedOcean : populationBounded crowdedOcean.
Proof.
  intros x y t Hg.
  apply (tiles_check (λ t, leb (baseLuminosity t) 1
                           && leb (prokaryote (biomass t)) maxPopulation)
           crowdedOcean) in Hg.
  - apply andb_true_iff in Hg as [H0 H1]. by rewrite !leb_le in *.
  - vm_compute. reflexivity.
Qed.

Lemma ticks_population_bounded_witness :
  wf crowdedOcean ∧ unitInterval (λ _, num 1 2) ∧ populationBounded crowdedOcean
  ∧ (prokaryote ∘ biomass) <$> getTile crowdedOcean 1 0 = Some maxPopulation
  ∧ (prokaryote ∘ biomass) <$> getTile crowdedOcean 0 0 = Some 0
  ∧ ∃ w', ticks sqrtFloor (λ _, num 1 2) 4 crowdedOcean = Some w'
      ∧ populationBounded w'.
Proof.
  split; [exact wf_crowdedOcean|]. split; [exact unitInterval_half|].
  split; [exact populationBounded_crowdedOcean|].
  split; [cbn; f_equal; by apply Qc_is_canon|]. split; [by vm_compute|].
  exact (ticks_population_bounded sqrtFloor (λ _, num 1 2) crowdedOcean
           wf_crowdedOcean unitInterval_half populationBounded_crowdedOcean 4).
Defined.

(** ** The animation *)

Lemma reduce_runs {A} (f : Qc → A → option Qc) (arr : list A) (init : Qc) :
  (∀ acc a, a ∈ arr → is_Some (f acc a)) → is_Some (reduce f arr init).
Proof.
  revert init. induction arr as [|a arr IH]; intros init Hf; [by eexists|].
  destruct (Hf init a) as [acc Hacc]; [left|]. cbn [reduce]. rewrite Hacc. osimpl.
  apply IH. intros acc' a' Hin. apply Hf. by right.
Qed.

Lemma updateStats_runs w : wf w → is_Some (updateStats w).
Proof.
  intros [Hl Hc]. rewrite Forall_lookup in Hc.
  destruct (lookup_lt_is_Some_2 (tiles w) 50) as [column Hcol].
  { rewrite Hl. unfold worldWidth. lia. }
  assert (Hrow : ∀ (j : nat) (acc : Qc) cur, (j < worldHeight)%nat → cur ∈ tiles w →
            is_Some (tile ← cur !! j; Some (acc + heat tile))).
  { intros j acc cur Hj Hin. apply list_elem_of_lookup in Hin as [i Hi].
    destruct (lookup_lt_is_Some_2 cur j) as [t Ht]; [by rewrite (Hc _ _ Hi)|].
    rewrite Ht. by eexists. }
  destruct (reduce_runs (λ acc tile, Some (acc + heat tile)) column 0)
    as [ave Have]; [by eexists|].
  destruct (reduce_runs (λ acc cur, tile ← cur !! (worldHeight / 2)%nat;
                                    Some (acc + heat tile)) (tiles w) 0)
    as [equ Hequ].
  { intros acc cur Hin. apply Hrow; [|done].
    apply Nat.div_lt; unfold worldHeight; lia. }
  destruct (reduce_runs (λ acc cur, tile ← cur !! 0%nat; Some (acc + heat tile))
              (tiles w) 0) as [pol Hpol].
  { intros acc cur Hin. apply Hrow; [|done]. unfold worldHeight. lia. }
  unfold updateStats. rewrite Hcol. osimpl. rewrite Have. osimpl.
  rewrite Hequ. osimpl. rewrite Hpol. osimpl. by eexists.
Qed.

Lemma draw_legend ts w r :
  decimal ts → wf w → altitudesInRange w →
  r ∈ draw ts w → legendStyle (fillStyle r).
Proof.
  intros Hd Hwf Hrange Hin. apply list_elem_of_lookup in Hin as [i Hi].
  apply draw_lookup in Hi as (x & y & tile & Hg & _ & ->); [|done].
  cbn [fillStyle]. destruct (Hrange x y tile Hg) as [H0 H1].
  destruct (tileFillStyle_text ts tile Hd H0 H1) as [HL ->].
  unfold legendStyle. destruct (legend tile); [|tauto..].
  do 4 right. eexists. split; [exact HL|done].
Qed.

Lemma tick_altitudesInRange sqrt rand w :
  unitInterval rand → wf w → altitudesInRange w →
  ∃ w', tick sqrt rand w = Some w' ∧ wf w' ∧ altitudesInRange w'.
Proof.
  intros Hr Hwf Hrange.
  destruct (tick_altitude sqrt rand w Hwf Hr) as (w' & Htick & Hwf' & Ht).
  { intros x y t Hg. by destruct (Hrange x y t Hg). }
  exists w'. split; [exact Htick|]. split; [exact Hwf'|].
  intros x y t' Hg'. destruct (tiles_back w w' x y t' Hwf Hwf' Hg') as [t Hg].
  destruct (Ht x y t t' Hg Hg') as (H0 & H1 & _). split; [exact H0|].
  generalize dependent (altitude t'). intros a H0 H1. clear -H1. qc.
Qed.

Lemma frames_inv sqrt rand ts (n : nat) w :
  unitInterval rand → wf w → altitudesInRange w →
  ∃ w', frames sqrt rand ts n w = Some w' ∧ ticks sqrt rand n w = Some w'
    ∧ wf w' ∧ altitudesInRange w'.
Proof.
  intros Hr. revert w. induction n as [|n IH]; intros w Hwf Hrange.
  { by exists w. }
  destruct (tick_altitudesInRange sqrt rand w Hr Hwf Hrange)
    as (w1 & Htick & Hwf1 & Hrange1).
  destruct (updateStats_runs w1 Hwf1) as [s Hs].
  destruct (IH w1 Hwf1 Hrange1) as (w' & Hrun & Hticks & Hwf' & Hrange').
  exists w'. cbn [frames ticks]. unfold frame. rewrite Htick. osimpl.
  rewrite Hs. osimpl. done.
Qed.

(** X18. The animation never raises and paints the legend only: from a
    full grid with altitudes between 0 and [maxAltitude] (the new world is
    one), with random numbers in [[0, 1)] and numbers written in decimal
    digits, the first picture and every turn of the timer
    ([tick], [draw], [updateStats]) complete; the states are those of the
    ticks alone; every picture has [worldWidth * worldHeight] rectangles,
    and each fill style is one of the four fixed colours or the rock colour
    with a lightness between 0 and 100 percent. *)
Theorem animation_runs sqrt rand ts w :
  decimal ts → unitInterval rand → wf w → altitudesInRange w →
  (∀ r, r ∈ draw ts w → legendStyle (fillStyle r))
  ∧ ∀ n : nat, ∃ w0 w1 picture stats,
      frames sqrt rand ts n w = Some w0
      ∧ ticks sqrt rand n w = Some w0
      ∧ frame sqrt rand ts w0 = Some (w1, picture, stats)
      ∧ tick sqrt rand w0 = Some w1
      ∧ length picture = (worldWidth * worldHeight)%nat
      ∧ ∀ r, r ∈ picture → legendStyle (fillStyle r).
Proof.
  intros Hd Hr Hwf Hrange. split.
  { intros r. by apply draw_legend. }
  intros n.
  destruct (frames_inv sqrt rand ts n w Hr Hwf Hrange)
    as (w0 & Hrun & Hticks & Hwf0 & Hrange0).
  destruct (tick_altitudesInRange sqrt rand w0 Hr Hwf0 Hrange0)
    as (w1 & Htick & Hwf1 & Hrange1).
  destruct (updateStats_runs w1 Hwf1) as [s Hs].
  exists w0, w1, (draw ts w1), s.
  split; [exact Hrun|]. split; [exact Hticks|]. split.
  { unfold frame. rewrite Htick. osimpl. rewrite Hs. done. }
  split; [exact Htick|]. split.
  - destruct Hwf1 as [Hl Hc]. unfold draw. rewrite length_join.
    rewrite (sum_list_fmap_same worldHeight).
    + by rewrite length_imap, Hl, Nat.mul_comm.
    + apply Forall_lookup. intros x l Hx. rewrite list_lookup_imap in Hx.
      destruct (tiles w1 !! x) as [col|] eqn:Hcol; [|done].
      cbn [fmap option_fmap option_map] in Hx. apply (inj Some) in Hx. subst l.
      rewrite length_imap. rewrite Forall_lookup in Hc. by apply (Hc x).
  - intros r. by apply draw_legend.
Qed.

Lemma altitudesInRange_newWorld : altitudesInRange newWorld.
Proof.
  intros x y t Hg.
  apply (tiles_check (λ t, leb 0 (altitude t) && leb (altitude t) maxAltitude)
           newWorld) in Hg.
  - apply andb_true_iff in Hg as [H0 H1]. by rewrite !leb_le in *.
  - vm_compute. reflexivity.
Qed.

Lemma animation_runs_witness :
  decimal pretty ∧ unitInterval (λ _, num 1 2) ∧ wf newWorld
  ∧ altitudesInRange newWorld
  ∧ ∃ w0, frames sqrtFloor (λ _, num 1 2) pretty 7 newWorld = Some w0.
Proof.
  split; [exact decimal_pretty|]. split; [exact unitInterval_half|].
  split; [exact wf_newWorld|]. split; [exact altitudesInRange_newWorld|].
  destruct (animation_runs sqrtFloor (λ _, num 1 2) pretty newWorld
              decimal_pretty unitInterval_half wf_newWorld
              altitudesInRange_newWorld) as [_ Hn].
  destruct (Hn 7%nat) as (w0 & _ & _ & _ & Hrun & _). by exists w0.
Defined.
